(** * HardForge block-diagram viewer: layering, routing and interaction

    A shallow embedding of the diagram subsystem of
    [frontend/src/components/workspace/chat-panel.tsx]
    ([layoutBlocks], the orthogonal router, the waypoint and drag handlers,
    the wheel zoom and the layout persistence effects), with the properties
    the specification states about it.

    Conventions of the embedding.
    - A JavaScript [number] is a real number ([R]): arithmetic is exact and
      [NaN] and the infinities do not occur, except that a search bound
      initialised to [Infinity] is an [option R] whose [None] is [Infinity].
      [Math.hypot a b] is [sqrt (a*a + b*b)].
    - An array index, a column and a loop counter that only takes integer
      values is a [nat] or a [Z], injected with [INR] or [IZR] where the
      source does arithmetic on it.
    - An SVG path string is the list of its points: [pointsToPath] and
      [parsePathPoints] are inverse to each other on the strings the viewer
      builds, so both are the identity here.
    - A [Map] or [Set] whose iteration order the source observes is an
      association list or a duplicate-free list in insertion order; the three
      override collections, whose entry order nothing depends on, are
      [gmap]s.
    - A handler that can raise returns an [option], [None] for the raise;
      a loop that is not structurally recursive either carries a measure or
      a fuel that is proved sufficient. *)

From Stdlib Require Import Reals Lra Lia ZArith.
From stdpp Require Import base list gmap strings pretty sorting.
From Equations Require Import Equations.

(** ** JavaScript numbers *)

#[global] Instance Rlt_decision : RelDecision Rlt := Rlt_dec.
#[global] Instance Rle_decision : RelDecision Rle := Rle_dec.
#[global] Instance Rgt_decision : RelDecision Rgt := Rgt_dec.
#[global] Instance Rge_decision : RelDecision Rge := Rge_dec.
#[global] Instance Req_decision : EqDecision R := Req_dec_T.

(** [Math.hypot]. *)
Definition hypot (a b : R) : R := sqrt (a * a + b * b).

(** Resolves the comparisons of concrete indices. *)
Ltac decide_index :=
  repeat match goal with
    | |- context [decide (?a = ?b)] =>
        first [ rewrite (decide_True (P := a = b)) by (cbn; lia)
              | rewrite (decide_False (P := a = b)) by (cbn; lia) ]
    end.

(** [Math.min(...l)] and [Math.max(...l)] of a non-empty array (the source
    guards every use; the value on the empty array is never read). *)
Definition minOf (l : list R) : R :=
  match l with [] => 0%R | a :: rest => fold_left Rmin rest a end.

Definition maxOf (l : list R) : R :=
  match l with [] => 0%R | a :: rest => fold_left Rmax rest a end.

(** ** Data model *)

Record Block := mkBlock {
  block_id : string;
  inputs : list string;
  outputs : list string;
  host_hardware : option string;
}.

Record BlockConnection := mkConn {
  from_block : string;
  to_block : string;
  signal_name : string;
}.

Record LayoutBlock := mkLayoutBlock {
  lb_block : Block;
  lb_x : R;
  lb_y : R;
  lb_width : R;
  lb_height : R;
}.

Record Point := mkPoint { px : R; py : R }.

Record Delta := mkDelta { dx : R; dy : R }.

Definition BLOCK_WIDTH : R := 180.
Definition BLOCK_HEADER : R := 36.
Definition PORT_ROW : R := 20.
Definition H_GAP : R := 200.
Definition PADDING : R := 60.
Definition CONNECTION_SPREAD : R := 15.

(** ** Port resolution *)

Module Ports.
Local Open Scope R_scope.

Inductive Side := input | output.

(** [Array.prototype.indexOf]: the first index holding [name], or -1. *)
Fixpoint indexOf_from (ports : list string) (name : string) (i : Z) : Z :=
  match ports with
  | [] => (-1)%Z
  | p :: rest => if decide (p = name) then i else indexOf_from rest name (i + 1)%Z
  end.

Definition indexOf (ports : list string) (name : string) : Z :=
  indexOf_from ports name 0.

Definition sidePorts (lb : LayoutBlock) (side : Side) : list string :=
  match side with
  | input => inputs (lb_block lb)
  | output => outputs (lb_block lb)
  end.

Definition getPortPosition (lb : LayoutBlock) (portName : string) (side : Side) : Point :=
  let ports := sidePorts lb side in
  let idx := indexOf ports portName in
  let i := if bool_decide (0 <= idx)%Z then idx else 0%Z in
  let x := match side with input => lb_x lb | output => lb_x lb + lb_width lb end in
  let y := lb_y lb + BLOCK_HEADER + 10 + IZR i * PORT_ROW in
  mkPoint x y.

(** Where the viewer draws the port circle of row [idx] (the [cx], [cy] of
    the input and output port circles in the block rendering). *)
Definition portCircle (lb : LayoutBlock) (side : Side) (idx : nat) : Point :=
  mkPoint (match side with input => lb_x lb | output => lb_x lb + lb_width lb end)
          (lb_y lb + BLOCK_HEADER + 10 + INR idx * PORT_ROW).

End Ports.

(** ** Insertion-ordered maps and sets

    A JavaScript [Map] iterates its entries in insertion order and [set] on
    a present key keeps the key's place; a [Set] likewise. *)

Module Ordered.

Section OrderedMap.
Context {K V : Type} `{EqDecision K}.

Fixpoint get (k : K) (m : list (K * V)) : option V :=
  match m with
  | [] => None
  | (k', v) :: rest => if decide (k' = k) then Some v else get k rest
  end.

Definition has (k : K) (m : list (K * V)) : bool :=
  match get k m with Some _ => true | None => false end.

Fixpoint set (k : K) (v : V) (m : list (K * V)) : list (K * V) :=
  match m with
  | [] => [(k, v)]
  | (k', v') :: rest =>
      if decide (k' = k) then (k, v) :: rest else (k', v') :: set k v rest
  end.

(** [Set.prototype.add]. *)
Definition add (k : K) (s : list K) : list K :=
  if decide (k ∈ s) then s else s ++ [k].

Definition mem (k : K) (s : list K) : bool := bool_decide (k ∈ s).

End OrderedMap.

(** [m.get(k)!.push(v)] on a map of arrays ([get] of an absent key is the
    empty array the source has just stored). *)
Definition push {K V : Type} `{EqDecision K} (k : K) (v : V)
    (m : list (K * list V)) : list (K * list V) :=
  set k (default [] (get k m) ++ [v]) m.

End Ordered.

(** ** Hierarchical partitioner, layerer and block layout ([layoutBlocks]) *)

Module Layering.
Import Ordered.
Local Open Scope R_scope.

Definition GROUP_PAD_X : R := 20.
Definition GROUP_PAD_TOP : R := 30.
Definition GROUP_PAD_BOTTOM : R := 20.
Definition GROUP_GAP : R := 40.
Definition INTRA_GROUP_H_GAP : R := 40.
Definition INTRA_GROUP_V_GAP : R := 20.

(** [if (hw)]: a host name counts when it is present and not empty. *)
Definition truthy_hw (b : Block) : option string :=
  match host_hardware b with
  | Some hw => if decide (hw = "") then None else Some hw
  | None => None
  end.

(** LEVEL 1, the loop filling [hwGroupMap]; the state is the map and
    [soloGroupId]. *)
Definition partitionStep (st : list (string * list Block) * nat) (b : Block)
    : list (string * list Block) * nat :=
  let '(hwGroupMap, soloGroupId) := st in
  match truthy_hw b with
  | Some hw => (push hw b hwGroupMap, soloGroupId)
  | None => (set ("__solo_" +:+ pretty soloGroupId) [b] hwGroupMap, S soloGroupId)
  end.

Definition hwGroupMap (blocks : list Block) : list (string * list Block) :=
  fst (fold_left partitionStep blocks ([], 0%nat)).

(** *** The breadth-first layering loop

    The source runs the same loop twice, over group indices and, inside each
    group, over block ids; [K] is the node type. The loop state is the
    frontier, the column counter, the column map and the assigned set. *)

Section BFS.
Context {K : Type} `{EqDecision K}.

(** [for (const id of frontier) if (!assigned.has(id)) { column.set(id, col); assigned.add(id) }] *)
Definition assignStep (col : nat) (st : list (K * nat) * list K) (id : K)
    : list (K * nat) * list K :=
  let '(column, assigned) := st in
  if mem id assigned then st else (set id col column, add id assigned).

(** [for (const dest of outgoing.get(id) ?? []) if (!assigned.has(dest)) next.add(dest)] *)
Definition nextStep (outgoing : list (K * list K)) (assigned : list K)
    (next : list K) (id : K) : list K :=
  fold_left (fun nx dest => if mem dest assigned then nx else add dest nx)
            (default [] (get id outgoing)) next.

(** The [while (frontier.length > 0)] loop; [None] when the fuel runs out
    before the frontier empties. The result is the column map, the assigned
    set and the final value of the column counter. *)
Fixpoint bfsLoop (fuel : nat) (outgoing : list (K * list K)) (frontier : list K)
    (col : nat) (column : list (K * nat)) (assigned : list K)
    : option (list (K * nat) * list K * nat) :=
  match frontier with
  | [] => Some (column, assigned, col)
  | _ =>
      match fuel with
      | O => None
      | S fuel' =>
          let '(column', assigned') :=
            fold_left (assignStep col) frontier (column, assigned) in
          let next := fold_left (nextStep outgoing assigned') frontier [] in
          bfsLoop fuel' outgoing next (S col) column' assigned'
      end
  end.

End BFS.

(** *** Columns of the blocks of one group (LEVEL 2, first half) *)

Definition groupBlockIds (groupBlocks : list Block) : list string :=
  map block_id groupBlocks.

(** [intraIncoming] and [intraOutgoing]: every block of the group starts with
    an empty set, then each connection with both ends in the group adds its
    edge. *)
Definition emptyAdjacency (groupBlocks : list Block) : list (string * list string) :=
  fold_left (fun m b => set (block_id b) [] m) groupBlocks [].

Definition addEdge {K : Type} `{EqDecision K} (k v : K) (m : list (K * list K))
    : list (K * list K) :=
  match get k m with
  | Some s => set k (add v s) m
  | None => m
  end.

Definition intraIncoming (groupBlocks : list Block) (connections : list BlockConnection)
    : list (string * list string) :=
  let ids := groupBlockIds groupBlocks in
  fold_left (fun m c =>
      if mem (from_block c) ids && mem (to_block c) ids
      then addEdge (to_block c) (from_block c) m else m)
    connections (emptyAdjacency groupBlocks).

Definition intraOutgoing (groupBlocks : list Block) (connections : list BlockConnection)
    : list (string * list string) :=
  let ids := groupBlockIds groupBlocks in
  fold_left (fun m c =>
      if mem (from_block c) ids && mem (to_block c) ids
      then addEdge (from_block c) (to_block c) m else m)
    connections (emptyAdjacency groupBlocks).

Definition intraRoots (groupBlocks : list Block) (connections : list BlockConnection)
    : list string :=
  map block_id
    (filter (fun b => default [] (get (block_id b) (intraIncoming groupBlocks connections)) = [])
            groupBlocks).

(** [blockColumn] once the loop and the pass over the unreached blocks
    ("Assign disconnected blocks within group") are done. *)
Definition blockColumn (groupBlocks : list Block) (connections : list BlockConnection)
    : option (list (string * nat)) :=
  match bfsLoop (S (length groupBlocks)) (intraOutgoing groupBlocks connections)
                (intraRoots groupBlocks connections) 0 [] [] with
  | None => None
  | Some (column, _, col) =>
      Some (fold_left (fun m b => if has (block_id b) m then m else set (block_id b) col m)
                      groupBlocks column)
  end.

(** *** Columns of the hardware groups (LEVEL 1, second half) *)

(** [blockToGroupIdx]: every block id mapped to the index of its group, a
    later group winning for a repeated id. *)
Definition blockToGroupIdx (groups : list (string * list Block)) : list (string * nat) :=
  fold_left (fun m ig => fold_left (fun m b => set (block_id b) (fst ig) m) (snd (snd ig)) m)
            (imap (fun i g => (i, g)) groups) [].

Definition emptyGroupAdjacency (n : nat) : list (nat * list nat) :=
  map (fun i => (i, [])) (seq 0 n).

Definition groupOutgoing (groups : list (string * list Block))
    (connections : list BlockConnection) : list (nat * list nat) :=
  let idx := blockToGroupIdx groups in
  fold_left (fun m c =>
      match get (from_block c) idx, get (to_block c) idx with
      | Some fromGroup, Some toGroup =>
          if decide (fromGroup = toGroup) then m else addEdge fromGroup toGroup m
      | _, _ => m
      end)
    connections (emptyGroupAdjacency (length groups)).

Definition groupIncoming (groups : list (string * list Block))
    (connections : list BlockConnection) : list (nat * list nat) :=
  let idx := blockToGroupIdx groups in
  fold_left (fun m c =>
      match get (from_block c) idx, get (to_block c) idx with
      | Some fromGroup, Some toGroup =>
          if decide (fromGroup = toGroup) then m else addEdge toGroup fromGroup m
      | _, _ => m
      end)
    connections (emptyGroupAdjacency (length groups)).

Definition rootGroups (groups : list (string * list Block))
    (connections : list BlockConnection) : list nat :=
  filter (fun i => default [] (get i (groupIncoming groups connections)) = [])
         (seq 0 (length groups)).

(** The column of every group, by index, once the loop and the pass over the
    unreached groups ("Assign disconnected groups to last column") are done. *)
Definition groupColumn (groups : list (string * list Block))
    (connections : list BlockConnection) : option (list nat) :=
  match bfsLoop (S (length groups)) (groupOutgoing groups connections)
                (rootGroups groups connections) 0 [] [] with
  | None => None
  | Some (column, _, groupCol) =>
      Some (map (fun i => default groupCol (get i column)) (seq 0 (length groups)))
  end.

(** *** Rectangles inside a group (LEVEL 2, second half) *)

Definition subColGroups (groupBlocks : list Block) (column : list (string * nat))
    : list (nat * list Block) :=
  fold_left (fun m b => push (default 0%nat (get (block_id b) column)) b m) groupBlocks [].

Definition blockHeight (b : Block) : R :=
  BLOCK_HEADER
  + INR (Nat.max (length (inputs b)) (Nat.max (length (outputs b)) 1)) * PORT_ROW
  + 12.

(** One sub-column: the blocks stacked from [yOffset = 0]. *)
Definition stackSubColumn (subCol : nat) (blockList : list Block) : list LayoutBlock :=
  fst (fold_left (fun st b =>
         let h := blockHeight b in
         (fst st ++ [mkLayoutBlock b (INR subCol * (BLOCK_WIDTH + INTRA_GROUP_H_GAP))
                                   (snd st) BLOCK_WIDTH h],
          snd st + h + INTRA_GROUP_V_GAP))
       blockList ([], 0)).

Definition tempLayout (groupBlocks : list Block) (column : list (string * nat))
    : list LayoutBlock :=
  concat (map (fun e => stackSubColumn (fst e) (snd e)) (subColGroups groupBlocks column)).

Record HwGroup := mkHwGroup {
  g_name : string;
  g_blocks : list Block;
  g_column : nat;
  g_layoutBlocks : list LayoutBlock;
  g_width : R;
  g_height : R;
}.

Definition layoutGroup (name : string) (groupBlocks : list Block) (column : nat)
    (connections : list BlockConnection) : option HwGroup :=
  cols ← blockColumn groupBlocks connections;
  let tl := tempLayout groupBlocks cols in
  let minX := minOf (map lb_x tl) in
  let minY := minOf (map lb_y tl) in
  let maxX := maxOf (map (fun lb => lb_x lb + lb_width lb) tl) in
  let maxY := maxOf (map (fun lb => lb_y lb + lb_height lb) tl) in
  Some (mkHwGroup name groupBlocks column tl
          (match tl with [] => 0 | _ => maxX - minX + GROUP_PAD_X * 2 end)
          (match tl with [] => 0 | _ => maxY - minY + GROUP_PAD_TOP + GROUP_PAD_BOTTOM end)).

(** *** Groups on the canvas (LEVEL 3) *)

(** [groupColumns]: group indices by column, in insertion order. *)
Definition groupColumns (groups : list HwGroup) : list (nat * list nat) :=
  fold_left (fun m ig => push (g_column (snd ig)) (fst ig) m)
            (imap (fun i g => (i, g)) groups) [].

Definition translate (ox oy : R) (lb : LayoutBlock) : LayoutBlock :=
  mkLayoutBlock (lb_block lb) (lb_x lb + ox) (lb_y lb + oy) (lb_width lb) (lb_height lb).

(** The inner loop over the groups of one column; the state is the groups
    (their rectangles are moved in place) and [canvasY]. *)
Definition placeGroup (canvasX : R) (st : list HwGroup * R) (gIdx : nat) : list HwGroup * R :=
  let '(groups, canvasY) := st in
  match groups !! gIdx with
  | None => st
  | Some group =>
      (<[gIdx := mkHwGroup (g_name group) (g_blocks group) (g_column group)
                   (map (translate (canvasX + GROUP_PAD_X) (canvasY + GROUP_PAD_TOP))
                        (g_layoutBlocks group))
                   (g_width group) (g_height group)]> groups,
       canvasY + g_height group + GROUP_GAP)
  end.

(** The outer loop over the sorted columns; the state is the groups and
    [canvasX]. *)
Definition placeColumn (byColumn : list (nat * list nat)) (st : list HwGroup * R) (col : nat)
    : list HwGroup * R :=
  let '(groups, canvasX) := st in
  let colGroups := default [] (get col byColumn) in
  let maxWidth := maxOf (map (fun i => from_option g_width 0 (groups !! i)) colGroups) in
  (fst (fold_left (placeGroup canvasX) colGroups (groups, PADDING)),
   canvasX + maxWidth + H_GAP).

Definition placeGroups (groups : list HwGroup) : list HwGroup :=
  let byColumn := groupColumns groups in
  fst (fold_left (placeColumn byColumn) (merge_sort Nat.le (map fst byColumn))
                 (groups, PADDING)).

Definition layoutBlocks (blocks : list Block) (connections : list BlockConnection)
    : option (list LayoutBlock) :=
  match blocks with
  | [] => Some []
  | _ =>
      let named := hwGroupMap blocks in
      cols ← groupColumn named connections;
      groups ← mapM (fun e => layoutGroup (fst (fst e)) (snd (fst e)) (snd e) connections)
                    (zip named cols);
      Some (concat (map g_layoutBlocks (placeGroups groups)))
  end.

End Layering.

(** ** Orthogonal router *)

Module Router.
Import Ordered.
Local Open Scope R_scope.

Definition lineIntersectsBlock (x startY endY : R) (block : LayoutBlock) (margin : R) : bool :=
  let minY := Rmin startY endY in
  let maxY := Rmax startY endY in
  let blockLeft := lb_x block - margin in
  let blockRight := lb_x block + lb_width block + margin in
  let blockTop := lb_y block - margin in
  let blockBottom := lb_y block + lb_height block + margin in
  bool_decide (x >= blockLeft) && bool_decide (x <= blockRight)
  && bool_decide (maxY >= blockTop) && bool_decide (minY <= blockBottom).

(** [!blocks.some((b) => lineIntersectsBlock(x, startY, endY, b, margin))] with
    the function's [margin = 10]. *)
Definition channelClear (startY endY : R) (blocks : list LayoutBlock) (x : R) : bool :=
  negb (existsb (fun b => lineIntersectsBlock x startY endY b 10) blocks).

(** [for (let offset = 20; offset <= 300; offset += 20)] of
    [findClearVerticalChannel], entered at [offset]; falling out of the loop
    returns [preferredX]. *)
Equations? channelLoop (preferredX startY endY : R) (blocks : list LayoutBlock)
    (offset : Z) : R by wf (Z.to_nat (320 - offset)) lt :=
  channelLoop preferredX startY endY blocks offset with Z_le_gt_dec offset 300 := {
    | left _ =>
        if channelClear startY endY blocks (preferredX - IZR offset)
        then preferredX - IZR offset
        else if channelClear startY endY blocks (preferredX + IZR offset)
        then preferredX + IZR offset
        else channelLoop preferredX startY endY blocks (offset + 20)%Z
    | right _ => preferredX }.
Proof. lia. Qed.

Definition findClearVerticalChannel (preferredX startY endY : R)
    (blocks : list LayoutBlock) : R :=
  if channelClear startY endY blocks preferredX then preferredX
  else channelLoop preferredX startY endY blocks 20.

Definition computeOrthogonalPath (fromPort toPort : Point) (allBlocks : list LayoutBlock)
    (sameGroup : bool) (verticalOffset : R) : list Point :=
  let exitDistance := if sameGroup then 20 else 40 in
  let exitX := px fromPort + exitDistance in
  let entryX := px toPort - exitDistance in
  let fromY := py fromPort + verticalOffset in
  let toY := py toPort + verticalOffset in
  if bool_decide (Rabs (px toPort - px fromPort) < BLOCK_WIDTH * 0.5) then
    let jogX := px fromPort + 30 + Rabs verticalOffset in
    [fromPort; mkPoint jogX fromY; mkPoint jogX toY; toPort]
  else if bool_decide (px toPort > px fromPort + exitDistance * 2) then
    let midX := (exitX + entryX) / 2 in
    let baseChannelX := findClearVerticalChannel midX fromY toY allBlocks in
    let channelX := baseChannelX + verticalOffset * 0.7 in
    if bool_decide (Rabs (fromY - toY) < 1) then [fromPort; toPort]
    else [fromPort; mkPoint channelX fromY; mkPoint channelX toY; toPort]
  else
    let nearSourceBlocks :=
      filter (fun b => Rabs (lb_y b - py fromPort) < lb_height b + 40) allBlocks in
    let sourceRight :=
      match nearSourceBlocks with
      | [] => px fromPort
      | _ => maxOf (map (fun b => lb_x b + lb_width b) nearSourceBlocks ++ [px fromPort])
      end in
    let nearDestBlocks :=
      filter (fun b => Rabs (lb_y b - py toPort) < lb_height b + 40) allBlocks in
    let destLeft :=
      match nearDestBlocks with
      | [] => px toPort
      | _ => minOf (map lb_x nearDestBlocks ++ [px toPort])
      end in
    let loopRightX := sourceRight + 30 in
    let loopLeftX := destLeft - 30 in
    match allBlocks with
    | [] => [fromPort; toPort]
    | _ =>
        let minTop := minOf (map lb_y allBlocks) - 40 in
        let maxBottom := maxOf (map (fun b => lb_y b + lb_height b) allBlocks) + 40 in
        let goUp :=
          bool_decide (Rabs (fromY - minTop) + Rabs (toY - minTop)
                       < Rabs (fromY - maxBottom) + Rabs (toY - maxBottom)) in
        let loopY := if goUp then minTop + verticalOffset else maxBottom + verticalOffset in
        [fromPort; mkPoint loopRightX fromY; mkPoint loopRightX loopY;
         mkPoint loopLeftX loopY; mkPoint loopLeftX toY; toPort]
    end.

(** *** Path helpers *)

(** The projection parameter [t] both nearest-segment computations use:
    [lenSq === 0 ? 0 : Math.max(0, Math.min(1, dot / lenSq))]. *)
Definition segmentT (p a b : Point) : R :=
  let ddx := px b - px a in
  let ddy := py b - py a in
  let lenSq := ddx * ddx + ddy * ddy in
  if decide (lenSq = 0) then 0
  else Rmax 0 (Rmin 1 (((px p - px a) * ddx + (py p - py a) * ddy) / lenSq)).

Definition pointToSegmentDist (p a b : Point) : R :=
  let ddx := px b - px a in
  let ddy := py b - py a in
  let lenSq := ddx * ddx + ddy * ddy in
  if decide (lenSq = 0) then hypot (px p - px a) (py p - py a)
  else
    let t := Rmax 0 (Rmin 1 (((px p - px a) * ddx + (py p - py a) * ddy) / lenSq)) in
    hypot (px p - (px a + t * ddx)) (py p - (py a + t * ddy)).

(** [dist < bestDist] against a bound that starts at [Infinity]. *)
Definition closer (dist : R) (bestDist : option R) : bool :=
  match bestDist with
  | None => true
  | Some d => bool_decide (dist < d)
  end.

(** The loop [for (s = 0; s < pts.length - 1; s++) { dist = pointToSegmentDist(...);
    if (dist < bestDist) { bestDist = dist; bestSeg = s } }] the double-click
    handler and [removeWaypoint] both run; it returns [bestSeg]. *)
Definition nearestSegment (p : Point) (pts : list Point) : nat :=
  fst (fold_left (fun st s =>
         match pts !! s, pts !! S s with
         | Some a, Some b =>
             let dist := pointToSegmentDist p a b in
             if closer dist (snd st) then (s, Some dist) else st
         | _, _ => st
         end)
       (seq 0 (length pts - 1)) (0%nat, None)).

Definition moved (ov : Delta) : bool :=
  bool_decide (Rabs (dx ov) > 0.1) || bool_decide (Rabs (dy ov) > 0.1).

(** Interior points (indices 1..n-2) move by their override; the two port
    anchors never move. *)
Definition applyPointOverrides (path : list Point) (overrides : list Delta) : list Point :=
  if bool_decide (length path < 3)%nat then path
  else
    imap (fun i p =>
        if bool_decide (1 <= i)%nat && bool_decide (i < length path - 1)%nat then
          match overrides !! (i - 1)%nat with
          | Some ov => if moved ov then mkPoint (px p + dx ov) (py p + dy ov) else p
          | None => p
          end
        else p)
      path.

(** *** Waypoints *)

Record WpSeg := mkWpSeg { ws_wp : Point; ws_segIdx : nat; ws_t : R }.

(** The search inside [waypoints.map] of [insertWaypointsIntoPath]; the state
    is [(bestDist, bestIdx, bestT)]. *)
Definition locateWaypoint (points : list Point) (wp : Point) : WpSeg :=
  let '(_, bestIdx, bestT) :=
    fold_left (fun st s =>
        match points !! s, points !! S s with
        | Some p1, Some p2 =>
            let ddx := px p2 - px p1 in
            let ddy := py p2 - py p1 in
            let t := segmentT wp p1 p2 in
            let dist := hypot (px wp - (px p1 + t * ddx)) (py wp - (py p1 + t * ddy)) in
            if closer dist (fst (fst st)) then (Some dist, s, t) else st
        | _, _ => st
        end)
      (seq 0 (length points - 1)) (None, 0%nat, 0) in
  mkWpSeg wp bestIdx bestT.

(** The comparator [(a, b) => b.segIdx - a.segIdx || b.t - a.t] does not put
    [b] before [a]: its value is not positive. *)
Definition wpBefore (a b : WpSeg) : bool :=
  if decide (ws_segIdx a = ws_segIdx b) then bool_decide (ws_t b - ws_t a <= 0)
  else bool_decide (ws_segIdx b < ws_segIdx a)%nat.

(** [Array.prototype.sort] is stable: an element stays in front of the later
    elements the comparator does not put before it. *)
Fixpoint sortInsert (a : WpSeg) (l : list WpSeg) : list WpSeg :=
  match l with
  | [] => [a]
  | b :: rest => if wpBefore a b then a :: l else b :: sortInsert a rest
  end.

Definition sortWpSeg (l : list WpSeg) : list WpSeg := foldr sortInsert [] l.

(** [points.splice(at, 0, a, b)]. *)
Definition splice2 (at_ : nat) (a b : Point) (points : list Point) : list Point :=
  take at_ points ++ [a; b] ++ drop at_ points.

(** The body of [for (const { segIdx } of wpWithSeg)]. Reading [p1.y] when
    [points[segIdx]] or [points[segIdx + 1]] is undefined raises; this needs
    a path of fewer than two points, which the router never builds, and the
    points are returned unchanged there. [wpWithSeg.find] returns the first
    entry on the segment. *)
Definition splitSegment (wpWithSeg : list WpSeg) (points : list Point) (segIdx : nat)
    : list Point :=
  match points !! segIdx, points !! S segIdx with
  | Some p1, Some p2 =>
      let isHoriz := bool_decide (Rabs (py p1 - py p2) < 1) in
      let found := find (fun w => bool_decide (ws_segIdx w = segIdx)) wpWithSeg in
      if isHoriz then
        let splitY := py p1 in
        let splitX := from_option (fun w => px (ws_wp w)) 0 found in
        let minX := Rmin (px p1) (px p2) + 5 in
        let maxX := Rmax (px p1) (px p2) - 5 in
        let clampedX := Rmax minX (Rmin maxX splitX) in
        splice2 (S segIdx) (mkPoint clampedX splitY) (mkPoint clampedX splitY) points
      else
        let splitX := px p1 in
        let splitY := from_option (fun w => py (ws_wp w)) 0 found in
        let minY := Rmin (py p1) (py p2) + 5 in
        let maxY := Rmax (py p1) (py p2) - 5 in
        let clampedY := Rmax minY (Rmin maxY splitY) in
        splice2 (S segIdx) (mkPoint splitX clampedY) (mkPoint splitX clampedY) points
  | _, _ => points
  end.

(** The [path] of the result; [segmentMap] is returned empty and no caller
    reads it. *)
Definition insertWaypointsIntoPath (path : list Point) (waypoints : list Point) : list Point :=
  match waypoints with
  | [] => path
  | _ =>
      let wpWithSeg := sortWpSeg (map (locateWaypoint path) waypoints) in
      fold_left (splitSegment wpWithSeg) (map ws_segIdx wpWithSeg) path
  end.

(** *** Connection spreading *)

(** [[conn.from_block, conn.to_block].sort().join('<->')]: the two ids in
    string order, joined. *)
Definition pairKey (conn : BlockConnection) : string :=
  if String.ltb (to_block conn) (from_block conn)
  then to_block conn +:+ "<->" +:+ from_block conn
  else from_block conn +:+ "<->" +:+ to_block conn.

Definition pairGroups (connections : list BlockConnection) : list (string * list nat) :=
  fold_left (fun m ic => push (pairKey (snd ic)) (fst ic) m)
            (imap (fun i c => (i, c)) connections) [].

(** [indices.forEach((idx, positionInGroup) => offsets.set(idx, ...))] *)
Definition spreadGroup (offsets : list (nat * R)) (indices : list nat) : list (nat * R) :=
  let groupSize := length indices in
  fold_left (fun m pi =>
      let positionInGroup := fst pi in
      let spreadFactor :=
        if decide (groupSize = 1%nat) then 0
        else INR positionInGroup - (INR groupSize - 1) / 2 in
      set (snd pi) (spreadFactor * CONNECTION_SPREAD) m)
    (imap (fun i idx => (i, idx)) indices) offsets.

Definition connectionOffsets (connections : list BlockConnection) : list (nat * R) :=
  fold_left spreadGroup (map snd (pairGroups connections)) [].

End Router.

(** ** The viewer: derived geometry and interaction state *)

Module Viewer.
Import Ports Router.
Local Open Scope R_scope.

(** The three override collections. *)
Record Overrides := mkOverrides {
  blockPositionOverrides : gmap string Point;
  connPointOverrides : gmap nat (list Delta);
  connWaypoints : gmap nat (list Point);
}.

Definition noOverrides : Overrides := mkOverrides ∅ ∅ ∅.

(** *** Memoised geometry *)

(** The [map] of the [layout] memo over the result of [layoutBlocks]. *)
Definition applyBlockOverrides (overrides : gmap string Point) (baseLayout : list LayoutBlock)
    : list LayoutBlock :=
  map (fun lb =>
      match overrides !! block_id (lb_block lb) with
      | Some override =>
          mkLayoutBlock (lb_block lb) (px override) (py override) (lb_width lb) (lb_height lb)
      | None => lb
      end)
    baseLayout.

(** The [layout] memo; [None] only if [layoutBlocks] ran out of fuel. *)
Definition layout (blocks : list Block) (connections : list BlockConnection)
    (overrides : gmap string Point) : option (list LayoutBlock) :=
  applyBlockOverrides overrides <$> Layering.layoutBlocks blocks connections.

Definition layoutMap (layout : list LayoutBlock) : gmap string LayoutBlock :=
  fold_left (fun m lb => <[block_id (lb_block lb) := lb]> m) layout ∅.

Definition areBlocksInSameGroup (fromBlockId toBlockId : string)
    (lmap : gmap string LayoutBlock) : bool :=
  match lmap !! fromBlockId, lmap !! toBlockId with
  | Some fromLb, Some toLb =>
      match Layering.truthy_hw (lb_block fromLb), Layering.truthy_hw (lb_block toLb) with
      | Some fromHw, Some toHw => bool_decide (fromHw = toHw)
      | _, _ => false
      end
  | _, _ => false
  end.

(** The base path of connection [connIdx] between two laid-out blocks: the
    five lines the path memo, the double-click handler and [removeWaypoint]
    share. *)
Definition basePath (connections : list BlockConnection) (layout : list LayoutBlock)
    (connIdx : nat) (conn : BlockConnection) (fromLb toLb : LayoutBlock) : list Point :=
  let fromPort := getPortPosition fromLb (signal_name conn) output in
  let toPort := getPortPosition toLb (signal_name conn) input in
  let sameGroup := areBlocksInSameGroup (from_block conn) (to_block conn) (layoutMap layout) in
  let vertOffset := default 0 (Ordered.get connIdx (connectionOffsets connections)) in
  computeOrthogonalPath fromPort toPort layout sameGroup vertOffset.

(** The [path] of entry [i] of the [computedPaths] memo; [None] is the
    [null] of a connection with a missing end (or of an index past the
    array). *)
Definition computedPath (connections : list BlockConnection) (layout : list LayoutBlock)
    (ov : Overrides) (i : nat) : option (list Point) :=
  conn ← connections !! i;
  fromLb ← layoutMap layout !! from_block conn;
  toLb ← layoutMap layout !! to_block conn;
  let wps := default [] (connWaypoints ov !! i) in
  let wpPath := insertWaypointsIntoPath (basePath connections layout i conn fromLb toLb) wps in
  Some (match connPointOverrides ov !! i with
        | Some (o :: os) => applyPointOverrides wpPath (o :: os)
        | _ => wpPath
        end).

(** *** Waypoint editing *)

Definition zeroDelta : Delta := mkDelta 0 0.

(** [while (overrides.length < n) overrides.push({ dx: 0, dy: 0 })] *)
Definition padTo (n : nat) (overrides : list Delta) : list Delta :=
  overrides ++ replicate (n - length overrides) zeroDelta.

(** [m.delete(k)] when the array is empty, [m.set(k, array)] otherwise. *)
Definition storeList {A : Type} (k : nat) (l : list A) (m : gmap nat (list A))
    : gmap nat (list A) :=
  match l with [] => delete k m | _ => <[k := l]> m end.

(** [removeWaypoint(connIdx, wpIdx)]; [None] when it raises (no connection
    at [connIdx], or no waypoint at [wpIdx] while the segment search runs). *)
Definition removeWaypoint (connections : list BlockConnection) (layout : list LayoutBlock)
    (ov : Overrides) (connIdx wpIdx : nat) : option Overrides :=
  let existingWps := default [] (connWaypoints ov !! connIdx) in
  let waypoints' := storeList connIdx (delete wpIdx existingWps) (connWaypoints ov) in
  let overrides := default [] (connPointOverrides ov !! connIdx) in
  conn ← connections !! connIdx;
  overrides' ←
    match layoutMap layout !! from_block conn, layoutMap layout !! to_block conn with
    | Some fromLb, Some toLb =>
        let basePoints := basePath connections layout connIdx conn fromLb toLb in
        wp ← existingWps !! wpIdx;
        let bestSeg := nearestSegment wp basePoints in
        let removeAt := (bestSeg + wpIdx * 2)%nat in
        Some (if bool_decide (removeAt < length overrides)%nat
              then take removeAt overrides
                   ++ drop (removeAt + Nat.min 2 (length overrides - removeAt)) overrides
              else overrides)
    | _, _ => Some overrides
    end;
  Some (mkOverrides (blockPositionOverrides ov)
                    (storeList connIdx overrides' (connPointOverrides ov))
                    waypoints').

(** [existingWps.findIndex((wp) => Math.hypot(wp.x - svgX, wp.y - svgY) < 15)] *)
Definition nearWaypoint (click : Point) (wp : Point) : bool :=
  bool_decide (hypot (px wp - px click) (py wp - py click) < 15).

(** [handleConnDoubleClick(connIdx, e)], with [click] the event position in
    SVG coordinates; [None] when it raises. *)
Definition handleConnDoubleClick (connections : list BlockConnection)
    (layout : list LayoutBlock) (ov : Overrides) (connIdx : nat) (click : Point)
    : option Overrides :=
  let existingWps := default [] (connWaypoints ov !! connIdx) in
  match list_find (fun wp => nearWaypoint click wp = true) existingWps with
  | Some (removeIdx, _) => removeWaypoint connections layout ov connIdx removeIdx
  | None =>
      let waypoints' := <[connIdx := existingWps ++ [click]]> (connWaypoints ov) in
      let overrides := default [] (connPointOverrides ov !! connIdx) in
      conn ← connections !! connIdx;
      let overrides' :=
        match layoutMap layout !! from_block conn, layoutMap layout !! to_block conn with
        | Some fromLb, Some toLb =>
            let expandedPts :=
              insertWaypointsIntoPath (basePath connections layout connIdx conn fromLb toLb)
                                      existingWps in
            let padded := padTo (length expandedPts - 2) overrides in
            let bestSeg := nearestSegment click expandedPts in
            take bestSeg padded ++ [zeroDelta; zeroDelta] ++ drop bestSeg padded
        | _, _ => overrides
        end in
      Some (mkOverrides (blockPositionOverrides ov)
                        (<[connIdx := overrides']> (connPointOverrides ov))
                        waypoints')
  end.

End Viewer.

(** ** Persistence bridge

    [localStorage] maps a key to a text. A text is represented by what
    [JSON.parse] makes of it: it raises ([NotJson], which also stands for
    the empty text that [loadLayout] rejects before parsing), or it yields a
    falsy value ([null], [false], [0], the empty string), or an object. Of an
    object the three properties the viewer reads are kept, each absent
    ([undefined]) or an array of well-typed entries; other values are outside
    this model. *)

Module Persistence.
Import Viewer.

Record LayoutData := mkLayoutData {
  blockPositions : list (string * Point);
  pointOverrides : list (nat * list Delta);
  waypoints : list (nat * list Point);
}.

Record StoredObject := mkStoredObject {
  so_blockPositions : option (list (string * Point));
  so_pointOverrides : option (list (nat * list Delta));
  so_waypoints : option (list (nat * list Point));
}.

Inductive Parsed := PFalsy | PObject (o : StoredObject).

Inductive Stored := NotJson | Json (v : Parsed).

(** [JSON.parse(JSON.stringify(data))]. *)
Definition stringify (data : LayoutData) : Stored :=
  Json (PObject (mkStoredObject (Some (blockPositions data))
                                (Some (pointOverrides data))
                                (Some (waypoints data)))).

Definition getLayoutKey (designId : string) : string := "hardforge-layout-" +:+ designId.

(** [loadLayout]; [None] is [null]: no item, an empty text, or a text
    [JSON.parse] raised on (caught). *)
Definition loadLayout (designId : string) (storage : gmap string Stored) : option Parsed :=
  match storage !! getLayoutKey designId with
  | None => None
  | Some NotJson => None
  | Some (Json v) => Some v
  end.

(** [saveLayout]; [full] is a storage whose [setItem] raises (caught). *)
Definition saveLayout (full : bool) (designId : string) (data : LayoutData)
    (storage : gmap string Stored) : gmap string Stored :=
  if full then storage else <[getLayoutKey designId := stringify data]> storage.

(** [!designId] fails. *)
Definition truthyId (designId : option string) : option string :=
  match designId with
  | Some d => if decide (d = "") then None else Some d
  | None => None
  end.

(** [new Map(entries)]: a later entry replaces an earlier one with its key. *)
Definition mapOfEntries {K V : Type} `{Countable K} (entries : list (K * V)) : gmap K V :=
  fold_left (fun m e => <[fst e := snd e]> m) entries ∅.

(** [[...m.entries()]]. *)
Definition entriesOf {K V : Type} `{Countable K} (m : gmap K V) : list (K * V) :=
  map_to_list m.

Definition snapshot (ov : Overrides) : LayoutData :=
  mkLayoutData (entriesOf (blockPositionOverrides ov))
               (entriesOf (connPointOverrides ov))
               (entriesOf (connWaypoints ov)).

(** *** The load effect *)

Inductive LoadOutcome := LoadRaises | LoadDone (ov : Overrides).

(** [if (saved.f.length > 0) setF(new Map(saved.f))]: reading [length] of an
    absent property raises a [TypeError]. *)
Definition loadField {K V : Type} `{Countable K} (field : option (list (K * V)))
    (current : gmap K V) : option (gmap K V) :=
  match field with
  | None => None
  | Some [] => Some current
  | Some entries => Some (mapOfEntries entries)
  end.

(** The effect "Load saved layout from localStorage on mount (or when
    designId changes)", run on the override collections [ov]. *)
Definition loadEffect (designId : option string) (storage : gmap string Stored)
    (ov : Overrides) : LoadOutcome :=
  match truthyId designId with
  | None => LoadDone ov
  | Some d =>
      match loadLayout d storage with
      | None => LoadDone ov
      | Some PFalsy => LoadDone ov
      | Some (PObject saved) =>
          match loadField (so_blockPositions saved) (blockPositionOverrides ov),
                loadField (so_pointOverrides saved) (connPointOverrides ov),
                loadField (so_waypoints saved) (connWaypoints ov) with
          | Some bp, Some po, Some wp => LoadDone (mkOverrides bp po wp)
          | _, _, _ => LoadRaises
          end
      end
  end.

(** A viewer that has just been mounted: [useState(new Map())] three times,
    then the load effect. *)
Definition mount (designId : option string) (storage : gmap string Stored) : LoadOutcome :=
  loadEffect designId storage noOverrides.

(** *** The debounced save effect

    [timers] holds the pending [setTimeout] callbacks by id (a callback is
    the [saveLayout] call it will make); [layoutSaveTimer] is the ref and
    [saveCleanup] tells whether the last run of the effect returned its
    cleanup function. The 2-second timer that hides the "Layout saved"
    badge only touches presentation state and is left out. *)

Record Saver := mkSaver {
  storage : gmap string Stored;
  storageFull : bool;
  timers : gmap nat (string * LayoutData);
  nextTimer : nat;
  layoutSaveTimer : option nat;
  saveCleanup : bool;
}.

(** [if (layoutSaveTimer.current) clearTimeout(layoutSaveTimer.current)] *)
Definition clearSaveTimer (w : Saver) : Saver :=
  match layoutSaveTimer w with
  | Some t => mkSaver (storage w) (storageFull w) (delete t (timers w)) (nextTimer w)
                      (layoutSaveTimer w) (saveCleanup w)
  | None => w
  end.

Definition allEmpty (ov : Overrides) : bool :=
  bool_decide (size (blockPositionOverrides ov) = 0%nat)
  && bool_decide (size (connPointOverrides ov) = 0%nat)
  && bool_decide (size (connWaypoints ov) = 0%nat).

(** The body of the save effect. *)
Definition saveEffect (designId : option string) (ov : Overrides) (w : Saver) : Saver :=
  match truthyId designId with
  | None => mkSaver (storage w) (storageFull w) (timers w) (nextTimer w)
                    (layoutSaveTimer w) false
  | Some d =>
      if allEmpty ov
      then mkSaver (storage w) (storageFull w) (timers w) (nextTimer w)
                   (layoutSaveTimer w) false
      else
        let w1 := clearSaveTimer w in
        mkSaver (storage w1) (storageFull w1)
                (<[nextTimer w1 := (d, snapshot ov)]> (timers w1))
                (S (nextTimer w1)) (Some (nextTimer w1)) true
  end.

(** The cleanup the previous run returned, if it returned one. *)
Definition runCleanup (w : Saver) : Saver :=
  if saveCleanup w then clearSaveTimer w else w.

(** A change of [designId] or of one of the three collections: React runs
    the previous cleanup, then the effect. *)
Definition rerunSaveEffect (designId : option string) (ov : Overrides) (w : Saver) : Saver :=
  saveEffect designId ov (runCleanup w).

(** Timer [t] fires: its callback, if still pending, calls [saveLayout]. *)
Definition fireTimer (t : nat) (w : Saver) : Saver :=
  match timers w !! t with
  | Some (d, data) =>
      mkSaver (saveLayout (storageFull w) d data (storage w)) (storageFull w)
              (delete t (timers w)) (nextTimer w) (layoutSaveTimer w) (saveCleanup w)
  | None => w
  end.

Inductive SaverEvent :=
| Changed (designId : option string) (ov : Overrides)
| Fired (t : nat)
| Unmounted.

Definition saverStep (w : Saver) (e : SaverEvent) : Saver :=
  match e with
  | Changed designId ov => rerunSaveEffect designId ov w
  | Fired t => fireTimer t w
  | Unmounted =>
      let w' := runCleanup w in
      mkSaver (storage w') (storageFull w') (timers w') (nextTimer w') (layoutSaveTimer w')
              false
  end.

(** A mounted viewer before its first effect run, over any storage; timer
    ids are positive. *)
Definition freshSaver (st : gmap string Stored) (full : bool) : Saver :=
  mkSaver st full ∅ 1 None false.

Inductive saverReachable : Saver -> Prop :=
| reach_fresh st full : saverReachable (freshSaver st full)
| reach_step w e : saverReachable w -> saverReachable (saverStep w e).

(** Every pending timer is the one [layoutSaveTimer] names, and the cleanup
    that cancels it is registered. *)
Definition saverInv (w : Saver) : Prop :=
  forall t x, timers w !! t = Some x -> layoutSaveTimer w = Some t /\ saveCleanup w = true.

End Persistence.

(** ** Interaction controller

    The pointer and wheel handlers of [BlockDiagramViewer] as functions on
    the component's state and refs. Hover and selection highlights, which
    only feed the rendering, are left out. *)

Module Interaction.
Import Viewer Router.
Local Open Scope R_scope.

Record DragStart := mkDragStart { blockX : R; blockY : R; mouseX : R; mouseY : R }.

Record State := mkState {
  zoom : R;
  pan : Point;
  dragging : bool;
  lastPos : Point;
  draggedBlockRef : option string;
  dragStartPos : DragStart;
  draggedNodeRef : option (nat * nat);
  connDragStart : Point;
  connDragBaseOverrides : list Delta;
  overrides : Overrides;
}.

(** The state of a viewer that has just been mounted. *)
Definition initialState : State :=
  mkState 1 (mkPoint 0 0) false (mkPoint 0 0) None (mkDragStart 0 0 0 0) None
          (mkPoint 0 0) [] noOverrides.

Definition withView (z : R) (p : Point) (s : State) : State :=
  mkState z p (dragging s) (lastPos s) (draggedBlockRef s) (dragStartPos s)
          (draggedNodeRef s) (connDragStart s) (connDragBaseOverrides s) (overrides s).

Definition withOverrides (ov : Overrides) (s : State) : State :=
  mkState (zoom s) (pan s) (dragging s) (lastPos s) (draggedBlockRef s) (dragStartPos s)
          (draggedNodeRef s) (connDragStart s) (connDragBaseOverrides s) ov.

(** *** Zoom and pan *)

Record WheelEvent := mkWheel {
  ctrlKey : bool;
  deltaX : R;
  deltaY : R;
  (** [e.clientX - rect.left] and [e.clientY - rect.top] *)
  wheelX : R;
  wheelY : R;
}.

Definition onWheel (s : State) (e : WheelEvent) : State :=
  if ctrlKey e then
    let delta := - deltaY e * 0.01 in
    let oldZoom := zoom s in
    let newZoom := Rmin (Rmax (oldZoom * (1 + delta)) 0.2) 5 in
    let contentX := (wheelX e - px (pan s)) / oldZoom in
    let contentY := (wheelY e - py (pan s)) / oldZoom in
    let newPanX := wheelX e - contentX * newZoom in
    let newPanY := wheelY e - contentY * newZoom in
    withView newZoom (mkPoint newPanX newPanY) s
  else
    withView (zoom s) (mkPoint (px (pan s) - deltaX e) (py (pan s) - deltaY e)) s.

(** The toolbar buttons. *)
Definition zoomIn (s : State) : State := withView (Rmin (zoom s * 1.25) 5) (pan s) s.
Definition zoomOut (s : State) : State := withView (Rmax (zoom s / 1.25) 0.2) (pan s) s.
Definition handleReset (s : State) : State := withView 1 (mkPoint 0 0) s.


(** *** Pointer handlers; [client] is [(e.clientX, e.clientY)] *)

Definition handleMouseDown (s : State) (client : Point) : State :=
  mkState (zoom s) (pan s) true client (draggedBlockRef s) (dragStartPos s)
          (draggedNodeRef s) (connDragStart s) (connDragBaseOverrides s) (overrides s).

Definition handleBlockMouseDown (s : State) (blockId : string) (bx by_ : R) (client : Point)
    : State :=
  mkState (zoom s) (pan s) (dragging s) (lastPos s) (Some blockId)
          (mkDragStart bx by_ (px client) (py client))
          (draggedNodeRef s) (connDragStart s) (connDragBaseOverrides s) (overrides s).

Definition handleNodeMouseDown (s : State) (connIdx pointIdx : nat) (client : Point) : State :=
  mkState (zoom s) (pan s) (dragging s) (lastPos s) (draggedBlockRef s) (dragStartPos s)
          (Some (connIdx, pointIdx)) client
          (default [] (connPointOverrides (overrides s) !! connIdx)) (overrides s).

(** The two nested loops of the geometric hit test over the rendered paths;
    the state is [(bestConnIdx, bestDist)]. *)
Definition nearestConn (paths : list (option (list Point))) (p : Point) (eventConnIdx : nat)
    : nat :=
  fst (fold_left (fun st ci_cp =>
         match snd ci_cp with
         | None => st
         | Some points =>
             fold_left (fun st s =>
                 match points !! s, points !! S s with
                 | Some a, Some b =>
                     let d := pointToSegmentDist p a b in
                     if closer d (snd st) then (fst ci_cp, Some d) else st
                 | _, _ => st
                 end)
               (seq 0 (length points - 1)) st
         end)
       (imap (fun ci cp => (ci, cp)) paths) (eventConnIdx, None)).

(** The interior node of [points] nearest to [p] with its distance, if
    there is an interior node. *)
Definition nearestNode (points : list Point) (p : Point) : option (nat * R) :=
  fold_left (fun st pi =>
      match points !! pi with
      | Some q =>
          let d := hypot (px q - px p) (py q - py p) in
          if closer d (snd <$> st) then Some (pi, d) else st
      | None => st
      end)
    (seq 1 (length points - 2)) None.

(** [handleConnMouseDown]; [paths] is [computedPathsRef.current] and [svg]
    the event position in SVG coordinates, [None] when there is no SVG
    element or its view box is empty. Only the drag refs are kept of its
    effects. *)
Definition handleConnMouseDown (paths : list (option (list Point))) (s : State)
    (eventConnIdx : nat) (client : Point) (svg : option Point) : State :=
  match svg with
  | None => s
  | Some p =>
      let targetIdx := nearestConn paths p eventConnIdx in
      match mjoin (paths !! targetIdx) with
      | Some points =>
          if bool_decide (3 <= length points)%nat then
            match nearestNode points p with
            | Some (nearestNodeIdx, nearestNodeDist) =>
                if bool_decide (nearestNodeDist < 25)
                then handleNodeMouseDown s targetIdx nearestNodeIdx client
                else s
            | None => s
            end
          else s
      | None => s
      end
  end.

(** [overrides[ovIdx] = v] on an array padded to cover [ovIdx]. *)
Definition setDelta (ovIdx : nat) (v : Delta) (l : list Delta) : list Delta :=
  <[ovIdx := v]> (l ++ replicate (S ovIdx - length l) zeroDelta).

Definition handleCanvasMouseMove (s : State) (client : Point) : State :=
  match draggedNodeRef s with
  | Some (connIdx, pointIdx) =>
      let rawDx := px client - px (connDragStart s) in
      let rawDy := py client - py (connDragStart s) in
      if bool_decide (Rabs rawDx < 2) && bool_decide (Rabs rawDy < 2) then s
      else
        let ddx := rawDx / zoom s in
        let ddy := rawDy / zoom s in
        let base_ := connDragBaseOverrides s in
        let arr :=
          match pointIdx with
          | O => base_
          | S ovIdx =>
              let b := default zeroDelta (base_ !! ovIdx) in
              setDelta ovIdx (mkDelta (dx b + ddx) (dy b + ddy)) base_
          end in
        withOverrides
          (mkOverrides (blockPositionOverrides (overrides s))
                       (<[connIdx := arr]> (connPointOverrides (overrides s)))
                       (connWaypoints (overrides s))) s
  | None =>
      match draggedBlockRef s with
      | Some activeBlock =>
          let rawDx := px client - mouseX (dragStartPos s) in
          let rawDy := py client - mouseY (dragStartPos s) in
          if bool_decide (Rabs rawDx < 5) && bool_decide (Rabs rawDy < 5) then s
          else
            let ddx := rawDx / zoom s in
            let ddy := rawDy / zoom s in
            withOverrides
              (mkOverrides
                 (<[activeBlock := mkPoint (Rmax 0 (blockX (dragStartPos s) + ddx))
                                           (Rmax 0 (blockY (dragStartPos s) + ddy))]>
                    (blockPositionOverrides (overrides s)))
                 (connPointOverrides (overrides s))
                 (connWaypoints (overrides s))) s
      | None =>
          if negb (dragging s) then s
          else
            mkState (zoom s)
                    (mkPoint (px (pan s) + (px client - px (lastPos s)))
                             (py (pan s) + (py client - py (lastPos s))))
                    (dragging s) client (draggedBlockRef s) (dragStartPos s)
                    (draggedNodeRef s) (connDragStart s) (connDragBaseOverrides s)
                    (overrides s)
      end
  end.

(** Also the handler of [onMouseLeave]. *)
Definition handleCanvasMouseUp (s : State) : State :=
  mkState (zoom s) (pan s) false (lastPos s) None (dragStartPos s) None
          (connDragStart s) (connDragBaseOverrides s) (overrides s).

(** *** Events *)

Inductive Event :=
| Wheel (e : WheelEvent)
| ZoomInClick
| ZoomOutClick
| ResetClick
| MouseDown (client : Point)
| BlockMouseDown (blockId : string) (bx by_ : R) (client : Point)
| ConnMouseDown (eventConnIdx : nat) (client : Point) (svg : option Point)
| NodeMouseDown (connIdx pointIdx : nat) (client : Point)
| ConnDoubleClick (connIdx : nat) (svg : Point)
| NodeContextMenu (connIdx wpIdx : nat)
| MouseMove (client : Point)
| MouseUp
| Loaded (ov : Overrides).

(** One event on the viewer of [blocks] and [connections]; [None] when the
    handler raises. [Loaded] is the load effect storing what it read. *)
Definition step (blocks : list Block) (connections : list BlockConnection)
    (s : State) (e : Event) : option State :=
  match e with
  | Wheel w => Some (onWheel s w)
  | ZoomInClick => Some (zoomIn s)
  | ZoomOutClick => Some (zoomOut s)
  | ResetClick => Some (handleReset s)
  | MouseDown client => Some (handleMouseDown s client)
  | BlockMouseDown blockId bx by_ client => Some (handleBlockMouseDown s blockId bx by_ client)
  | ConnMouseDown i client svg =>
      lay ← layout blocks connections (blockPositionOverrides (overrides s));
      Some (handleConnMouseDown
              (map (computedPath connections lay (overrides s)) (seq 0 (length connections)))
              s i client svg)
  | NodeMouseDown connIdx pointIdx client => Some (handleNodeMouseDown s connIdx pointIdx client)
  | ConnDoubleClick connIdx svg =>
      lay ← layout blocks connections (blockPositionOverrides (overrides s));
      ov ← handleConnDoubleClick connections lay (overrides s) connIdx svg;
      Some (withOverrides ov s)
  | NodeContextMenu connIdx wpIdx =>
      lay ← layout blocks connections (blockPositionOverrides (overrides s));
      ov ← removeWaypoint connections lay (overrides s) connIdx wpIdx;
      Some (withOverrides ov s)
  | MouseMove client => Some (handleCanvasMouseMove s client)
  | MouseUp => Some (handleCanvasMouseUp s)
  | Loaded ov => Some (withOverrides ov s)
  end.

Definition run (blocks : list Block) (connections : list BlockConnection)
    (s : State) (events : list Event) : option State :=
  foldl (fun so e => so ≫= fun s => step blocks connections s e) (Some s) events.

Inductive reachable (blocks : list Block) (connections : list BlockConnection)
    : State -> Prop :=
| reach_init : reachable blocks connections initialState
| reach_step s e s' :
    reachable blocks connections s ->
    step blocks connections s e = Some s' ->
    reachable blocks connections s'.

(** The position a block drag that started at block position [(bx, by_)] and
    pointer position [origin] commits when the pointer is at [client]. *)
Definition draggedTo (z bx by_ : R) (origin client : Point) : Point :=
  mkPoint (Rmax 0 (bx + (px client - px origin) / z))
          (Rmax 0 (by_ + (py client - py origin) / z)).

(** What a sequence of pointer moves keeps true while block [A] is being
    dragged from state [s]. *)
Definition draggingFrom (s : State) (A : string) (bx by_ : R) (origin : Point) (s' : State)
    : Prop :=
  draggedNodeRef s' = None
  /\ draggedBlockRef s' = Some A
  /\ dragStartPos s' = mkDragStart bx by_ (px origin) (py origin)
  /\ zoom s' = zoom s
  /\ connPointOverrides (overrides s') = connPointOverrides (overrides s)
  /\ connWaypoints (overrides s') = connWaypoints (overrides s)
  /\ forall k, k <> A ->
       blockPositionOverrides (overrides s') !! k = blockPositionOverrides (overrides s) !! k.

End Interaction.

(** ** Vocabulary of the properties *)

Module Props.
Import Router.
Local Open Scope R_scope.

(** Euclidean distance of two points. *)
Definition dist (a b : Point) : R := hypot (px a - px b) (py a - py b).

(** [c] lies on the closed segment from [a] to [b]. *)
Definition onSegment (c a b : Point) : Prop :=
  exists t, 0 <= t <= 1
    /\ px c = px a + t * (px b - px a)
    /\ py c = py a + t * (py b - py a).



(** The x the channel search tries after the preferred one, in order: left
    then right at offsets 20, 40, ..., 300. *)
Definition channelProbes (preferredX : R) : list R :=
  flat_map (fun k => [preferredX - 20 * INR k; preferredX + 20 * INR k]) (seq 1 15).

(** The first x of the search order that is clear, the preferred x when none
    is. *)
Definition firstClear (startY endY : R) (blocks : list LayoutBlock) (preferredX : R) : R :=
  from_option id preferredX
    (find (channelClear startY endY blocks) (preferredX :: channelProbes preferredX)).

(** The override array the double click leaves for a connection whose two
    blocks are laid out: [before] padded to the interior points of the
    current path [expandedPts], with two zero entries at the nearest
    segment. *)
Definition insertedOverrides (before : list Delta) (expandedPts : list Point) (click : Point)
    : list Delta :=
  let padded := Viewer.padTo (length expandedPts - 2) before in
  let bestSeg := nearestSegment click expandedPts in
  take bestSeg padded ++ [Viewer.zeroDelta; Viewer.zeroDelta] ++ drop bestSeg padded.

(** [from] is an intra-group predecessor of [to] among [groupBlocks]. *)
Definition intraEdge (groupBlocks : list Block) (connections : list BlockConnection)
    (from to : string) : Prop :=
  from ∈ map block_id groupBlocks /\ to ∈ map block_id groupBlocks
  /\ exists c, c ∈ connections /\ from_block c = from /\ to_block c = to.

(** Topological soundness of the columns of one group: every block sits at
    least one column after each of its intra-group predecessors. *)
Definition layeringSound (groupBlocks : list Block) (connections : list BlockConnection)
    (columns : list (string * nat)) : Prop :=
  forall from to cf ct,
    intraEdge groupBlocks connections from to ->
    Ordered.get from columns = Some cf ->
    Ordered.get to columns = Some ct ->
    (cf + 1 <= ct)%nat.

(** Two connections join the same unordered pair of blocks. *)
Definition samePair (c c' : BlockConnection) : bool :=
  (String.eqb (from_block c) (from_block c') && String.eqb (to_block c) (to_block c'))
  || (String.eqb (from_block c) (to_block c') && String.eqb (to_block c) (from_block c')).

(** The indices of the connections that join the same pair as [c], in
    order. *)
Definition pairMates (connections : list BlockConnection) (c : BlockConnection) : list nat :=
  map fst (List.filter (fun jc => samePair c (snd jc)) (imap (fun j c' => (j, c')) connections)).

(** The loop of [pairGroups] over indexed connections, from any map. *)
Definition groupFold (ics : list (nat * BlockConnection)) (m : list (string * list nat))
    : list (string * list nat) :=
  fold_left (fun m ic => Ordered.push (pairKey (snd ic)) (fst ic) m) ics m.

(** The indices, in order, of the indexed connections whose group key is
    [key]. *)
Definition keyed (key : string) (ics : list (nat * BlockConnection)) : list nat :=
  map fst (List.filter (fun jc => String.eqb (pairKey (snd jc)) key) ics).

Definition keyMates (connections : list BlockConnection) (key : string) : list nat :=
  keyed key (imap (fun j c' => (j, c')) connections).

(** [spreadFactor * CONNECTION_SPREAD] at a position of a group of a size. *)
Definition spreadAt (positionInGroup groupSize : nat) : R :=
  (if decide (groupSize = 1%nat) then 0
   else INR positionInGroup - (INR groupSize - 1) / 2) * CONNECTION_SPREAD.

(** The offset the specification prescribes for connection [i]: 0 when it is
    alone between its blocks, -15, 0, +15 by position when exactly three
    connections join them; nothing is prescribed otherwise. *)
Definition prescribedOffset (connections : list BlockConnection) (i : nat) : option R :=
  c ← connections !! i;
  let mates := pairMates connections c in
  if decide (length mates = 1%nat) then Some 0
  else if decide (length mates = 3%nat) then
    (fun found => (INR (fst found) - 1) * CONNECTION_SPREAD) <$> list_find (eq i) mates
  else None.

(** The connections admit a ranking that every connection increases: the
    graph is acyclic. *)
Definition acyclic (connections : list BlockConnection) : Prop :=
  exists rank : string -> nat,
    forall c, c ∈ connections -> (rank (from_block c) < rank (to_block c))%nat.

End Props.

(** ** Sample diagrams *)

Module Samples.
Local Open Scope R_scope.

(** Four blocks on one host; [B] is fed by [A] directly and through [C] and
    [D]. *)
Definition onMcu (name : string) : Block := mkBlock name [] [] (Some "mcu").

Definition diamondBlocks : list Block := [onMcu "A"; onMcu "B"; onMcu "C"; onMcu "D"].

Definition diamondConnections : list BlockConnection :=
  [mkConn "A" "B" "s1"; mkConn "A" "C" "s2"; mkConn "C" "D" "s3"; mkConn "D" "B" "s4"].

Definition diamondRank (blockId : string) : nat :=
  if decide (blockId = "A") then 0
  else if decide (blockId = "C") then 1
  else if decide (blockId = "D") then 2
  else 3.

(** A supply and its load, side by side. *)
Definition supply : Block := mkBlock "A" [] ["VCC"] None.
Definition load : Block := mkBlock "B" ["VCC"] [] None.

Definition pairConnections : list BlockConnection := [mkConn "A" "B" "VCC"].

Definition supplyBox : LayoutBlock := mkLayoutBlock supply 0 0 180 68.
Definition loadBox : LayoutBlock := mkLayoutBlock load 400 100 180 68.

Definition pairLayout : list LayoutBlock := [supplyBox; loadBox].

(** The same two blocks level with each other, the connection between them
    carrying one waypoint whose jog has been dragged 10 units down. *)
Definition levelLoadBox : LayoutBlock := mkLayoutBlock load 400 0 180 68.

Definition levelLayout : list LayoutBlock := [supplyBox; levelLoadBox].

Definition levelWaypoint : Point := mkPoint 300 46.

Definition levelOverrides : Viewer.Overrides :=
  Viewer.mkOverrides ∅ {[ 0%nat := [mkDelta 0 10; mkDelta 0 10] ]}
                     {[ 0%nat := [levelWaypoint] ]}.

Definition levelClick : Point := mkPoint 240 46.

(** A click on the first segment of the path from [supply] to [load]. *)
Definition pairClick : Point := mkPoint 235 46.

(** A segment 4 units long and a waypoint on its middle. *)
Definition shortPath : list Point := [mkPoint 0 0; mkPoint 4 0].
Definition shortWaypoint : Point := mkPoint 2 0.

(** Three connections between ["a<->b"] and ["c"], and one between ["a"]
    and ["b<->c"]. *)
Definition clashConnections : list BlockConnection :=
  [mkConn "a<->b" "c" "s0"; mkConn "a<->b" "c" "s1"; mkConn "a<->b" "c" "s2";
   mkConn "a" "b<->c" "s3"].

(** Three connections between ["A"] and ["B"] and one from ["B"] to ["C"]. *)
Definition tripleConnections : list BlockConnection :=
  [mkConn "A" "B" "s0"; mkConn "B" "C" "s1"; mkConn "B" "A" "s2"; mkConn "A" "B" "s3"].

(** A stored text that parses to the empty object. *)
Definition emptyObjectStorage : gmap string Persistence.Stored :=
  {[ Persistence.getLayoutKey "d1" :=
       Persistence.Json (Persistence.PObject (Persistence.mkStoredObject None None None)) ]}.

(** One dragged block. *)
Definition movedOverrides : Viewer.Overrides :=
  Viewer.mkOverrides {[ "A" := mkPoint 10 20 ]} ∅ ∅.

(** A viewer of design ["d1"] whose one drag has been written to the store:
    the change scheduled timer 1, which then fired. *)
Definition savedOnce : Persistence.Saver :=
  Persistence.saverStep
    (Persistence.saverStep (Persistence.freshSaver ∅ false)
       (Persistence.Changed (Some "d1") movedOverrides))
    (Persistence.Fired 1).

End Samples.

(** ** Invariant of the layering loop *)

Module Levels.
Import Ordered.

Section Bfs.
Context {K : Type} `{EqDecision K}.

(** [outgoing.get(u) ?? []] *)
Definition outOf (outgoing : list (K * list K)) (u : K) : list K :=
  default [] (get u outgoing).

(** What holds each time the [while] test of the layering loop is reached:
    the column map covers exactly the assigned nodes, with columns below the
    counter, and every successor of an assigned node is either assigned, at
    most one column further, or waits in the frontier of the next column. *)
Record bfsInv (outgoing : list (K * list K)) (frontier : list K) (col : nat)
    (column : list (K * nat)) (assigned : list K) : Prop := mkBfsInv {
  inv_keys : forall x c, get x column = Some c -> x ∈ assigned /\ (c < col)%nat;
  inv_cover : forall x, x ∈ assigned -> is_Some (get x column);
  inv_edges : forall u cu v,
    get u column = Some cu -> v ∈ outOf outgoing u ->
    (exists cv, get v column = Some cv /\ (cv <= cu + 1)%nat)
    \/ ((v ∉ assigned) /\ v ∈ frontier /\ (col <= cu + 1)%nat);
}.

End Bfs.

End Levels.

(** ** Vocabulary of the path properties *)

Module Geometry.
Local Open Scope R_scope.

(** The segments of a path, in order. *)
Definition segments (path : list Point) : list (Point * Point) := zip path (tail path).

(** A vertical segment. *)
Definition upright (s : Point * Point) : Prop := px (fst s) = px (snd s).

(** A segment the viewer takes for horizontal: its ends differ by less than
    one unit in y (the [isHoriz] test of the waypoint insertion). *)
Definition level (s : Point * Point) : Prop := Rabs (py (fst s) - py (snd s)) < 1.

(** The vertical segment at [x] between [startY] and [endY] passes more
    than [margin] away from the rectangle of [b]. *)
Definition clearOf (x startY endY margin : R) (b : LayoutBlock) : Prop :=
  x < lb_x b - margin \/ lb_x b + lb_width b + margin < x
  \/ Rmax startY endY < lb_y b - margin \/ lb_y b + lb_height b + margin < Rmin startY endY.

End Geometry.

(** ** Vocabulary of the drag properties *)

Module Drags.
Import Viewer Interaction.
Local Open Scope R_scope.

(** What a sequence of pointer moves keeps true while interior node
    [pointIdx] of connection [connIdx] is being dragged from state [s]. *)
Definition nodeDraggingFrom (s : State) (connIdx pointIdx : nat) (origin : Point) (s' : State)
    : Prop :=
  draggedNodeRef s' = Some (connIdx, pointIdx)
  /\ connDragStart s' = origin
  /\ connDragBaseOverrides s' = default [] (connPointOverrides (overrides s) !! connIdx)
  /\ zoom s' = zoom s
  /\ blockPositionOverrides (overrides s') = blockPositionOverrides (overrides s)
  /\ connWaypoints (overrides s') = connWaypoints (overrides s)
  /\ forall k, k <> connIdx ->
       connPointOverrides (overrides s') !! k = connPointOverrides (overrides s) !! k.

(** The override a node drag that started at pointer position [origin]
    commits for an entry whose snapshot is [b] when the pointer is at
    [client]. *)
Definition nodeDraggedTo (z : R) (b : Delta) (origin client : Point) : Delta :=
  mkDelta (dx b + (px client - px origin) / z) (dy b + (py client - py origin) / z).

(** The pointer at [client] is within [threshold] pixels of [origin] on both
    axes. *)
Definition within (threshold : R) (origin client : Point) : Prop :=
  Rabs (px client - px origin) < threshold /\ Rabs (py client - py origin) < threshold.

End Drags.

(** ** Canvas: group frames, canvas size and label anchors *)

Module Canvas.
Import Ordered.
Local Open Scope R_scope.

Definition HW_COLORS : list string :=
  ["#3B82F6"; "#F59E0B"; "#22C55E"; "#A855F7"; "#EF4444"; "#06B6D4"; "#F97316"].

Record HardwareGroup := mkHardwareGroup {
  hg_name : string;
  hg_color : string;
  hg_blocks : list LayoutBlock;
  hg_x : R;
  hg_y : R;
  hg_width : R;
  hg_height : R;
}.

(** The first loop of the [hardwareGroups] memo: the rectangles by host, in
    insertion order; [if (!hw) continue] skips a block without a host. *)
Definition groupMap (layout : list LayoutBlock) : list (string * list LayoutBlock) :=
  fold_left (fun m lb =>
      match Layering.truthy_hw (lb_block lb) with
      | Some hw => push hw lb m
      | None => m
      end)
    layout [].

(** The body of the second loop, for the group met at position [colorIdx]. *)
Definition frameOf (colorIdx : nat) (entry : string * list LayoutBlock) : HardwareGroup :=
  let '(name, groupBlocks) := entry in
  let pad := 20 in
  let labelHeight := 30 in
  let minX := minOf (map lb_x groupBlocks) in
  let minY := minOf (map lb_y groupBlocks) in
  let maxX := maxOf (map (fun lb => lb_x lb + lb_width lb) groupBlocks) in
  let maxY := maxOf (map (fun lb => lb_y lb + lb_height lb) groupBlocks) in
  mkHardwareGroup name
    (default "" (HW_COLORS !! (colorIdx mod length HW_COLORS)%nat))
    groupBlocks (minX - pad) (minY - labelHeight)
    (maxX - minX + pad * 2) (maxY - minY + labelHeight + pad).

Definition hardwareGroups (layout : list LayoutBlock) : list HardwareGroup :=
  imap frameOf (groupMap layout).

(** [Math.max(600, blockMax, groupMax)] and [Math.max(400, blockMax, groupMax)]. *)
Definition svgWidth (layout : list LayoutBlock) : R :=
  match layout with
  | [] => 600
  | _ =>
      let blockMax := maxOf (map (fun lb => lb_x lb + lb_width lb + PADDING) layout) in
      let groupMax :=
        match hardwareGroups layout with
        | [] => 0
        | gs => maxOf (map (fun g => hg_x g + hg_width g + PADDING) gs)
        end in
      maxOf [600; blockMax; groupMax]
  end.

Definition svgHeight (layout : list LayoutBlock) : R :=
  match layout with
  | [] => 400
  | _ =>
      let blockMax := maxOf (map (fun lb => lb_y lb + lb_height lb + PADDING) layout) in
      let groupMax :=
        match hardwareGroups layout with
        | [] => 0
        | gs => maxOf (map (fun g => hg_y g + hg_height g + PADDING) gs)
        end in
      maxOf [400; blockMax; groupMax]
  end.

(** The loop of [getPathMidpoint]; the state is [(bestHorizIdx, bestHorizLen,
    longestIdx, longestLen)], with [None] for the [-1] of [bestHorizIdx]. *)
Definition midpointStep (points : list Point) (st : option nat * R * nat * R) (i : nat)
    : option nat * R * nat * R :=
  let '(bestHorizIdx, bestHorizLen, longestIdx, longestLen) := st in
  match points !! i, points !! S i with
  | Some p, Some q =>
      let ddx := Rabs (px q - px p) in
      let ddy := Rabs (py q - py p) in
      let len := ddx + ddy in
      let longest :=
        if bool_decide (len > longestLen) then (i, len) else (longestIdx, longestLen) in
      let bestHoriz :=
        if bool_decide (ddy < 1) && bool_decide (ddx > bestHorizLen) && bool_decide (ddx >= 30)
        then (Some i, ddx) else (bestHorizIdx, bestHorizLen) in
      (fst bestHoriz, snd bestHoriz, fst longest, snd longest)
  | _, _ => st
  end.

(** [getPathMidpoint]; [None] if reading [points[idx]] or [points[idx + 1]]
    raised. *)
Definition getPathMidpoint (points : list Point) : option Point :=
  if bool_decide (length points < 2)%nat then Some (mkPoint 0 0)
  else
    let '(bestHorizIdx, _, longestIdx, _) :=
      fold_left (midpointStep points) (seq 0 (length points - 1)) (None, 0, 0%nat, 0) in
    let idx := default longestIdx bestHorizIdx in
    a ← points !! idx;
    b ← points !! S idx;
    Some (mkPoint ((px a + px b) / 2) ((py a + py b) / 2)).

(** A segment a label is put on by preference: level to within a unit and
    at least 30 long. *)
Definition labelSegment (a b : Point) : Prop :=
  Rabs (py b - py a) < 1 /\ Rabs (px b - px a) >= 30.

(** [dx + dy] of a segment. *)
Definition manhattan (a b : Point) : R := Rabs (px b - px a) + Rabs (py b - py a).

(** What the loop of [getPathMidpoint] has established once the segments
    [done_] are behind it: [longestIdx] is a longest of them, and
    [bestHorizIdx] the longest label segment among them, if there is one. *)
Definition midpointInv (points : list Point) (done_ : list nat)
    (st : option nat * R * nat * R) : Prop :=
  let '(bestHorizIdx, bestHorizLen, longestIdx, longestLen) := st in
  0 <= longestLen
  /\ (forall j a b, j ∈ done_ -> points !! j = Some a -> points !! S j = Some b ->
        manhattan a b <= longestLen)
  /\ ((longestLen = 0 /\ longestIdx = 0%nat)
      \/ exists a b, points !! longestIdx = Some a /\ points !! S longestIdx = Some b
                     /\ manhattan a b = longestLen)
  /\ match bestHorizIdx with
     | None =>
         bestHorizLen = 0
         /\ forall j a b, j ∈ done_ -> points !! j = Some a -> points !! S j = Some b ->
              ~ labelSegment a b
     | Some i =>
         exists a b,
           points !! i = Some a /\ points !! S i = Some b /\ labelSegment a b
           /\ bestHorizLen = Rabs (px b - px a)
           /\ forall j a' b', j ∈ done_ -> points !! j = Some a' -> points !! S j = Some b' ->
                labelSegment a' b' -> Rabs (px b' - px a') <= bestHorizLen
     end.

(** The rectangle of [lb] lies inside that of the frame [g], [pad] away from
    its left, right and bottom edges and [labelHeight] below its top. *)
Definition framed (g : HardwareGroup) (lb : LayoutBlock) : Prop :=
  hg_x g + 20 <= lb_x lb
  /\ lb_x lb + lb_width lb + 20 <= hg_x g + hg_width g
  /\ hg_y g + 30 <= lb_y lb
  /\ lb_y lb + lb_height lb + 20 <= hg_y g + hg_height g.

End Canvas.

(** ** Vocabulary of the placement properties *)

Module Placement.
Import Layering.
Local Open Scope R_scope.

(** Two rectangles that do not overlap: one lies entirely to the left of,
    to the right of, above or below the other. *)
Definition apart (a b : LayoutBlock) : Prop :=
  lb_x a + lb_width a <= lb_x b \/ lb_x b + lb_width b <= lb_x a
  \/ lb_y a + lb_height a <= lb_y b \/ lb_y b + lb_height b <= lb_y a.

(** The rectangles of a group before it is placed: they do not overlap and
    they fit, from the origin, in the group's width and height less its
    padding. *)
Definition fits (g : HwGroup) : Prop :=
  0 <= g_width g /\ 0 <= g_height g
  /\ ForallOrdPairs apart (g_layoutBlocks g)
  /\ Forall (fun lb => 0 <= lb_x lb
                       /\ lb_x lb + lb_width lb + GROUP_PAD_X * 2 <= g_width g
                       /\ 0 <= lb_y lb
                       /\ lb_y lb + lb_height lb + GROUP_PAD_TOP + GROUP_PAD_BOTTOM
                          <= g_height g)
            (g_layoutBlocks g).

(** The rectangles of the group at index [i]. *)
Definition blocksAt (groups : list HwGroup) (i : nat) : list LayoutBlock :=
  from_option g_layoutBlocks [] (groups !! i).

(** The sub-column loop of [stackSubColumn] from any [yOffset]. *)
Definition stackFrom (subCol : nat) (blockList : list Block) (acc : list LayoutBlock)
    (yOffset : R) : list LayoutBlock * R :=
  fold_left (fun st b =>
      let h := blockHeight b in
      (fst st ++ [mkLayoutBlock b (INR subCol * (BLOCK_WIDTH + INTRA_GROUP_H_GAP))
                                (snd st) BLOCK_WIDTH h],
       snd st + h + INTRA_GROUP_V_GAP))
    blockList (acc, yOffset).

(** What the placement loops keep true: [placed] lists the groups already
    moved to the canvas. Every group has its original size; a group not yet
    placed is untouched; the rectangles of the placed groups stay clear of
    the canvas margin and of each other, and end left of [canvasX]. *)
Record placedInv (original : list HwGroup) (placed : list nat) (canvasX : R)
    (groups : list HwGroup) : Prop := mkPlacedInv {
  pi_length : length groups = length original;
  pi_size : forall i g g', groups !! i = Some g -> original !! i = Some g' ->
              g_width g = g_width g' /\ g_height g = g_height g';
  pi_rest : forall i, i ∉ placed -> groups !! i = original !! i;
  pi_within : forall i, ForallOrdPairs apart (blocksAt groups i);
  pi_cross : forall i j a b, i ∈ placed -> j ∈ placed -> i <> j ->
               a ∈ blocksAt groups i -> b ∈ blocksAt groups j -> apart a b;
  pi_bound : forall i a, i ∈ placed -> a ∈ blocksAt groups i ->
               PADDING + GROUP_PAD_X <= lb_x a /\ PADDING + GROUP_PAD_TOP <= lb_y a
               /\ lb_x a + lb_width a <= canvasX;
}.

End Placement.

(** ** Events the rendered diagram can produce *)

Module Targets.
Import Viewer Interaction.


End Targets.

(** * Properties *)

(** ** Port resolution *)

Section PortFacts.
Import Ports.
Local Open Scope R_scope.

Lemma indexOf_from_absent ports name k :
  name ∉ ports -> indexOf_from ports name k = (-1)%Z.
Proof.
  revert k; induction ports as [|p rest IH]; intros k Hn; [reflexivity|].
  cbn. apply not_elem_of_cons in Hn as [Hne Hn].
  rewrite decide_False by congruence. now apply IH.
Qed.

Lemma indexOf_from_first ports name i k :
  ports !! i = Some name ->
  (forall j, (j < i)%nat -> ports !! j <> Some name) ->
  indexOf_from ports name k = (k + Z.of_nat i)%Z.
Proof.
  revert i k; induction ports as [|p rest IH]; intros i k Hi Hmin.
  - now rewrite lookup_nil in Hi.
  - cbn. destruct i as [|i].
    + cbn in Hi. injection Hi as ->. rewrite decide_True by reflexivity. lia.
    + rewrite decide_False.
      * rewrite (IH i (k + 1)%Z); [lia|exact Hi|].
        intros j Hj. apply (Hmin (S j)). lia.
      * intros ->. apply (Hmin 0%nat); [lia|reflexivity].
Qed.

(** C9. Port lookup is total and lenient: [getPortPosition] is defined on
    every layout block, port name and side (it has no failing case, whatever
    the port list), it returns the position of the port circle at the index
    where the name first occurs in the block's input or output list, and the
    position of the circle of index 0 when the name does not occur. *)
Theorem getPortPosition_total (lb : LayoutBlock) (portName : string) (side : Side) :
  (forall i, sidePorts lb side !! i = Some portName ->
             (forall j, (j < i)%nat -> sidePorts lb side !! j <> Some portName) ->
             getPortPosition lb portName side = portCircle lb side i)
  /\ (portName ∉ sidePorts lb side ->
      getPortPosition lb portName side = portCircle lb side 0).
Proof.
  unfold getPortPosition, portCircle, indexOf. split.
  - intros i Hi Hmin. rewrite (indexOf_from_first _ _ i 0 Hi Hmin).
    rewrite bool_decide_eq_true_2 by lia.
    rewrite Z.add_0_l, <- INR_IZR_INZ. reflexivity.
  - intros Habs. rewrite (indexOf_from_absent _ _ 0 Habs).
    rewrite bool_decide_eq_false_2 by lia. reflexivity.
Qed.

(** The second output of a block resolves to the second port circle, and an
    unknown name to the first. *)
Lemma getPortPosition_total_witness :
  let lb := mkLayoutBlock (mkBlock "U1" ["IN"] ["VCC"; "GND"] None) 0 0 180 76 in
  getPortPosition lb "GND" output = portCircle lb output 1
  /\ getPortPosition lb "NC" output = portCircle lb output 0.
Proof.
  intros lb. split.
  - apply (proj1 (getPortPosition_total lb "GND" output) 1%nat); [reflexivity|].
    intros j Hj. assert (j = 0%nat) as -> by lia. discriminate.
  - apply (proj2 (getPortPosition_total lb "NC" output)).
    cbn. rewrite !elem_of_cons, elem_of_nil. intros [H|[H|[]]]; discriminate.
Defined.

End PortFacts.

(** ** Layering *)

Section DiamondLayout.
Import Layering Samples.
Local Open Scope R_scope.

(** The rectangles of the diamond: [B] at x = 300, [D] at x = 520. *)
Lemma layoutBlocks_diamond :
  layoutBlocks diamondBlocks diamondConnections
  = Some [mkLayoutBlock (onMcu "A") 80 90 180 68; mkLayoutBlock (onMcu "B") 300 90 180 68;
          mkLayoutBlock (onMcu "C") 300 178 180 68; mkLayoutBlock (onMcu "D") 520 90 180 68].
Proof.
  unfold layoutBlocks, diamondBlocks.
  change (hwGroupMap [onMcu "A"; onMcu "B"; onMcu "C"; onMcu "D"])
    with [("mcu", [onMcu "A"; onMcu "B"; onMcu "C"; onMcu "D"])].
  change (groupColumn [("mcu", [onMcu "A"; onMcu "B"; onMcu "C"; onMcu "D"])]
            diamondConnections) with (Some [0%nat]).
  cbn [mbind option_bind zip zip_with mapM fst snd].
  unfold layoutGroup.
  change (blockColumn [onMcu "A"; onMcu "B"; onMcu "C"; onMcu "D"] diamondConnections)
    with (Some [("A", 0); ("B", 1); ("C", 1); ("D", 2)]%nat).
  cbn [mbind option_bind mret option_ret fmap option_fmap option_map].
  unfold tempLayout.
  change (subColGroups [onMcu "A"; onMcu "B"; onMcu "C"; onMcu "D"]
            [("A", 0); ("B", 1); ("C", 1); ("D", 2)]%nat)
    with [(0, [onMcu "A"]); (1, [onMcu "B"; onMcu "C"]); (2, [onMcu "D"])]%nat.
  unfold placeGroups.
  match goal with |- context [groupColumns ?g] =>
    change (groupColumns g) with [(0%nat, [0%nat])] end.
  change (merge_sort Nat.le (map fst [(0%nat, [0%nat])])) with [0%nat].
  repeat (progress (cbn; decide_index)).
  unfold translate, blockHeight, BLOCK_WIDTH, BLOCK_HEADER, PORT_ROW, PADDING, H_GAP,
    GROUP_PAD_X, GROUP_PAD_TOP, GROUP_PAD_BOTTOM, INTRA_GROUP_H_GAP, INTRA_GROUP_V_GAP.
  cbn. repeat (f_equal; try lra).
Qed.

End DiamondLayout.

Section LayeringFacts.
Import Layering Props Samples.

Lemma diamond_acyclic : acyclic diamondConnections.
Proof.
  exists diamondRank. intros c Hc. unfold diamondConnections in Hc.
  rewrite !elem_of_cons, elem_of_nil in Hc.
  destruct Hc as [->|[->|[->|[->|[]]]]]; vm_compute; lia.
Qed.

(** C1. On the acyclic diagram [diamondBlocks], [diamondConnections], whose
    four blocks form the single hardware group ["mcu"], the per-group
    layering puts [A] in column 0, [B] and [C] in column 1 and [D] in column
    2. These columns are not topologically sound: [B], whose intra-group
    predecessors are [A] and [D], sits in column 1 and not in column 3 or
    later, and the connection from [D] to [B] points backward; in the layout
    returned [B] is at x = 300, left of [D] at x = 520. *)
Theorem blockColumn_diamond_backward :
  acyclic diamondConnections
  /\ hwGroupMap diamondBlocks = [("mcu", diamondBlocks)]
  /\ (exists columns,
        blockColumn diamondBlocks diamondConnections = Some columns
        /\ columns = [("A", 0); ("B", 1); ("C", 1); ("D", 2)]%nat
        /\ intraEdge diamondBlocks diamondConnections "D" "B"
        /\ ~ layeringSound diamondBlocks diamondConnections columns)
  /\ layoutBlocks diamondBlocks diamondConnections
     = Some [mkLayoutBlock (onMcu "A") 80 90 180 68; mkLayoutBlock (onMcu "B") 300 90 180 68;
             mkLayoutBlock (onMcu "C") 300 178 180 68;
             mkLayoutBlock (onMcu "D") 520 90 180 68].
Proof.
  split; [exact diamond_acyclic|].
  split; [reflexivity|].
  split; [|exact layoutBlocks_diamond].
  assert (intraEdge diamondBlocks diamondConnections "D" "B") as Hedge.
  { split; [|split].
    - cbn. rewrite !elem_of_cons. tauto.
    - cbn. rewrite !elem_of_cons. tauto.
    - exists (mkConn "D" "B" "s4"). split; [|split; reflexivity].
      unfold diamondConnections. rewrite !elem_of_cons. tauto. }
  eexists. split; [reflexivity|]. split; [reflexivity|]. split; [exact Hedge|].
  intros Hsound.
  specialize (Hsound "D" "B" 2%nat 1%nat Hedge eq_refl eq_refl). lia.
Qed.

End LayeringFacts.

(** *** The layering loop terminates within its fuel *)

Section OrderedFacts.
Context {K V : Type} `{EqDecision K}.
Import Ordered.

Lemma get_set (k k' : K) (v : V) (m : list (K * V)) :
  get k (set k' v m) = if decide (k' = k) then Some v else get k m.
Proof.
  induction m as [|[k0 v0] m IH]; cbn.
  - reflexivity.
  - destruct (decide (k0 = k')) as [->|Hne]; cbn.
    + destruct (decide (k' = k)); reflexivity.
    + rewrite IH. destruct (decide (k0 = k)) as [->|]; [|reflexivity].
      rewrite decide_False by congruence. reflexivity.
Qed.

Lemma elem_of_add (x k : K) (s : list K) : x ∈ add k s <-> x ∈ s \/ x = k.
Proof.
  unfold add. destruct (decide (k ∈ s)).
  - split; [tauto|]. intros [?| ->]; assumption.
  - rewrite elem_of_app, list_elem_of_singleton. reflexivity.
Qed.

Lemma NoDup_add (k : K) (s : list K) : NoDup s -> NoDup (add k s).
Proof.
  intros Hs. unfold add. destruct (decide (k ∈ s)); [assumption|].
  apply NoDup_app. split; [assumption|]. split; [|apply NoDup_singleton].
  intros x Hx Hx'. apply list_elem_of_singleton in Hx' as ->. contradiction.
Qed.

Lemma length_add (k : K) (s : list K) :
  length (add k s) = if decide (k ∈ s) then length s else S (length s).
Proof.
  unfold add. destruct (decide (k ∈ s)); [reflexivity|].
  rewrite length_app. cbn. lia.
Qed.

End OrderedFacts.

Section BfsTermination.
Context {K : Type} `{EqDecision K}.
Import Ordered Layering.

Lemma assign_fold col (frontier : list K) column assigned :
  NoDup assigned ->
  let st := fold_left (assignStep col) frontier (column, assigned) in
  NoDup (snd st)
  /\ (forall x, x ∈ snd st <-> x ∈ assigned \/ x ∈ frontier)
  /\ (length assigned <= length (snd st))%nat
  /\ ((exists x, x ∈ frontier /\ x ∉ assigned) -> (length assigned < length (snd st))%nat).
Proof.
  revert column assigned. induction frontier as [|id rest IH]; intros column assigned Hnd; cbn.
  - split; [assumption|]. split; [|split; [lia|]].
    + intros x. rewrite elem_of_nil. tauto.
    + intros (x & Hx & _). now apply elem_of_nil in Hx.
  - unfold mem. destruct (decide (id ∈ assigned)) as [Hin|Hnin].
    + rewrite bool_decide_eq_true_2 by assumption.
      destruct (IH column assigned Hnd) as (H1 & H2 & H3 & H4).
      split; [assumption|]. split; [|split; [assumption|]].
      * intros x. rewrite H2, elem_of_cons. split; [tauto|].
        intros [?|[->|?]]; tauto.
      * intros (x & Hx & Hxn). apply H4. exists x. split; [|assumption].
        apply elem_of_cons in Hx as [->|Hx]; [contradiction|assumption].
    + rewrite bool_decide_eq_false_2 by assumption.
      destruct (IH (set id col column) (add id assigned) (NoDup_add _ _ Hnd))
        as (H1 & H2 & H3 & H4).
      rewrite length_add, decide_False in H3 by assumption.
      split; [assumption|]. split; [|split; [lia|intros _; lia]].
      intros x. rewrite H2, elem_of_add, elem_of_cons. tauto.
Qed.

Lemma next_inner_elem outgoingOf assigned (next : list K) x :
  x ∈ fold_left (fun nx dest => if mem dest assigned then nx else add dest nx) outgoingOf next ->
  x ∈ next \/ (x ∈ outgoingOf /\ x ∉ assigned).
Proof.
  revert next. induction outgoingOf as [|d ds IH]; intros next; cbn; [tauto|].
  intros Hx. apply IH in Hx. unfold mem in Hx. rewrite elem_of_cons.
  destruct (decide (d ∈ assigned)).
  - rewrite bool_decide_eq_true_2 in Hx by assumption. tauto.
  - rewrite bool_decide_eq_false_2 in Hx by assumption.
    destruct Hx as [Hx|Hx]; [|tauto].
    apply elem_of_add in Hx as [Hx| ->]; tauto.
Qed.

Lemma next_fold_elem outgoing assigned (frontier next : list K) x :
  x ∈ fold_left (nextStep outgoing assigned) frontier next ->
  x ∈ next \/ ((x ∉ assigned) /\ (exists k ds, get k outgoing = Some ds /\ x ∈ ds)).
Proof.
  revert next. induction frontier as [|id rest IH]; intros next; cbn; [tauto|].
  intros Hx. apply IH in Hx as [Hx|Hx]; [|tauto].
  unfold nextStep in Hx. apply next_inner_elem in Hx as [Hx|[Hx Hn]]; [tauto|].
  right. split; [assumption|].
  destruct (get id outgoing) as [ds|] eqn:Hg; cbn in Hx.
  - exists id, ds. tauto.
  - now apply elem_of_nil in Hx.
Qed.

(** With [universe] listing every node the frontier or an edge can name, a
    fuel of at least the number of nodes not yet assigned is enough. *)
Lemma bfsLoop_terminates (universe : list K) outgoing :
  (forall k ds x, get k outgoing = Some ds -> x ∈ ds -> x ∈ universe) ->
  forall fuel frontier col column assigned,
    NoDup assigned ->
    (forall x, x ∈ assigned -> x ∈ universe) ->
    (forall x, x ∈ frontier -> x ∈ universe /\ x ∉ assigned) ->
    (length universe - length assigned <= fuel)%nat ->
    is_Some (bfsLoop fuel outgoing frontier col column assigned).
Proof.
  intros Hout. induction fuel as [|fuel IH]; intros frontier col column assigned Hnd Hin Hfr Hfuel.
  - destruct frontier as [|x rest]; cbn; [eauto|].
    exfalso. destruct (Hfr x) as [Hu Hn]; [left|].
    assert (x :: assigned ⊆+ universe) as Hsub.
    { apply NoDup_submseteq; [constructor; assumption|].
      intros y Hy. apply elem_of_cons in Hy as [->|Hy]; auto. }
    apply submseteq_length in Hsub. cbn in Hsub. lia.
  - destruct frontier as [|x rest]; [cbn; eauto|].
    cbn [bfsLoop].
    pose proof (assign_fold col (x :: rest) column assigned Hnd) as Hassign.
    destruct (fold_left (assignStep col) (x :: rest) (column, assigned))
      as [column' assigned'] eqn:Hfold.
    cbn in Hassign. destruct Hassign as (Hnd' & Hmem & _ & Hlt).
    apply IH.
    + assumption.
    + intros y Hy. apply Hmem in Hy as [Hy|Hy]; [auto|]. now apply Hfr.
    + intros y Hy. apply next_fold_elem in Hy as [Hy|(Hn & k & ds & Hg & Hy)].
      * now apply elem_of_nil in Hy.
      * split; [eapply Hout; eassumption|assumption].
    + assert (length assigned < length assigned')%nat.
      { apply Hlt. exists x. split; [left|]. now apply Hfr; left. }
      lia.
Qed.

End BfsTermination.

Section LayoutTotal.
Import Ordered Layering.

Lemma addEdge_values {K : Type} `{EqDecision K} (P : K -> Prop) (k v : K) m :
  P v ->
  (forall k' ds x, get k' m = Some ds -> x ∈ ds -> P x) ->
  forall k' ds x, get k' (addEdge k v m) = Some ds -> x ∈ ds -> P x.
Proof.
  intros Hv Hm k' ds x. unfold addEdge.
  destruct (get k m) as [s|] eqn:Hs; [|apply Hm].
  rewrite get_set. destruct (decide (k = k')) as [->|]; [|apply Hm].
  intros [= <-] Hx. apply elem_of_add in Hx as [Hx| ->]; [|assumption].
  eapply Hm; eassumption.
Qed.

Lemma emptyAdjacency_values (bs : list Block) (m0 : list (string * list string)) k ds :
  get k (fold_left (fun m b => set (block_id b) [] m) bs m0) = Some ds ->
  ds = [] \/ get k m0 = Some ds.
Proof.
  revert m0. induction bs as [|b bs IH]; intros m0; cbn; [tauto|].
  intros Hg. apply IH in Hg as [?|Hg]; [tauto|].
  rewrite get_set in Hg. destruct (decide (block_id b = k)); [|tauto].
  left. congruence.
Qed.

Lemma intraOutgoing_values groupBlocks connections k ds x :
  get k (intraOutgoing groupBlocks connections) = Some ds -> x ∈ ds ->
  x ∈ groupBlockIds groupBlocks.
Proof.
  unfold intraOutgoing.
  assert (forall k ds x, get k (emptyAdjacency groupBlocks) = Some ds -> x ∈ ds ->
                         x ∈ groupBlockIds groupBlocks) as Hinit.
  { intros k' ds' x' Hg Hx. apply emptyAdjacency_values in Hg as [->|Hg]; [|discriminate].
    now apply elem_of_nil in Hx. }
  revert k ds x. generalize dependent (emptyAdjacency groupBlocks).
  induction connections as [|c cs IH]; intros m Hm; cbn; [exact Hm|].
  apply IH. unfold mem.
  destruct (bool_decide (from_block c ∈ groupBlockIds groupBlocks)) eqn:Hf; [|exact Hm].
  destruct (bool_decide (to_block c ∈ groupBlockIds groupBlocks)) eqn:Ht; [|exact Hm].
  cbn. apply bool_decide_eq_true in Ht.
  apply (addEdge_values (fun x => x ∈ groupBlockIds groupBlocks)); assumption.
Qed.

Lemma intraRoots_ids groupBlocks connections x :
  x ∈ intraRoots groupBlocks connections -> x ∈ groupBlockIds groupBlocks.
Proof.
  unfold intraRoots, groupBlockIds. rewrite !list_elem_of_fmap.
  intros (b & -> & Hb). apply list_elem_of_filter in Hb as [_ Hb]. eauto.
Qed.

(** The per-group layering always yields a column map. *)
Lemma blockColumn_total groupBlocks connections :
  is_Some (blockColumn groupBlocks connections).
Proof.
  unfold blockColumn.
  destruct (bfsLoop_terminates (groupBlockIds groupBlocks)
              (intraOutgoing groupBlocks connections)
              (intraOutgoing_values groupBlocks connections)
              (S (length groupBlocks)) (intraRoots groupBlocks connections) 0 [] [])
    as [[[column assigned] col] ->].
  - constructor.
  - intros x Hx. now apply elem_of_nil in Hx.
  - intros x Hx. split; [eapply intraRoots_ids; eassumption|apply not_elem_of_nil].
  - unfold groupBlockIds. rewrite length_map. cbn. lia.
  - eauto.
Qed.

Lemma blockToGroupIdx_values (groups : list (string * list Block)) k i :
  get k (blockToGroupIdx groups) = Some i -> (i < length groups)%nat.
Proof.
  unfold blockToGroupIdx.
  assert (forall o (gs : list (string * list Block)) m0,
            (forall k i, get k m0 = Some i -> (i < o + length gs)%nat) ->
            forall k i,
              get k (fold_left
                       (fun m ig => fold_left (fun m b => set (block_id b) (fst ig) m)
                                              (snd (snd ig)) m)
                       (imap (fun j g => (o + j, g)%nat) gs) m0) = Some i ->
              (i < o + length gs)%nat) as Hgen.
  { intros o gs. revert o. induction gs as [|g gs IH]; intros o m0 Hm0; cbn; [exact Hm0|].
    intros k' i' Hg.
    rewrite (imap_ext _ (fun j g0 => (S o + j, g0)%nat)) in Hg
      by (intros; unfold compose; f_equal; lia).
    apply IH in Hg; [lia|].
    clear - Hm0. cbn. generalize dependent m0.
    induction (snd g) as [|b bs IHb]; intros m0 Hm0 k i; cbn.
    - intros Hg. apply Hm0 in Hg. cbn in Hg. lia.
    - apply IHb. intros k0 i0. rewrite get_set.
      destruct (decide (block_id b = k0)); [intros [= <-]; cbn; lia|apply Hm0]. }
  intros Hg. apply (Hgen 0%nat groups []) in Hg; [exact Hg|]. discriminate.
Qed.

Lemma emptyGroupAdjacency_values n k ds :
  get k (emptyGroupAdjacency n) = Some ds -> ds = [].
Proof.
  unfold emptyGroupAdjacency. induction (seq 0 n) as [|i l IH]; cbn; [discriminate|].
  destruct (decide (i = k)); [congruence|exact IH].
Qed.

Lemma groupOutgoing_values groups connections k ds x :
  get k (groupOutgoing groups connections) = Some ds -> x ∈ ds ->
  x ∈ seq 0 (length groups).
Proof.
  unfold groupOutgoing.
  assert (forall k ds x, get k (emptyGroupAdjacency (length groups)) = Some ds -> x ∈ ds ->
                         x ∈ seq 0 (length groups)) as Hinit.
  { intros k' ds' x' Hg Hx. apply emptyGroupAdjacency_values in Hg as ->.
    now apply elem_of_nil in Hx. }
  revert k ds x. generalize dependent (emptyGroupAdjacency (length groups)).
  induction connections as [|c cs IH]; intros m Hm; cbn; [exact Hm|].
  apply IH.
  destruct (get (from_block c) (blockToGroupIdx groups)) as [f|]; [|exact Hm].
  destruct (get (to_block c) (blockToGroupIdx groups)) as [t|] eqn:Ht; [|exact Hm].
  destruct (decide (f = t)); [exact Hm|].
  apply (addEdge_values (fun x => x ∈ seq 0 (length groups))); [|exact Hm].
  apply elem_of_seq. apply blockToGroupIdx_values in Ht. lia.
Qed.

Lemma groupColumn_total groups connections :
  exists cols, groupColumn groups connections = Some cols /\ length cols = length groups.
Proof.
  unfold groupColumn.
  destruct (bfsLoop_terminates (seq 0 (length groups))
              (groupOutgoing groups connections)
              (groupOutgoing_values groups connections)
              (S (length groups)) (rootGroups groups connections) 0 [] [])
    as [[[column assigned] col] ->].
  - constructor.
  - intros x Hx. now apply elem_of_nil in Hx.
  - intros x Hx. split; [|apply not_elem_of_nil].
    unfold rootGroups in Hx. now apply list_elem_of_filter in Hx as [_ Hx].
  - rewrite length_seq. cbn. lia.
  - eexists. split; [reflexivity|]. now rewrite length_map, length_seq.
Qed.

(** [layoutBlocks] returns a layout on every input: the fuel of its two
    layering loops is never exhausted. *)
Lemma layoutBlocks_total blocks connections :
  is_Some (layoutBlocks blocks connections).
Proof.
  unfold layoutBlocks. destruct blocks as [|b bs]; [eauto|].
  destruct (groupColumn_total (hwGroupMap (b :: bs)) connections) as (cols & -> & _).
  cbn [mbind option_bind].
  assert (is_Some (mapM (fun e => layoutGroup (fst (fst e)) (snd (fst e)) (snd e) connections)
                        (zip (hwGroupMap (b :: bs)) cols))) as [groups ->].
  { apply mapM_is_Some. apply Forall_forall. intros e _.
    unfold compose, layoutGroup. cbn beta.
    destruct (blockColumn_total (snd (fst e)) connections) as [c ->]. cbn. eauto. }
  cbn. eauto.
Qed.

End LayoutTotal.

Section LayoutExample.
Import Layering Samples.
Local Open Scope R_scope.

(** The supply and its load, in no hardware group, land in group columns 0
    and 1: the supply at (80, 90), the load at (500, 90). *)
Lemma layoutBlocks_pair :
  layoutBlocks [supply; load] pairConnections
  = Some [mkLayoutBlock supply 80 90 180 68; mkLayoutBlock load 500 90 180 68].
Proof.
  unfold layoutBlocks.
  change (hwGroupMap [supply; load]) with [("__solo_0", [supply]); ("__solo_1", [load])].
  change (groupColumn [("__solo_0", [supply]); ("__solo_1", [load])] pairConnections)
    with (Some [0; 1]%nat).
  cbn [mbind option_bind zip zip_with mapM fst snd].
  unfold layoutGroup.
  change (blockColumn [supply] pairConnections) with (Some [("A", 0%nat)]).
  change (blockColumn [load] pairConnections) with (Some [("B", 0%nat)]).
  cbn [mbind option_bind mret option_ret fmap option_fmap option_map].
  change (tempLayout [supply] [("A", 0%nat)])
    with [mkLayoutBlock supply (INR 0 * (BLOCK_WIDTH + INTRA_GROUP_H_GAP)) 0 BLOCK_WIDTH
            (blockHeight supply)].
  change (tempLayout [load] [("B", 0%nat)])
    with [mkLayoutBlock load (INR 0 * (BLOCK_WIDTH + INTRA_GROUP_H_GAP)) 0 BLOCK_WIDTH
            (blockHeight load)].
  cbv beta iota. unfold placeGroups.
  match goal with |- context [groupColumns ?g] =>
    change (groupColumns g) with [(0%nat, [0%nat]); (1%nat, [1%nat])] end.
  change (merge_sort Nat.le (map fst [(0%nat, [0%nat]); (1%nat, [1%nat])])) with [0%nat; 1%nat].
  repeat (progress (cbn; decide_index)).
  unfold blockHeight, BLOCK_WIDTH, BLOCK_HEADER, PORT_ROW, PADDING, H_GAP, GROUP_PAD_X,
    GROUP_PAD_TOP, GROUP_PAD_BOTTOM, INTRA_GROUP_H_GAP. cbn.
  unfold translate. cbn. repeat (f_equal; try lra).
Qed.
End LayoutExample.

(** ** Persistence *)

Section PersistenceFacts.
Import Viewer Persistence Samples.

(** With no usable design id, no record, a text that is not JSON or a falsy
    value, a fresh viewer keeps its three collections empty. *)
Lemma mount_without_record designId storage :
  (forall d, truthyId designId = Some d ->
     storage !! getLayoutKey d = None
     \/ storage !! getLayoutKey d = Some NotJson
     \/ storage !! getLayoutKey d = Some (Json PFalsy)) ->
  mount designId storage = LoadDone noOverrides.
Proof.
  intros Hrec. unfold mount, loadEffect, loadLayout.
  destruct (truthyId designId) as [d|]; [|reflexivity].
  destruct (Hrec d eq_refl) as [-> | [-> | ->]]; reflexivity.
Qed.

(** C3. When the text stored for design ["d1"] parses to the empty object,
    which lacks the three association lists, mounting the viewer does not
    fall back to the computed layout: the load effect raises on reading the
    length of the absent [blockPositions]. *)
Theorem mount_empty_object_raises :
  loadLayout "d1" emptyObjectStorage = Some (PObject (mkStoredObject None None None))
  /\ mount (Some "d1") emptyObjectStorage = LoadRaises.
Proof.
  assert (loadLayout "d1" emptyObjectStorage = Some (PObject (mkStoredObject None None None)))
    as Hload.
  { unfold loadLayout, emptyObjectStorage. now rewrite lookup_singleton_eq. }
  split; [exact Hload|].
  unfold mount, loadEffect. cbn [truthyId]. rewrite decide_False by discriminate.
  rewrite Hload. reflexivity.
Qed.

Lemma mapOfEntries_fold {K V : Type} `{Countable K} (l : list (K * V)) (m : gmap K V) :
  fold_left (fun m e => <[fst e := snd e]> m) l m = list_to_map (reverse l) ∪ m.
Proof.
  revert m. induction l as [|[k v] l IH]; intros m.
  - cbn. now rewrite (left_id_L ∅ (∪)).
  - cbn [fold_left fst snd]. rewrite IH, reverse_cons, list_to_map_app.
    cbn [list_to_map foldr fst snd uncurry]. 
    rewrite insert_empty, <- (assoc_L (∪)), <- insert_union_singleton_l. reflexivity.
Qed.

(** [new Map([...m.entries()])] is [m]. *)
Lemma mapOfEntries_entriesOf {K V : Type} `{Countable K} (m : gmap K V) :
  mapOfEntries (entriesOf m) = m.
Proof.
  unfold mapOfEntries, entriesOf. rewrite mapOfEntries_fold, (right_id_L ∅ (∪)).
  rewrite <- (list_to_map_to_list m) at 2.
  apply list_to_map_proper.
  - rewrite fmap_reverse, reverse_Permutation. apply NoDup_fst_map_to_list.
  - apply reverse_Permutation.
Qed.

Lemma loadField_entriesOf {K V : Type} `{Countable K} (m : gmap K V) :
  loadField (Some (entriesOf m)) ∅ = Some m.
Proof.
  unfold loadField. destruct (entriesOf m) as [|e l] eqn:He.
  - unfold entriesOf in He. apply map_to_list_empty_iff in He. now subst.
  - rewrite <- He. now rewrite mapOfEntries_entriesOf.
Qed.

(** A fresh viewer reads back the collections [saveLayout] wrote. *)
Lemma mount_after_save d ov storage :
  d <> "" ->
  storage !! getLayoutKey d = Some (stringify (snapshot ov)) ->
  mount (Some d) storage = LoadDone ov.
Proof.
  intros Hd Hst. unfold mount, loadEffect, loadLayout. cbn [truthyId].
  rewrite decide_False by assumption. rewrite Hst.
  unfold stringify, snapshot, noOverrides. cbn -[loadField entriesOf].
  rewrite !loadField_entriesOf. now destruct ov.
Qed.

Lemma runCleanup_timers w : saverInv w -> timers (runCleanup w) = ∅.
Proof.
  intros Hinv. apply map_empty. intros t.
  destruct (timers (runCleanup w) !! t) as [x|] eqn:Ht; [|reflexivity]. exfalso.
  unfold runCleanup, clearSaveTimer in Ht.
  destruct (saveCleanup w) eqn:Hc.
  - destruct (layoutSaveTimer w) as [t'|] eqn:Hl.
    + cbn in Ht. apply lookup_delete_Some in Ht as [Hne Ht].
      apply Hinv in Ht as [Ht _]. congruence.
    + apply Hinv in Ht as [Ht _]. congruence.
  - apply Hinv in Ht as [_ Ht]. congruence.
Qed.

Lemma runCleanup_storage w : storage (runCleanup w) = storage w.
Proof.
  unfold runCleanup, clearSaveTimer.
  destruct (saveCleanup w), (layoutSaveTimer w); reflexivity.
Qed.

Lemma runCleanup_nextTimer w : nextTimer (runCleanup w) = nextTimer w.
Proof.
  unfold runCleanup, clearSaveTimer.
  destruct (saveCleanup w), (layoutSaveTimer w); reflexivity.
Qed.

Lemma saverInv_step w e : saverInv w -> saverInv (saverStep w e).
Proof.
  intros Hinv. destruct e as [designId ov|t|]; cbn.
  - unfold rerunSaveEffect, saveEffect.
    pose proof (runCleanup_timers w Hinv) as Hempty.
    destruct (truthyId designId) as [d|].
    + destruct (allEmpty ov).
      * intros t x. cbn. rewrite Hempty, lookup_empty. discriminate.
      * intros t x. cbn.
        assert (timers (clearSaveTimer (runCleanup w)) = ∅) as ->.
        { unfold clearSaveTimer. destruct (layoutSaveTimer (runCleanup w)); cbn;
            rewrite Hempty; [apply delete_empty|reflexivity]. }
        rewrite lookup_insert_Some, lookup_empty. intros [[<- _]|[_ ?]]; [|discriminate].
        split; reflexivity.
    + intros t x. cbn. rewrite Hempty, lookup_empty. discriminate.
  - unfold fireTimer. destruct (timers w !! t) as [[d data]|] eqn:Ht; [|exact Hinv].
    intros t' x. cbn. rewrite lookup_delete_Some. intros [_ Hx]. exact (Hinv _ _ Hx).
  - intros t x. cbn. rewrite (runCleanup_timers w Hinv), lookup_empty. discriminate.
Qed.

Lemma saverReachable_inv w : saverReachable w -> saverInv w.
Proof.
  induction 1 as [st full|w e _ IH].
  - intros t x. cbn. rewrite lookup_empty. discriminate.
  - now apply saverInv_step.
Qed.

Lemma fireTimer_no_timers w t : timers w = ∅ -> fireTimer t w = w.
Proof. intros Hw. unfold fireTimer. now rewrite Hw, lookup_empty. Qed.

(** C10. When the three override collections are all empty, a run of the
    save effect (after the previous run's cleanup) leaves no write pending
    and does not touch the store, whatever timers fire afterwards and when
    the viewer is unmounted; so after the last override of design [d] is
    removed, the record persisted before ([stringify (snapshot persisted)])
    is still the stored one, and the next mount of the viewer loads
    [persisted] again. *)
Theorem empty_overrides_never_saved (w : Saver) (d : string) (ov persisted : Overrides)
    (fired : list nat) :
  saverReachable w ->
  d <> "" ->
  allEmpty ov = true ->
  storage w !! getLayoutKey d = Some (stringify (snapshot persisted)) ->
  let w1 := rerunSaveEffect (Some d) ov w in
  let w2 := saverStep (foldl saverStep w1 (Fired <$> fired)) Unmounted in
  timers w1 = ∅
  /\ storage w2 = storage w
  /\ mount (Some d) (storage w2) = LoadDone persisted.
Proof.
  intros Hreach Hd Hempty Hstored w1 w2.
  apply saverReachable_inv in Hreach.
  assert (timers w1 = ∅ /\ storage w1 = storage w) as [Ht Hs].
  { unfold w1, rerunSaveEffect, saveEffect. cbn [truthyId].
    rewrite decide_False by assumption. rewrite Hempty. cbn.
    split; [now apply runCleanup_timers|apply runCleanup_storage]. }
  assert (foldl saverStep w1 (Fired <$> fired) = w1) as Hfired.
  { induction fired as [|t ts IH] using rev_ind; [reflexivity|].
    rewrite fmap_app, foldl_app. cbn. rewrite IH. now apply fireTimer_no_timers. }
  assert (storage w2 = storage w) as Hs2.
  { unfold w2. rewrite Hfired. cbn. now rewrite runCleanup_storage. }
  split; [exact Ht|]. split; [exact Hs2|].
  apply mount_after_save; [assumption|]. now rewrite Hs2.
Qed.

(** After the drag of [savedOnce] is undone the store keeps the record of the
    drag, and the next mount loads it. *)
Lemma empty_overrides_never_saved_witness :
  let w1 := rerunSaveEffect (Some "d1") noOverrides savedOnce in
  let w2 := saverStep (foldl saverStep w1 (Fired <$> [1; 2]%nat)) Unmounted in
  timers w1 = ∅
  /\ storage w2 = storage savedOnce
  /\ mount (Some "d1") (storage w2) = LoadDone movedOverrides.
Proof.
  apply (empty_overrides_never_saved savedOnce "d1" noOverrides movedOverrides [1; 2]%nat).
  - apply reach_step, reach_step, reach_fresh.
  - discriminate.
  - reflexivity.
  - reflexivity.
Defined.

End PersistenceFacts.

(** ** Zoom and drag *)

Section InteractionFacts.
Import Viewer Interaction.
Local Open Scope R_scope.
Context (blocks : list Block) (connections : list BlockConnection).

Lemma onWheel_zoom_range s e : ctrlKey e = true -> 0.2 <= zoom (onWheel s e) <= 5.
Proof.
  intros Hc. unfold onWheel. rewrite Hc. cbn.
  unfold Rmin, Rmax. repeat destruct (Rle_dec _ _); lra.
Qed.

Lemma handleConnMouseDown_zoom paths s i client svg :
  zoom (handleConnMouseDown paths s i client svg) = zoom s.
Proof.
  unfold handleConnMouseDown.
  repeat match goal with
         | |- context [match ?x with _ => _ end] => destruct x
         end; reflexivity.
Qed.

Lemma handleCanvasMouseMove_zoom s client :
  zoom (handleCanvasMouseMove s client) = zoom s.
Proof.
  unfold handleCanvasMouseMove.
  repeat match goal with
         | |- context [match ?x with _ => _ end] => destruct x
         end; reflexivity.
Qed.

Lemma step_zoom_range s e s' :
  step blocks connections s e = Some s' ->
  0.2 <= zoom s <= 5 -> 0.2 <= zoom s' <= 5.
Proof.
  intros Hstep Hz. destruct e; cbn in Hstep.
  - injection Hstep as <-. unfold onWheel. destruct (ctrlKey e) eqn:Hc.
    + pose proof (onWheel_zoom_range s e Hc) as H. unfold onWheel in H. now rewrite Hc in H.
    + exact Hz.
  - injection Hstep as <-. cbn. unfold Rmin. destruct (Rle_dec _ _); lra.
  - injection Hstep as <-. cbn. unfold Rmax. destruct (Rle_dec _ _); lra.
  - injection Hstep as <-. cbn. lra.
  - injection Hstep as <-. exact Hz.
  - injection Hstep as <-. exact Hz.
  - destruct (layout _ _ _); [|discriminate]. cbn in Hstep. injection Hstep as <-.
    now rewrite handleConnMouseDown_zoom.
  - injection Hstep as <-. exact Hz.
  - destruct (layout _ _ _); [|discriminate]. cbn in Hstep.
    destruct (handleConnDoubleClick _ _ _ _ _); [|discriminate].
    cbn in Hstep. injection Hstep as <-. exact Hz.
  - destruct (layout _ _ _); [|discriminate]. cbn in Hstep.
    destruct (removeWaypoint _ _ _ _ _); [|discriminate].
    cbn in Hstep. injection Hstep as <-. exact Hz.
  - injection Hstep as <-. now rewrite handleCanvasMouseMove_zoom.
  - injection Hstep as <-. exact Hz.
  - injection Hstep as <-. exact Hz.
Qed.

(** The zoom factor of a reachable state is within [0.2, 5]. *)
Lemma reachable_zoom_range s : reachable blocks connections s -> 0.2 <= zoom s <= 5.
Proof.
  induction 1 as [|s e s' _ IH Hstep]; [cbn; lra|].
  eapply step_zoom_range; eassumption.
Qed.


End InteractionFacts.


Section DragFacts.
Import Viewer Interaction.
Local Open Scope R_scope.
Context (blocks : list Block) (connections : list BlockConnection).

Lemma run_snoc s events e :
  run blocks connections s (events ++ [e])
  = run blocks connections s events ≫= fun s' => step blocks connections s' e.
Proof. unfold run. now rewrite foldl_app. Qed.

Lemma run_cons s e events :
  run blocks connections s (e :: events)
  = step blocks connections s e ≫= fun s' => run blocks connections s' events.
Proof.
  unfold run. cbn [foldl]. cbn [mbind option_bind].
  destruct (step blocks connections s e) as [s'|]; [reflexivity|].
  cbn. induction events as [|e' es IH]; [reflexivity|exact IH].
Qed.

Lemma run_moves s moves :
  run blocks connections s (MouseMove <$> moves) = Some (foldl handleCanvasMouseMove s moves).
Proof.
  revert s. induction moves as [|m ms IH]; intros s; [reflexivity|].
  rewrite fmap_cons, run_cons. cbn. apply IH.
Qed.

Lemma draggingFrom_move s A bx by_ origin s' client :
  draggingFrom s A bx by_ origin s' ->
  draggingFrom s A bx by_ origin (handleCanvasMouseMove s' client)
  /\ (~ (Rabs (px client - px origin) < 5 /\ Rabs (py client - py origin) < 5) ->
      blockPositionOverrides (overrides (handleCanvasMouseMove s' client)) !! A
      = Some (draggedTo (zoom s) bx by_ origin client)).
Proof.
  intros (Hn & Hb & Hstart & Hz & Hpo & Hwp & Hbp).
  unfold handleCanvasMouseMove. rewrite Hn, Hb, Hstart. cbn [mouseX mouseY blockX blockY].
  destruct (bool_decide (Rabs (px client - px origin) < 5)
            && bool_decide (Rabs (py client - py origin) < 5)) eqn:Hth.
  - split; [repeat split; assumption|].
    intros Hpast. exfalso. apply Hpast.
    apply andb_true_iff in Hth as [H1 H2].
    split; eapply bool_decide_eq_true; eassumption.
  - split.
    + repeat split; cbn; try assumption.
      intros k Hk. rewrite lookup_insert_ne by congruence. now apply Hbp.
    + intros _. cbn. rewrite lookup_insert_eq, Hz. reflexivity.
Qed.

Lemma draggingFrom_moves s A bx by_ origin s' moves :
  draggingFrom s A bx by_ origin s' ->
  draggingFrom s A bx by_ origin (foldl handleCanvasMouseMove s' moves).
Proof.
  revert s'. induction moves as [|m ms IH]; intros s' Hs'; [exact Hs'|].
  cbn. apply IH. now apply draggingFrom_move.
Qed.

(** Entry [i] of the layout only depends on the override of its own block. *)
Lemma applyBlockOverrides_frame (ov ov' : gmap string Point) A base i lb :
  (forall k, k <> A -> ov' !! k = ov !! k) ->
  applyBlockOverrides ov base !! i = Some lb ->
  block_id (lb_block lb) <> A ->
  applyBlockOverrides ov' base !! i = Some lb.
Proof.
  intros Hframe. unfold applyBlockOverrides. rewrite !list_lookup_fmap.
  destruct (base !! i) as [b|]; [|discriminate]. cbn.
  intros [= <-] Hne. f_equal.
  assert (block_id (lb_block b) <> A) as Hb.
  { destruct (ov !! block_id (lb_block b)); exact Hne. }
  now rewrite (Hframe _ Hb).
Qed.

(** C7. A drag of block [A] (pointer down on [A] outside any node drag, any
    pointer moves, release) changes no entry of the block-position override
    map other than [A]'s, leaves the point overrides and the waypoints
    untouched, and the recomputed layout holds, at every position, the same
    rectangle as before for every block other than [A]; when the last move
    is past the 5-pixel commit threshold, [A]'s entry is the dragged
    position. *)
Theorem block_drag_changes_only_A (s : State) (A : string) (bx by_ : R)
    (origin : Point) (moves : list Point) :
  draggedNodeRef s = None ->
  exists s' L L',
    run blocks connections s
        (BlockMouseDown A bx by_ origin :: (MouseMove <$> moves) ++ [MouseUp]) = Some s'
    /\ (forall k, k <> A ->
          blockPositionOverrides (overrides s') !! k
          = blockPositionOverrides (overrides s) !! k)
    /\ connPointOverrides (overrides s') = connPointOverrides (overrides s)
    /\ connWaypoints (overrides s') = connWaypoints (overrides s)
    /\ layout blocks connections (blockPositionOverrides (overrides s)) = Some L
    /\ layout blocks connections (blockPositionOverrides (overrides s')) = Some L'
    /\ length L' = length L
    /\ (forall i lb, L !! i = Some lb -> block_id (lb_block lb) <> A -> L' !! i = Some lb)
    /\ (forall client,
          last moves = Some client ->
          ~ (Rabs (px client - px origin) < 5 /\ Rabs (py client - py origin) < 5) ->
          blockPositionOverrides (overrides s') !! A
          = Some (draggedTo (zoom s) bx by_ origin client)).
Proof.
  intros Hnode.
  set (s0 := handleBlockMouseDown s A bx by_ origin).
  assert (draggingFrom s A bx by_ origin s0) as H0.
  { unfold draggingFrom, s0. cbn. repeat split; auto. }
  pose proof (draggingFrom_moves s A bx by_ origin s0 moves H0) as Hm.
  set (s1 := foldl handleCanvasMouseMove s0 moves) in *.
  destruct (layoutBlocks_total blocks connections) as [base Hbase].
  exists (handleCanvasMouseUp s1),
         (applyBlockOverrides (blockPositionOverrides (overrides s)) base),
         (applyBlockOverrides (blockPositionOverrides (overrides s1)) base).
  destruct Hm as (_ & _ & _ & _ & Hpo & Hwp & Hbp).
  split.
  { rewrite run_cons. cbn [step mbind option_bind]. fold s0.
    rewrite run_snoc, run_moves. reflexivity. }
  cbn [handleCanvasMouseUp overrides].
  repeat split; try assumption.
  - unfold layout. now rewrite Hbase.
  - unfold layout. now rewrite Hbase.
  - unfold applyBlockOverrides. now rewrite !length_map.
  - intros i lb. now apply applyBlockOverrides_frame.
  - intros client Hlast Hpast.
    apply last_Some in Hlast as [ms ->].
    unfold s1. rewrite foldl_app. cbn [foldl].
    apply (draggingFrom_move s A bx by_ origin); [|assumption].
    now apply draggingFrom_moves.
Qed.

End DragFacts.

(** Block ["A"] of a two-block diagram dragged 30 pixels to the right:
    its override becomes (110, 90) and block ["B"] keeps none. *)
Lemma block_drag_changes_only_A_witness :
  exists s',
    Interaction.run [Samples.supply; Samples.load] Samples.pairConnections
        Interaction.initialState
        (Interaction.BlockMouseDown "A" 80 90 (mkPoint 100 100)
           :: (Interaction.MouseMove <$> [mkPoint 130 100]) ++ [Interaction.MouseUp])
      = Some s'
    /\ Viewer.blockPositionOverrides (Interaction.overrides s') !! "B" = None
    /\ Viewer.blockPositionOverrides (Interaction.overrides s') !! "A"
       = Some (Interaction.draggedTo 1 80 90 (mkPoint 100 100) (mkPoint 130 100)).
Proof.
  destruct (block_drag_changes_only_A [Samples.supply; Samples.load] Samples.pairConnections
              Interaction.initialState "A" 80 90 (mkPoint 100 100) [mkPoint 130 100]
              eq_refl)
    as (s' & L & L' & Hrun & Hframe & _ & _ & _ & _ & _ & _ & Hcommit).
  exists s'. split; [exact Hrun|]. split.
  - rewrite Hframe by discriminate. reflexivity.
  - apply Hcommit; [reflexivity|].
    cbn. intros [H _]. rewrite Rabs_right in H; lra.
Defined.

(** ** Channel search *)

Section ChannelFacts.
Import Router Props.
Local Open Scope R_scope.

Lemma channelLoop_unfold preferredX startY endY blocks offset :
  channelLoop preferredX startY endY blocks offset
  = if Z_le_gt_dec offset 300 then
      if channelClear startY endY blocks (preferredX - IZR offset)
      then preferredX - IZR offset
      else if channelClear startY endY blocks (preferredX + IZR offset)
      then preferredX + IZR offset
      else channelLoop preferredX startY endY blocks (offset + 20)%Z
    else preferredX.
Proof.
  rewrite channelLoop_equation_1. destruct (Z_le_gt_dec offset 300); reflexivity.
Qed.

(** Entered at offset [20 * k] with [n] rounds left before the bound of 300
    is passed, the loop returns the first clear x among the probes of rounds
    [k .. k + n - 1]. *)
Lemma channelLoop_rounds preferredX startY endY blocks n k :
  (k + n = 16)%nat -> (1 <= k)%nat ->
  channelLoop preferredX startY endY blocks (20 * Z.of_nat k)
  = from_option id preferredX
      (find (channelClear startY endY blocks)
            (flat_map (fun j => [preferredX - 20 * INR j; preferredX + 20 * INR j]) (seq k n))).
Proof.
  revert k. induction n as [|n IH]; intros k Hk H1; rewrite channelLoop_unfold.
  - destruct (Z_le_gt_dec _ _); [lia|reflexivity].
  - destruct (Z_le_gt_dec _ _); [|lia].
    assert (IZR (20 * Z.of_nat k) = 20 * INR k) as ->.
    { now rewrite mult_IZR, <- INR_IZR_INZ. }
    cbn [seq flat_map app find].
    destruct (channelClear startY endY blocks (preferredX - 20 * INR k)); [reflexivity|].
    destruct (channelClear startY endY blocks (preferredX + 20 * INR k)); [reflexivity|].
    replace (20 * Z.of_nat k + 20)%Z with (20 * Z.of_nat (S k))%Z by lia.
    apply IH; lia.
Qed.

Lemma findClearVerticalChannel_firstClear preferredX startY endY blocks :
  findClearVerticalChannel preferredX startY endY blocks
  = firstClear startY endY blocks preferredX.
Proof.
  unfold findClearVerticalChannel, firstClear. cbn [find].
  destruct (channelClear startY endY blocks preferredX); [reflexivity|].
  apply (channelLoop_rounds preferredX startY endY blocks 15 1); lia.
Qed.

Lemma computeOrthogonalPath_forward fromPort toPort allBlocks (sameGroup : bool)
    verticalOffset :
  let exitDistance := if sameGroup then 20 else 40 in
  let fromY := py fromPort + verticalOffset in
  let toY := py toPort + verticalOffset in
  let midX := ((px fromPort + exitDistance) + (px toPort - exitDistance)) / 2 in
  let channelX := firstClear fromY toY allBlocks midX + verticalOffset * 0.7 in
  ~ Rabs (px toPort - px fromPort) < BLOCK_WIDTH * 0.5 ->
  px toPort > px fromPort + exitDistance * 2 ->
  computeOrthogonalPath fromPort toPort allBlocks sameGroup verticalOffset
  = if bool_decide (Rabs (fromY - toY) < 1) then [fromPort; toPort]
    else [fromPort; mkPoint channelX fromY; mkPoint channelX toY; toPort].
Proof.
  intros exitDistance fromY toY midX channelX Hcol Hfwd.
  unfold computeOrthogonalPath. fold exitDistance fromY toY.
  rewrite bool_decide_eq_false_2 by assumption.
  rewrite bool_decide_eq_true_2 by assumption.
  rewrite findClearVerticalChannel_firstClear. reflexivity.
Qed.


End ChannelFacts.

Section ChannelExample.
Local Open Scope R_scope.


End ChannelExample.

(** ** Waypoint splitting *)

Section SplitFacts.
Import Router Props Samples.
Local Open Scope R_scope.

Lemma hypot_0_r a : hypot a 0 = Rabs a.
Proof.
  unfold hypot. replace (a * a + 0 * 0) with (Rsqr a) by (unfold Rsqr; lra).
  apply sqrt_Rsqr_abs.
Qed.







Lemma insertWaypointsIntoPath_single path wp :
  insertWaypointsIntoPath path [wp]
  = splitSegment [locateWaypoint path wp] path (ws_segIdx (locateWaypoint path wp)).
Proof. reflexivity. Qed.



End SplitFacts.

Section SplitExample.
Import Router Props.
Local Open Scope R_scope.


End SplitExample.

(** ** Waypoint insertion and removal *)

Section PathLengthFacts.
Import Router.
Local Open Scope R_scope.

Lemma nearestSegment_bound p pts : (nearestSegment p pts <= length pts - 2)%nat.
Proof.
  unfold nearestSegment.
  assert (forall l st,
            (forall s, s ∈ l -> (s <= length pts - 2)%nat) ->
            (fst st <= length pts - 2)%nat ->
            (fst (fold_left (fun st s =>
                    match pts !! s, pts !! S s with
                    | Some a, Some b =>
                        if closer (pointToSegmentDist p a b) (snd st)
                        then (s, Some (pointToSegmentDist p a b)) else st
                    | _, _ => st
                    end) l st) <= length pts - 2)%nat) as Hgen.
  { induction l as [|s l IH]; intros st Hl Hst; [exact Hst|].
    cbn [fold_left]. apply IH.
    - intros s' Hs'. apply Hl. now right.
    - destruct (pts !! s), (pts !! S s); try exact Hst.
      destruct (closer _ _); [|exact Hst]. cbn. apply Hl. now left. }
  apply Hgen; [|cbn; lia].
  intros s Hs. apply elem_of_seq in Hs. lia.
Qed.

Lemma locateWaypoint_bound pts wp :
  (ws_segIdx (locateWaypoint pts wp) <= length pts - 2)%nat.
Proof.
  unfold locateWaypoint.
  set (body := fun (st : option R * nat * R) (s : nat) =>
         match pts !! s, pts !! S s with
         | Some p1, Some p2 =>
             if closer (hypot (px wp - (px p1 + segmentT wp p1 p2 * (px p2 - px p1)))
                              (py wp - (py p1 + segmentT wp p1 p2 * (py p2 - py p1))))
                       (fst (fst st))
             then (Some (hypot (px wp - (px p1 + segmentT wp p1 p2 * (px p2 - px p1)))
                               (py wp - (py p1 + segmentT wp p1 p2 * (py p2 - py p1)))),
                   s, segmentT wp p1 p2)
             else st
         | _, _ => st
         end).
  assert (forall l st,
            (forall s, s ∈ l -> (s <= length pts - 2)%nat) ->
            (snd (fst st) <= length pts - 2)%nat ->
            (snd (fst (fold_left body l st)) <= length pts - 2)%nat) as Hgen.
  { induction l as [|s l IH]; intros st Hl Hst; [exact Hst|].
    cbn [fold_left]. apply IH.
    - intros s' Hs'. apply Hl. now right.
    - unfold body. destruct (pts !! s), (pts !! S s); try exact Hst.
      destruct (closer _ _); [|exact Hst]. cbn. apply Hl. now left. }
  specialize (Hgen (seq 0 (length pts - 1)) (None, 0%nat, 0)).
  change (fold_left _ (seq 0 (length pts - 1)) (None, 0%nat, 0))
    with (fold_left body (seq 0 (length pts - 1)) (None, 0%nat, 0)).
  destruct (fold_left body (seq 0 (length pts - 1)) (None, 0%nat, 0)) as [[d i] t].
  cbn in *. apply Hgen; [|lia].
  intros s Hs. apply elem_of_seq in Hs. lia.
Qed.

Lemma splitSegment_length wpWithSeg points segIdx :
  (S segIdx < length points)%nat ->
  length (splitSegment wpWithSeg points segIdx) = (length points + 2)%nat.
Proof.
  intros Hlt. unfold splitSegment.
  destruct (lookup_lt_is_Some_2 points segIdx ltac:(lia)) as [p1 ->].
  destruct (lookup_lt_is_Some_2 points (S segIdx) Hlt) as [p2 ->].
  destruct (bool_decide _); unfold splice2;
    rewrite !length_app, length_take, length_drop; cbn [length]; lia.
Qed.

Lemma sortInsert_perm a l : sortInsert a l ≡ₚ a :: l.
Proof.
  induction l as [|b l IH]; cbn; [reflexivity|].
  destruct (wpBefore a b); [reflexivity|].
  rewrite IH. apply Permutation_swap.
Qed.

Lemma sortWpSeg_perm l : sortWpSeg l ≡ₚ l.
Proof.
  induction l as [|a l IH]; cbn; [reflexivity|].
  now rewrite sortInsert_perm, IH.
Qed.

Lemma fold_splitSegment_length wpWithSeg segs points :
  (2 <= length points)%nat ->
  Forall (fun s => (s <= length points - 2)%nat) segs ->
  length (fold_left (splitSegment wpWithSeg) segs points)
  = (length points + 2 * length segs)%nat.
Proof.
  revert points. induction segs as [|s segs IH]; intros points H2 Hall; cbn; [lia|].
  apply Forall_cons in Hall as [Hs Hall].
  pose proof (splitSegment_length wpWithSeg points s ltac:(lia)) as Hlen.
  rewrite IH; [lia|lia|].
  eapply Forall_impl; [exact Hall|]. cbn. intros; lia.
Qed.

(** Every waypoint adds two points to a path of at least two points. *)
Lemma insertWaypointsIntoPath_length path waypoints :
  (2 <= length path)%nat ->
  length (insertWaypointsIntoPath path waypoints)
  = (length path + 2 * length waypoints)%nat.
Proof.
  intros H2. unfold insertWaypointsIntoPath.
  destruct waypoints as [|wp wps]; [cbn; lia|].
  set (located := map (locateWaypoint path) (wp :: wps)).
  rewrite fold_splitSegment_length; [| assumption |].
  - rewrite length_map. rewrite (Permutation_length (sortWpSeg_perm located)).
    unfold located. now rewrite length_map.
  - apply Forall_fmap. rewrite (sortWpSeg_perm located).
    unfold located. apply Forall_fmap, Forall_forall. intros w _. cbn.
    apply locateWaypoint_bound.
Qed.

Lemma computeOrthogonalPath_length fromPort toPort allBlocks sameGroup verticalOffset :
  (2 <= length (computeOrthogonalPath fromPort toPort allBlocks sameGroup verticalOffset))%nat.
Proof.
  unfold computeOrthogonalPath.
  repeat match goal with
         | |- context [bool_decide ?P] => destruct (bool_decide P)
         end; try (cbn; lia).
  all: destruct allBlocks; cbn; lia.
Qed.

Lemma applyPointOverrides_length path overrides :
  length (applyPointOverrides path overrides) = length path.
Proof.
  unfold applyPointOverrides. destruct (bool_decide _); [reflexivity|apply length_imap].
Qed.

Lemma moved_zeroDelta : moved Viewer.zeroDelta = false.
Proof.
  unfold moved, Viewer.zeroDelta. cbn.
  rewrite Rabs_R0. rewrite bool_decide_eq_false_2 by lra. reflexivity.
Qed.

(** Zero entries appended to the override array move nothing. *)
Lemma applyPointOverrides_padTo path overrides n :
  applyPointOverrides path (Viewer.padTo n overrides) = applyPointOverrides path overrides.
Proof.
  unfold applyPointOverrides, Viewer.padTo.
  destruct (bool_decide (length path < 3)%nat); [reflexivity|].
  apply imap_ext. intros i p _.
  destruct (bool_decide (1 <= i)%nat && bool_decide (i < length path - 1)%nat); [|reflexivity].
  destruct (decide (i - 1 < length overrides)%nat) as [Hlt|Hge].
  - now rewrite lookup_app_l.
  - rewrite lookup_app_r by lia. rewrite (lookup_ge_None_2 overrides) by lia.
    destruct (replicate _ _ !! _) as [z|] eqn:Hz; [|reflexivity].
    apply lookup_replicate in Hz as [-> _]. now rewrite moved_zeroDelta.
Qed.

Lemma applyPointOverrides_nil path : applyPointOverrides path [] = path.
Proof.
  unfold applyPointOverrides.
  destruct (bool_decide (length path < 3)%nat); [reflexivity|].
  rewrite (imap_ext _ (fun _ p => p)).
  - generalize path. intros l. induction l as [|q l IH]; [reflexivity|].
    cbn. f_equal. exact IH.
  - intros i p _. destruct (_ && _); reflexivity.
Qed.

End PathLengthFacts.

Section WaypointRoundTrip.
Import Router Viewer Props.
Local Open Scope R_scope.
Context (connections : list BlockConnection) (lay : list LayoutBlock).

Lemma delete_last_appended {A : Type} (l : list A) (x : A) : delete (length l) (l ++ [x]) = l.
Proof. induction l as [|a l IH]; [reflexivity|]. cbn. f_equal. exact IH. Qed.

Lemma storeList_lookup {A : Type} (k : nat) (l : list A) (m : gmap nat (list A)) :
  default [] (storeList k l m !! k) = l.
Proof.
  unfold storeList. destruct l.
  - now rewrite lookup_delete_eq.
  - now rewrite lookup_insert_eq.
Qed.

Lemma length_padTo n (l : list Delta) : length (padTo n l) = Nat.max (length l) n.
Proof. unfold padTo. rewrite length_app, length_replicate. lia. Qed.

Lemma doubleClick_present ov connIdx click conn fromLb toLb :
  connections !! connIdx = Some conn ->
  layoutMap lay !! from_block conn = Some fromLb ->
  layoutMap lay !! to_block conn = Some toLb ->
  let existing := default [] (connWaypoints ov !! connIdx) in
  let before := default [] (connPointOverrides ov !! connIdx) in
  let base := basePath connections lay connIdx conn fromLb toLb in
  list_find (fun wp => nearWaypoint click wp = true) existing = None ->
  handleConnDoubleClick connections lay ov connIdx click
  = Some (mkOverrides (blockPositionOverrides ov)
            (<[connIdx := insertedOverrides before (insertWaypointsIntoPath base existing) click]>
               (connPointOverrides ov))
            (<[connIdx := existing ++ [click]]> (connWaypoints ov))).
Proof.
  intros Hconn Hfrom Hto existing before base Hfind.
  unfold handleConnDoubleClick. fold existing. rewrite Hfind, Hconn.
  cbn [mbind option_bind]. rewrite Hfrom, Hto. reflexivity.
Qed.

Lemma removeWaypoint_present ov connIdx wpIdx wp conn fromLb toLb :
  connections !! connIdx = Some conn ->
  layoutMap lay !! from_block conn = Some fromLb ->
  layoutMap lay !! to_block conn = Some toLb ->
  let existing := default [] (connWaypoints ov !! connIdx) in
  let overrides := default [] (connPointOverrides ov !! connIdx) in
  let base := basePath connections lay connIdx conn fromLb toLb in
  let removeAt := (nearestSegment wp base + wpIdx * 2)%nat in
  existing !! wpIdx = Some wp ->
  (removeAt + 2 <= length overrides)%nat ->
  removeWaypoint connections lay ov connIdx wpIdx
  = Some (mkOverrides (blockPositionOverrides ov)
            (storeList connIdx (take removeAt overrides ++ drop (removeAt + 2) overrides)
               (connPointOverrides ov))
            (storeList connIdx (delete wpIdx existing) (connWaypoints ov))).
Proof.
  intros Hconn Hfrom Hto existing overrides base removeAt Hwp Hlen.
  unfold removeWaypoint. fold existing overrides. rewrite Hconn.
  cbn [mbind option_bind]. rewrite Hfrom, Hto, Hwp. cbn [mbind option_bind].
  fold base removeAt.
  rewrite bool_decide_eq_true_2 by lia.
  replace (Nat.min 2 (length overrides - removeAt)) with 2%nat by lia.
  reflexivity.
Qed.

Lemma computedPath_present ov connIdx conn fromLb toLb :
  connections !! connIdx = Some conn ->
  layoutMap lay !! from_block conn = Some fromLb ->
  layoutMap lay !! to_block conn = Some toLb ->
  computedPath connections lay ov connIdx
  = Some (applyPointOverrides
            (insertWaypointsIntoPath (basePath connections lay connIdx conn fromLb toLb)
                                     (default [] (connWaypoints ov !! connIdx)))
            (default [] (connPointOverrides ov !! connIdx))).
Proof.
  intros Hconn Hfrom Hto. unfold computedPath. rewrite Hconn. cbn [mbind option_bind].
  rewrite Hfrom. cbn [mbind option_bind]. rewrite Hto. cbn [mbind option_bind].
  destruct (connPointOverrides ov !! connIdx) as [[|o os]|]; cbn [from_option Datatypes.id];
    now rewrite ?applyPointOverrides_nil.
Qed.

Lemma computedPath_absent ov connIdx conn :
  connections !! connIdx = Some conn ->
  layoutMap lay !! from_block conn = None \/ layoutMap lay !! to_block conn = None ->
  computedPath connections lay ov connIdx = None.
Proof.
  intros Hconn Habs. unfold computedPath. rewrite Hconn. cbn [mbind option_bind].
  destruct (layoutMap lay !! from_block conn); [|reflexivity]. cbn [mbind option_bind].
  destruct Habs as [?| ->]; [discriminate|reflexivity].
Qed.

Lemma insert_then_remove_present ov connIdx click conn fromLb toLb :
  connections !! connIdx = Some conn ->
  layoutMap lay !! from_block conn = Some fromLb ->
  layoutMap lay !! to_block conn = Some toLb ->
  let existing := default [] (connWaypoints ov !! connIdx) in
  let before := default [] (connPointOverrides ov !! connIdx) in
  let base := basePath connections lay connIdx conn fromLb toLb in
  let expanded := insertWaypointsIntoPath base existing in
  list_find (fun wp => nearWaypoint click wp = true) existing = None ->
  exists ov1 ov2,
    handleConnDoubleClick connections lay ov connIdx click = Some ov1
    /\ default [] (connWaypoints ov1 !! connIdx) = existing ++ [click]
    /\ removeWaypoint connections lay ov1 connIdx (length existing) = Some ov2
    /\ default [] (connWaypoints ov2 !! connIdx) = existing
    /\ blockPositionOverrides ov2 = blockPositionOverrides ov
    /\ length (default [] (connPointOverrides ov2 !! connIdx))
       = Nat.max (length before) (length expanded - 2)
    /\ (existing = [] ->
        default [] (connPointOverrides ov2 !! connIdx) = padTo (length base - 2) before).
Proof.
  intros Hconn Hfrom Hto existing before base expanded Hfind.
  eexists. eexists.
  split; [now apply (doubleClick_present ov connIdx click conn fromLb toLb)|].
  cbn [connWaypoints connPointOverrides blockPositionOverrides].
  rewrite lookup_insert_eq. cbn [from_option Datatypes.id].
  split; [reflexivity|].
  fold existing before base expanded.
  set (o1 := insertedOverrides before expanded click).
  assert (length o1 = (Nat.max (length before) (length expanded - 2) + 2)%nat) as Hlen1.
  { unfold o1, insertedOverrides. rewrite !length_app, length_take, length_drop, length_padTo.
    cbn [length]. lia. }
  assert (length expanded = (length base + 2 * length existing)%nat) as Hexp.
  { apply insertWaypointsIntoPath_length. apply computeOrthogonalPath_length. }
  pose proof (computeOrthogonalPath_length
                (Ports.getPortPosition fromLb (signal_name conn) Ports.output)
                (Ports.getPortPosition toLb (signal_name conn) Ports.input) lay
                (areBlocksInSameGroup (from_block conn) (to_block conn) (layoutMap lay))
                (default 0 (Ordered.get connIdx (connectionOffsets connections)))) as Hbase.
  fold (basePath connections lay connIdx conn fromLb toLb) in Hbase. fold base in Hbase.
  pose proof (nearestSegment_bound click base) as Hseg.
  set (ov1 := mkOverrides _ _ _).
  pose proof (removeWaypoint_present ov1 connIdx (length existing) click conn fromLb toLb
                Hconn Hfrom Hto) as Hrem.
  unfold ov1 in Hrem.
  cbn [connWaypoints connPointOverrides blockPositionOverrides] in Hrem.
  rewrite !lookup_insert_eq in Hrem. cbn [from_option Datatypes.id] in Hrem.
  fold base o1 in Hrem.
  specialize (Hrem (list_lookup_middle existing [] click _ eq_refl) ltac:(lia)).
  split; [exact Hrem|].
  cbn [connWaypoints connPointOverrides blockPositionOverrides].
  rewrite !storeList_lookup, delete_last_appended.
  split; [reflexivity|]. split; [reflexivity|]. split.
  - rewrite length_app, length_take, length_drop. fold o1. lia.
  - intros Hnil. revert Hexp Hlen1. unfold o1, insertedOverrides, expanded.
    rewrite Hnil. cbn [insertWaypointsIntoPath length]. intros _ Hlen1.
    change (0 * 2)%nat with 0%nat. rewrite !Nat.add_0_r.
    set (padded := padTo (length base - 2) before) in *.
    set (b := nearestSegment click base) in *.
    assert (b <= length padded)%nat as Hb.
    { unfold padded. rewrite length_padTo. lia. }
    rewrite take_app_le by (rewrite length_take; lia).
    rewrite take_take, Nat.min_id.
    rewrite drop_app_ge by (rewrite length_take; lia).
    rewrite length_take. replace (b + 2 - b `min` length padded)%nat with 2%nat by lia.
    cbn [drop app]. rewrite drop_0. apply take_drop.
Qed.

Lemma insert_then_remove_absent ov connIdx click conn :
  connections !! connIdx = Some conn ->
  layoutMap lay !! from_block conn = None \/ layoutMap lay !! to_block conn = None ->
  let existing := default [] (connWaypoints ov !! connIdx) in
  let before := default [] (connPointOverrides ov !! connIdx) in
  list_find (fun wp => nearWaypoint click wp = true) existing = None ->
  exists ov1 ov2,
    handleConnDoubleClick connections lay ov connIdx click = Some ov1
    /\ default [] (connWaypoints ov1 !! connIdx) = existing ++ [click]
    /\ removeWaypoint connections lay ov1 connIdx (length existing) = Some ov2
    /\ default [] (connWaypoints ov2 !! connIdx) = existing
    /\ default [] (connPointOverrides ov2 !! connIdx) = before.
Proof.
  intros Hconn Habs existing before Hfind.
  destruct (layoutMap lay !! from_block conn) as [fromLb|] eqn:Hf;
    [destruct (layoutMap lay !! to_block conn) as [toLb|] eqn:Ht;
     [exfalso; destruct Habs; discriminate|]|].
  all: eexists; eexists.
  all: split;
    [unfold handleConnDoubleClick; fold existing; rewrite Hfind, Hconn;
     cbn [mbind option_bind]; rewrite ?Hf, ?Ht; reflexivity|].
  all: cbn [connWaypoints connPointOverrides blockPositionOverrides];
    rewrite lookup_insert_eq; cbn [from_option Datatypes.id].
  all: split; [reflexivity|].
  all: split;
    [unfold removeWaypoint; rewrite Hconn; cbn [mbind option_bind];
     cbn [connWaypoints connPointOverrides blockPositionOverrides];
     rewrite !lookup_insert_eq; cbn [from_option Datatypes.id];
     rewrite ?Hf, ?Ht; cbn [mbind option_bind]; reflexivity|].
  all: cbn [connWaypoints connPointOverrides blockPositionOverrides];
    rewrite !storeList_lookup, delete_last_appended; split; reflexivity.
Qed.

(** C2 (amended). For every connection and every click that inserts (no
    waypoint of the connection lies within 15 units of it), the double click
    appends the waypoint, and removing that waypoint again restores the
    connection's waypoint list; afterwards the point-override array of a
    rendered connection has as many entries as the larger of its length
    before the insertion and the number of interior points of the path
    rendered before the insertion; and when the connection had no waypoint
    before, the rendered path is the one rendered before the insertion. *)
Theorem waypoint_insert_then_remove connIdx ov click conn :
  connections !! connIdx = Some conn ->
  let existing := default [] (connWaypoints ov !! connIdx) in
  let before := default [] (connPointOverrides ov !! connIdx) in
  list_find (fun wp => nearWaypoint click wp = true) existing = None ->
  exists ov1 ov2,
    handleConnDoubleClick connections lay ov connIdx click = Some ov1
    /\ default [] (connWaypoints ov1 !! connIdx) = existing ++ [click]
    /\ removeWaypoint connections lay ov1 connIdx (length existing) = Some ov2
    /\ default [] (connWaypoints ov2 !! connIdx) = existing
    /\ (forall path,
          computedPath connections lay ov connIdx = Some path ->
          length (default [] (connPointOverrides ov2 !! connIdx))
          = Nat.max (length before) (length path - 2))
    /\ (existing = [] ->
        computedPath connections lay ov2 connIdx = computedPath connections lay ov connIdx).
Proof.
  intros Hconn existing before Hfind.
  destruct (layoutMap lay !! from_block conn) as [fromLb|] eqn:Hfrom;
    [destruct (layoutMap lay !! to_block conn) as [toLb|] eqn:Hto|].
  - destruct (insert_then_remove_present ov connIdx click conn fromLb toLb
                Hconn Hfrom Hto Hfind)
      as (ov1 & ov2 & H1 & Hw1 & H2 & Hw2 & _ & Hlen & Hpad).
    exists ov1, ov2. repeat split; try assumption.
    + intros path Hpath.
      rewrite (computedPath_present ov connIdx conn fromLb toLb Hconn Hfrom Hto) in Hpath.
      injection Hpath as <-. now rewrite applyPointOverrides_length.
    + intros Hnil.
      rewrite (computedPath_present ov2 connIdx conn fromLb toLb Hconn Hfrom Hto).
      rewrite (computedPath_present ov connIdx conn fromLb toLb Hconn Hfrom Hto).
      rewrite Hw2, (Hpad Hnil). fold existing.
      now rewrite applyPointOverrides_padTo.
  - destruct (insert_then_remove_absent ov connIdx click conn Hconn (or_intror Hto) Hfind)
      as (ov1 & ov2 & H1 & Hw1 & H2 & Hw2 & Hov).
    exists ov1, ov2. repeat split; try assumption.
    + intros path Hpath.
      rewrite (computedPath_absent ov connIdx conn Hconn (or_intror Hto)) in Hpath.
      discriminate.
    + intros _. now rewrite !(computedPath_absent _ connIdx conn Hconn (or_intror Hto)).
  - destruct (insert_then_remove_absent ov connIdx click conn Hconn (or_introl Hfrom) Hfind)
      as (ov1 & ov2 & H1 & Hw1 & H2 & Hw2 & Hov).
    exists ov1, ov2. repeat split; try assumption.
    + intros path Hpath.
      rewrite (computedPath_absent ov connIdx conn Hconn (or_introl Hfrom)) in Hpath.
      discriminate.
    + intros _. now rewrite !(computedPath_absent _ connIdx conn Hconn (or_introl Hfrom)).
Qed.

End WaypointRoundTrip.

Section PairExample.
Import Router Viewer Props Samples.
Local Open Scope R_scope.

Lemma pair_connection : pairConnections !! 0%nat = Some (mkConn "A" "B" "VCC").
Proof. reflexivity. Qed.

Lemma pair_supply : layoutMap pairLayout !! "A" = Some supplyBox.
Proof. reflexivity. Qed.

Lemma pair_load : layoutMap pairLayout !! "B" = Some loadBox.
Proof. reflexivity. Qed.

(** The base path of the sample connection is the four-point forward
    path. *)
Lemma pair_basePath_length :
  length (basePath pairConnections pairLayout 0 (mkConn "A" "B" "VCC") supplyBox loadBox)
  = 4%nat.
Proof.
  unfold basePath.
  change (Ports.getPortPosition supplyBox (signal_name (mkConn "A" "B" "VCC")) Ports.output)
    with (mkPoint (0 + 180) (0 + BLOCK_HEADER + 10 + 0 * PORT_ROW)).
  change (Ports.getPortPosition loadBox (signal_name (mkConn "A" "B" "VCC")) Ports.input)
    with (mkPoint 400 (100 + BLOCK_HEADER + 10 + 0 * PORT_ROW)).
  change (areBlocksInSameGroup (from_block (mkConn "A" "B" "VCC"))
            (to_block (mkConn "A" "B" "VCC")) (layoutMap pairLayout)) with false.
  change (default 0 (Ordered.get 0%nat (connectionOffsets pairConnections)))
    with (0 * CONNECTION_SPREAD).
  rewrite computeOrthogonalPath_forward; cbn [px py]; unfold BLOCK_HEADER, PORT_ROW,
    CONNECTION_SPREAD, BLOCK_WIDTH.
  - rewrite bool_decide_eq_false_2; [reflexivity|].
    rewrite Rabs_left by lra. lra.
  - rewrite Rabs_right by lra. lra.
  - lra.
Qed.

(** On the sample connection, which has no overrides and no waypoints, a
    waypoint inserted on the first segment and removed again leaves a
    point-override array of 2 entries, not 0. *)
Lemma waypoint_roundtrip_length_grows :
  exists ov1 ov2,
    handleConnDoubleClick pairConnections pairLayout noOverrides 0 pairClick = Some ov1
    /\ removeWaypoint pairConnections pairLayout ov1 0 0 = Some ov2
    /\ length (default [] (connPointOverrides noOverrides !! 0%nat)) = 0%nat
    /\ length (default [] (connPointOverrides ov2 !! 0%nat)) = 2%nat.
Proof.
  destruct (insert_then_remove_present pairConnections pairLayout noOverrides 0 pairClick
              (mkConn "A" "B" "VCC") supplyBox loadBox
              pair_connection pair_supply pair_load eq_refl)
    as (ov1 & ov2 & H1 & _ & H2 & _ & _ & Hlen & _).
  exists ov1, ov2. split; [exact H1|]. split; [exact H2|]. split; [reflexivity|].
  rewrite Hlen.
  change (default [] (connWaypoints noOverrides !! 0%nat)) with (@nil Point).
  change (default [] (connPointOverrides noOverrides !! 0%nat)) with (@nil Delta).
  cbn [insertWaypointsIntoPath length]. now rewrite pair_basePath_length.
Qed.

(** On the sample connection the inserted and removed waypoint leaves the
    rendered path as it was. *)
Lemma waypoint_insert_then_remove_witness :
  exists ov1 ov2,
    handleConnDoubleClick pairConnections pairLayout noOverrides 0 pairClick = Some ov1
    /\ removeWaypoint pairConnections pairLayout ov1 0 0 = Some ov2
    /\ default [] (connWaypoints ov2 !! 0%nat) = []
    /\ computedPath pairConnections pairLayout ov2 0
       = computedPath pairConnections pairLayout noOverrides 0.
Proof.
  destruct (waypoint_insert_then_remove pairConnections pairLayout 0 noOverrides pairClick
              (mkConn "A" "B" "VCC") eq_refl eq_refl)
    as (ov1 & ov2 & H1 & _ & H2 & Hw & _ & Hpath).
  exists ov1, ov2. split; [exact H1|]. split; [exact H2|]. split; [exact Hw|].
  apply Hpath. reflexivity.
Defined.

End PairExample.

Section LevelExample.
Import Router Viewer Props Samples.
Local Open Scope R_scope.

Lemma hypot_nonneg a b : 0 <= hypot a b.
Proof. unfold hypot. apply sqrt_pos. Qed.

Lemma pointToSegmentDist_nonneg p a b : 0 <= pointToSegmentDist p a b.
Proof. unfold pointToSegmentDist. destruct (decide _); apply hypot_nonneg. Qed.

(** A point at distance 0 from the first segment has it as nearest
    segment. *)
Lemma nearestSegment_first_zero p a b rest :
  pointToSegmentDist p a b = 0 -> nearestSegment p (a :: b :: rest) = 0%nat.
Proof.
  intros Hzero. unfold nearestSegment.
  replace (length (a :: b :: rest) - 1)%nat with (S (length rest)) by (cbn; lia).
  cbn [seq fold_left]. change ((a :: b :: rest) !! 0%nat) with (Some a).
  change ((a :: b :: rest) !! 1%nat) with (Some b).
  cbv beta iota. rewrite Hzero. cbn [closer snd].
  generalize (seq 1 (length rest)). intros l.
  induction l as [|s l IH]; [reflexivity|].
  cbn [fold_left]. destruct (_ !! s) as [a'|]; [|exact IH].
  destruct (_ !! S s) as [b'|]; [|exact IH].
  cbn [closer snd]. rewrite bool_decide_eq_false_2; [exact IH|].
  pose proof (pointToSegmentDist_nonneg p a' b'). lra.
Qed.

Lemma level_basePath :
  basePath pairConnections levelLayout 0 (mkConn "A" "B" "VCC") supplyBox levelLoadBox
  = [mkPoint 180 46; mkPoint 400 46].
Proof.
  unfold basePath.
  change (Ports.getPortPosition supplyBox (signal_name (mkConn "A" "B" "VCC")) Ports.output)
    with (mkPoint (0 + 180) (0 + BLOCK_HEADER + 10 + 0 * PORT_ROW)).
  change (Ports.getPortPosition levelLoadBox (signal_name (mkConn "A" "B" "VCC")) Ports.input)
    with (mkPoint 400 (0 + BLOCK_HEADER + 10 + 0 * PORT_ROW)).
  change (areBlocksInSameGroup (from_block (mkConn "A" "B" "VCC"))
            (to_block (mkConn "A" "B" "VCC")) (layoutMap levelLayout)) with false.
  change (default 0 (Ordered.get 0%nat (connectionOffsets pairConnections)))
    with (0 * CONNECTION_SPREAD).
  rewrite computeOrthogonalPath_forward; cbn [px py]; unfold BLOCK_HEADER, PORT_ROW,
    CONNECTION_SPREAD, BLOCK_WIDTH.
  - rewrite bool_decide_eq_true_2.
    + repeat f_equal; lra.
    + rewrite Rminus_diag, Rabs_R0. lra.
  - rewrite Rabs_right by lra. lra.
  - lra.
Qed.

Lemma level_expanded :
  insertWaypointsIntoPath [mkPoint 180 46; mkPoint 400 46] [levelWaypoint]
  = [mkPoint 180 46; mkPoint 300 46; mkPoint 300 46; mkPoint 400 46].
Proof.
  rewrite insertWaypointsIntoPath_single.
  set (w := locateWaypoint [mkPoint 180 46; mkPoint 400 46] levelWaypoint).
  assert (ws_segIdx w = 0%nat) as Hseg by reflexivity.
  assert (ws_wp w = levelWaypoint) as Hwp by reflexivity.
  rewrite Hseg. unfold splitSegment, splice2.
  change ([mkPoint 180 46; mkPoint 400 46] !! 0%nat) with (Some (mkPoint 180 46)).
  change ([mkPoint 180 46; mkPoint 400 46] !! 1%nat) with (Some (mkPoint 400 46)).
  cbn [px py find]. rewrite Hseg.
  rewrite bool_decide_eq_true_2 by (rewrite Rminus_diag, Rabs_R0; lra).
  rewrite bool_decide_eq_true_2 by reflexivity.
  cbn [from_option]. rewrite Hwp. cbn [levelWaypoint px].
  assert (Rmax (Rmin 180 400 + 5) (Rmin (Rmax 180 400 - 5) 300) = 300) as ->; [|reflexivity].
  unfold Rmax, Rmin. repeat destruct (Rle_dec _ _); lra.
Qed.

Lemma level_click_on_first_segment :
  pointToSegmentDist levelClick (mkPoint 180 46) (mkPoint 300 46) = 0.
Proof.
  unfold pointToSegmentDist, levelClick. cbn [px py].
  rewrite decide_False by lra.
  replace (((240 - 180) * (300 - 180) + (46 - 46) * (46 - 46))
           / ((300 - 180) * (300 - 180) + (46 - 46) * (46 - 46))) with (1 / 2) by lra.
  replace (Rmax 0 (Rmin 1 (1 / 2))) with (1 / 2)
    by (unfold Rmax, Rmin; repeat destruct (Rle_dec _ _); lra).
  replace (240 - (180 + 1 / 2 * (300 - 180))) with 0 by lra.
  replace (46 - (46 + 1 / 2 * (46 - 46))) with 0 by lra.
  rewrite hypot_0_r. apply Rabs_R0.
Qed.

Lemma level_not_near : nearWaypoint levelClick levelWaypoint = false.
Proof.
  unfold nearWaypoint, levelClick, levelWaypoint. cbn [px py].
  rewrite Rminus_diag, hypot_0_r, Rabs_right by lra.
  apply bool_decide_eq_false_2. lra.
Qed.

Lemma level_connection : pairConnections !! 0%nat = Some (mkConn "A" "B" "VCC").
Proof. reflexivity. Qed.

Lemma level_supply : layoutMap levelLayout !! "A" = Some supplyBox.
Proof. reflexivity. Qed.

Lemma level_load : layoutMap levelLayout !! "B" = Some levelLoadBox.
Proof. reflexivity. Qed.

Lemma level_inserted :
  insertedOverrides [mkDelta 0 10; mkDelta 0 10]
    [mkPoint 180 46; mkPoint 300 46; mkPoint 300 46; mkPoint 400 46] levelClick
  = [zeroDelta; zeroDelta; mkDelta 0 10; mkDelta 0 10].
Proof.
  unfold insertedOverrides.
  rewrite (nearestSegment_first_zero _ _ _ _ level_click_on_first_segment).
  reflexivity.
Qed.

Lemma moved_down : moved (mkDelta 0 10) = true.
Proof.
  unfold moved. cbn [dx dy]. rewrite (bool_decide_eq_true_2 (Rabs 10 > 0.1)).
  - apply orb_true_r.
  - rewrite Rabs_right by lra. lra.
Qed.

(** With the dragged jog the sample path dips to y = 56 at the waypoint. *)
Lemma level_rendered :
  applyPointOverrides [mkPoint 180 46; mkPoint 300 46; mkPoint 300 46; mkPoint 400 46]
                      [mkDelta 0 10; mkDelta 0 10]
  = [mkPoint 180 46; mkPoint (300 + 0) (46 + 10); mkPoint (300 + 0) (46 + 10);
     mkPoint 400 46].
Proof.
  unfold applyPointOverrides. cbn -[moved]. now rewrite moved_down.
Qed.

(** On the level sample, whose connection already carries a waypoint, a
    second waypoint inserted on the first segment and removed again leaves
    the path straight: the dragged jog of the first waypoint is lost. *)
Lemma waypoint_roundtrip_geometry_lost :
  exists ov1 ov2,
    handleConnDoubleClick pairConnections levelLayout levelOverrides 0 levelClick = Some ov1
    /\ removeWaypoint pairConnections levelLayout ov1 0 1 = Some ov2
    /\ computedPath pairConnections levelLayout levelOverrides 0
       = Some [mkPoint 180 46; mkPoint (300 + 0) (46 + 10); mkPoint (300 + 0) (46 + 10);
               mkPoint 400 46]
    /\ computedPath pairConnections levelLayout ov2 0
       = Some [mkPoint 180 46; mkPoint 300 46; mkPoint 300 46; mkPoint 400 46].
Proof.
  assert (list_find (fun wp => nearWaypoint levelClick wp = true) [levelWaypoint] = None)
    as Hfind.
  { cbn [list_find]. rewrite decide_False by (rewrite level_not_near; discriminate).
    reflexivity. }
  pose proof (doubleClick_present pairConnections levelLayout levelOverrides 0 levelClick
                (mkConn "A" "B" "VCC") supplyBox levelLoadBox
                level_connection level_supply level_load Hfind) as H1.
  rewrite level_basePath in H1.
  change (default [] (connWaypoints levelOverrides !! 0%nat)) with [levelWaypoint] in H1.
  change (default [] (connPointOverrides levelOverrides !! 0%nat))
    with [mkDelta 0 10; mkDelta 0 10] in H1.
  rewrite level_expanded, level_inserted in H1.
  eexists. eexists. split; [exact H1|].
  assert (nearestSegment levelClick [mkPoint 180 46; mkPoint 400 46] = 0%nat) as Hbase.
  { pose proof (nearestSegment_bound levelClick [mkPoint 180 46; mkPoint 400 46]) as Hb.
    cbn [length] in Hb. lia. }
  match goal with |- removeWaypoint _ _ ?o _ _ = _ /\ _ => set (ov1 := o) end.
  pose proof (removeWaypoint_present pairConnections levelLayout ov1 0 1 levelClick
                (mkConn "A" "B" "VCC") supplyBox levelLoadBox
                level_connection level_supply level_load) as H2.
  cbv zeta in H2. rewrite level_basePath, Hbase in H2.
  unfold ov1 in H2. cbn [connWaypoints connPointOverrides blockPositionOverrides] in H2.
  rewrite !lookup_insert_eq in H2. cbn [from_option Datatypes.id] in H2.
  specialize (H2 eq_refl ltac:(cbn; lia)).
  cbn [take drop app delete list_delete Nat.add Nat.mul] in H2.
  split; [exact H2|]. split.
  - rewrite (computedPath_present _ _ _ _ _ supplyBox levelLoadBox
               level_connection level_supply level_load).
    rewrite level_basePath.
    change (default [] (connWaypoints levelOverrides !! 0%nat)) with [levelWaypoint].
    change (default [] (connPointOverrides levelOverrides !! 0%nat))
      with [mkDelta 0 10; mkDelta 0 10].
    now rewrite level_expanded, level_rendered.
  - rewrite (computedPath_present _ _ _ _ _ supplyBox levelLoadBox
               level_connection level_supply level_load).
    rewrite level_basePath.
    cbn [connWaypoints connPointOverrides].
    rewrite !storeList_lookup, level_expanded.
    change [zeroDelta; zeroDelta] with (padTo 2 []).
    now rewrite applyPointOverrides_padTo, applyPointOverrides_nil.
Qed.

(** C2 as stated fails twice. On the sample connection the point-override
    array does not return to its length before the insertion (2 entries
    instead of 0). On the level sample, whose connection already carries a
    waypoint, the rendered path does not return to its geometry before the
    insertion. *)
Lemma waypoint_roundtrip_counterexample :
  (exists ov1 ov2,
     handleConnDoubleClick pairConnections pairLayout noOverrides 0 pairClick = Some ov1
     /\ removeWaypoint pairConnections pairLayout ov1 0 0 = Some ov2
     /\ length (default [] (connPointOverrides ov2 !! 0%nat))
        <> length (default [] (connPointOverrides noOverrides !! 0%nat)))
  /\ (exists ov1 ov2,
        handleConnDoubleClick pairConnections levelLayout levelOverrides 0 levelClick
        = Some ov1
        /\ removeWaypoint pairConnections levelLayout ov1 0 1 = Some ov2
        /\ computedPath pairConnections levelLayout ov2 0
           <> computedPath pairConnections levelLayout levelOverrides 0).
Proof.
  split.
  - destruct waypoint_roundtrip_length_grows as (ov1 & ov2 & H1 & H2 & Hb & Ha).
    exists ov1, ov2. split; [exact H1|]. split; [exact H2|]. rewrite Hb, Ha. discriminate.
  - destruct waypoint_roundtrip_geometry_lost as (ov1 & ov2 & H1 & H2 & Hb & Ha).
    exists ov1, ov2. split; [exact H1|]. split; [exact H2|]. rewrite Hb, Ha.
    intros [= Heq]. lra.
Qed.

End LevelExample.

(** ** Connection spreading *)

Section SpreadGeneral.
Import Ordered Router Props.
Local Open Scope R_scope.

Lemma get_push {K V : Type} `{EqDecision K} (k k' : K) (v : V) (m : list (K * list V)) :
  get k (push k' v m)
  = if decide (k' = k) then Some (default [] (get k m) ++ [v]) else get k m.
Proof.
  unfold push. rewrite get_set. destruct (decide (k' = k)) as [->|]; reflexivity.
Qed.

Lemma set_keys_elem {K V : Type} `{EqDecision K} (k x : K) (v : V) (m : list (K * V)) :
  x ∈ map fst (set k v m) -> x = k \/ x ∈ map fst m.
Proof.
  induction m as [|[k0 v0] m IH]; cbn; intros Hx.
  - apply list_elem_of_singleton in Hx. now left.
  - destruct (decide (k0 = k)) as [->|]; cbn in Hx.
    + right. exact Hx.
    + apply elem_of_cons in Hx as [->|Hx]; [right; left|].
      destruct (IH Hx); [now left|right; now right].
Qed.

Lemma set_keys {K V : Type} `{EqDecision K} (k : K) (v : V) (m : list (K * V)) :
  NoDup (map fst m) -> NoDup (map fst (set k v m)).
Proof.
  induction m as [|[k0 v0] m IH]; cbn; intros Hnd.
  - apply NoDup_singleton.
  - apply NoDup_cons in Hnd as [Hk0 Hnd].
    destruct (decide (k0 = k)) as [->|Hne]; cbn.
    + now apply NoDup_cons.
    + apply NoDup_cons. split; [|now apply IH].
      intros Hin. apply set_keys_elem in Hin as [?|?]; contradiction.
Qed.

Lemma get_elem_of {K V : Type} `{EqDecision K} (k : K) (v : V) (m : list (K * V)) :
  get k m = Some v -> (k, v) ∈ m.
Proof.
  induction m as [|[k0 v0] m IH]; cbn; [discriminate|].
  destruct (decide (k0 = k)) as [->|]; [intros [= ->]; left|right; auto].
Qed.

Lemma elem_of_get {K V : Type} `{EqDecision K} (k : K) (v : V) (m : list (K * V)) :
  NoDup (map fst m) -> (k, v) ∈ m -> get k m = Some v.
Proof.
  induction m as [|[k0 v0] m IH]; cbn; intros Hnd Hin; [now apply elem_of_nil in Hin|].
  apply NoDup_cons in Hnd as [Hk0 Hnd].
  apply elem_of_cons in Hin as [[= -> ->]|Hin].
  - now rewrite decide_True.
  - rewrite decide_False; [now apply IH|].
    intros ->. apply Hk0. apply list_elem_of_fmap. now exists (k, v).
Qed.

(** *** The groups [pairGroups] builds *)

Lemma groupFold_keys ics m : NoDup (map fst m) -> NoDup (map fst (groupFold ics m)).
Proof.
  revert m. induction ics as [|ic ics IH]; intros m Hm; [exact Hm|].
  cbn. apply IH. unfold push. now apply set_keys.
Qed.

Lemma groupFold_get ics m key :
  get key (groupFold ics m)
  = match get key m, keyed key ics with
    | None, [] => None
    | o, extra => Some (default [] o ++ extra)
    end.
Proof.
  revert m. induction ics as [|[i c] ics IH]; intros m.
  - cbn. destruct (get key m); cbn; [now rewrite app_nil_r|reflexivity].
  - cbn [groupFold fold_left] in *. rewrite IH, get_push. unfold keyed. cbn [List.filter snd fst].
    destruct (decide (pairKey c = key)) as [Heq|Hne].
    + rewrite (proj2 (String.eqb_eq _ _) Heq). cbn [map fst].
      destruct (get key m); cbn [from_option Datatypes.id];
        now rewrite <- app_assoc.
    + rewrite (proj2 (String.eqb_neq _ _) Hne). reflexivity.
Qed.

Lemma pairGroups_get connections key :
  get key (pairGroups connections)
  = match keyMates connections key with [] => None | g => Some g end.
Proof.
  unfold pairGroups. fold (groupFold (imap (fun i c => (i, c)) connections) []).
  rewrite groupFold_get. cbn [get]. reflexivity.
Qed.

Lemma pairGroups_keys connections : NoDup (map fst (pairGroups connections)).
Proof. apply groupFold_keys. constructor. Qed.

(** *** The offsets [spreadGroup] stores *)

Lemma spreadGroup_fold (F : nat -> R) (pis : list (nat * nat)) (m : list (nat * R)) i :
  get i (fold_left (fun m pi => set (snd pi) (F (fst pi)) m) pis m)
  = match last (List.filter (fun pi => Nat.eqb (snd pi) i) pis) with
    | Some pi => Some (F (fst pi))
    | None => get i m
    end.
Proof.
  revert m. induction pis as [|[p j] pis IH] using rev_ind; intros m; [reflexivity|].
  rewrite fold_left_app, List.filter_app. cbn [fold_left List.filter snd fst].
  rewrite get_set. destruct (decide (j = i)) as [->|Hne].
  - rewrite Nat.eqb_refl. now rewrite last_snoc.
  - rewrite (proj2 (Nat.eqb_neq _ _) Hne), app_nil_r. apply IH.
Qed.

Lemma spreadGroup_unfold m g :
  spreadGroup m g
  = fold_left (fun m pi => set (snd pi) (spreadAt (fst pi) (length g)) m)
              (imap (fun a b => (a, b)) g) m.
Proof. reflexivity. Qed.

Lemma spreadGroup_get_other g m i :
  i ∉ g -> get i (spreadGroup m g) = get i m.
Proof.
  intros Hi. rewrite spreadGroup_unfold, (spreadGroup_fold (fun p => spreadAt p (length g))).
  destruct (last _) as [[p j]|] eqn:Hlast; [|reflexivity].
  exfalso. apply last_Some in Hlast as [l Hl].
  assert ((p, j) ∈ List.filter (fun pi => snd pi =? i)%nat (imap (fun a b => (a, b)) g)) as Hin.
  { rewrite Hl. apply elem_of_app. right. left. }
  apply list_elem_of_In, List.filter_In in Hin as [Hin Heq].
  apply Nat.eqb_eq in Heq. cbn in Heq. subst j.
  apply list_elem_of_In, elem_of_lookup_imap in Hin as (pos & x & [= -> ->] & Hx).
  apply Hi. eapply list_elem_of_lookup_2. eassumption.
Qed.

Lemma spreadGroup_get_member g m i pos :
  NoDup g -> g !! pos = Some i ->
  get i (spreadGroup m g) = Some (spreadAt pos (length g)).
Proof.
  intros Hnd Hpos.
  rewrite spreadGroup_unfold, (spreadGroup_fold (fun p => spreadAt p (length g))).
  destruct (last _) as [[p j]|] eqn:Hlast.
  - apply last_Some in Hlast as [l Hl].
    assert ((p, j) ∈ List.filter (fun pi => snd pi =? i)%nat (imap (fun a b => (a, b)) g))
      as Hin.
    { rewrite Hl. apply elem_of_app. right. left. }
    apply list_elem_of_In, List.filter_In in Hin as [Hin Heq].
    apply Nat.eqb_eq in Heq. cbn in Heq. subst j.
    apply list_elem_of_In, elem_of_lookup_imap in Hin as (pos' & x & [= -> ->] & Hx).
    assert (pos' = pos) as -> by (eapply NoDup_lookup; eassumption).
    reflexivity.
  - exfalso. apply last_None in Hlast.
    assert ((pos, i) ∈ List.filter (fun pi => snd pi =? i)%nat (imap (fun a b => (a, b)) g))
      as Hin.
    { apply list_elem_of_In, List.filter_In. split; [|apply Nat.eqb_refl].
      apply list_elem_of_In, elem_of_lookup_imap. eauto. }
    rewrite Hlast in Hin. now apply elem_of_nil in Hin.
Qed.

Lemma spreadGroups_keep groups m i v g :
  (forall g', g' ∈ groups -> i ∈ g' -> g' = g) ->
  (forall pos, g !! pos = Some i -> v = spreadAt pos (length g)) ->
  NoDup g ->
  get i m = Some v ->
  get i (fold_left spreadGroup groups m) = Some v.
Proof.
  intros Honly Hv Hnd. revert m.
  induction groups as [|h groups IH]; intros m Hm; [exact Hm|].
  cbn. apply IH.
  - intros g' Hg'. apply Honly. now right.
  - destruct (decide (i ∈ h)) as [Hin|Hnin].
    + assert (h = g) as -> by (apply Honly; [left|assumption]).
      apply list_elem_of_lookup in Hin as [pos Hpos].
      rewrite (spreadGroup_get_member g m i pos Hnd Hpos). f_equal. symmetry. now apply Hv.
    + now rewrite spreadGroup_get_other.
Qed.

Lemma spreadGroups_get groups m i g pos :
  g ∈ groups ->
  (forall g', g' ∈ groups -> i ∈ g' -> g' = g) ->
  NoDup g -> g !! pos = Some i ->
  get i (fold_left spreadGroup groups m) = Some (spreadAt pos (length g)).
Proof.
  intros Hg Honly Hnd Hpos. revert m.
  induction groups as [|h groups IH]; intros m; [now apply elem_of_nil in Hg|].
  cbn. apply elem_of_cons in Hg as [<-|Hg].
  - apply (spreadGroups_keep groups _ i _ g).
    + intros g' Hg'. apply Honly. now right.
    + intros pos' Hpos'. f_equal. eapply NoDup_lookup; eassumption.
    + assumption.
    + now apply spreadGroup_get_member.
  - apply IH; [assumption|]. intros g' Hg'. apply Honly. now right.
Qed.

(** *** The offset of every connection *)

Lemma indexed_fst {A : Type} (l : list A) o :
  map fst (imap (fun j a => ((o + j)%nat, a)) l) = seq o (length l).
Proof.
  revert o. induction l as [|a l IH]; intros o; [reflexivity|].
  cbn. rewrite Nat.add_0_r. f_equal.
  rewrite <- IH. f_equal. apply imap_ext. intros j x _. cbn. f_equal. lia.
Qed.

Lemma filter_fst_NoDup {A : Type} (f : nat * A -> bool) (l : list (nat * A)) :
  NoDup (map fst l) -> NoDup (map fst (List.filter f l)).
Proof.
  induction l as [|[j a] l IH]; cbn; intros Hnd; [constructor|].
  apply NoDup_cons in Hnd as [Hj Hnd].
  destruct (f (j, a)); cbn; [|now apply IH].
  apply NoDup_cons. split; [|now apply IH].
  intros Hin. apply Hj. apply list_elem_of_fmap in Hin as ([j' a'] & -> & Hin).
  apply list_elem_of_In, List.filter_In in Hin as [Hin _].
  apply list_elem_of_fmap. exists (j', a'). split; [reflexivity|]. now apply list_elem_of_In.
Qed.

Lemma keyMates_NoDup connections key : NoDup (keyMates connections key).
Proof.
  unfold keyMates, keyed. apply filter_fst_NoDup.
  change (imap (fun j c' => (j, c')) connections)
    with (imap (fun j c' => ((0 + j)%nat, c')) connections).
  rewrite (indexed_fst connections 0). apply NoDup_seq.
Qed.

Lemma elem_of_keyMates connections key i :
  i ∈ keyMates connections key
  <-> exists c, connections !! i = Some c /\ pairKey c = key.
Proof.
  unfold keyMates, keyed. rewrite list_elem_of_fmap. split.
  - intros ([j c] & -> & Hin).
    apply list_elem_of_In, List.filter_In in Hin as [Hin Heq].
    apply list_elem_of_In, elem_of_lookup_imap in Hin as (j' & c' & [= <- <-] & Hc).
    exists c. split; [exact Hc|]. now apply String.eqb_eq.
  - intros (c & Hc & Hkey). exists (i, c). split; [reflexivity|].
    apply list_elem_of_In, List.filter_In. split.
    + apply list_elem_of_In, elem_of_lookup_imap. eauto.
    + now apply String.eqb_eq.
Qed.

(** Every connection gets the offset of its position in the group of its
    key. *)
Lemma connectionOffsets_get connections i c :
  connections !! i = Some c ->
  exists pos,
    keyMates connections (pairKey c) !! pos = Some i
    /\ get i (connectionOffsets connections)
       = Some (spreadAt pos (length (keyMates connections (pairKey c)))).
Proof.
  intros Hc. set (g := keyMates connections (pairKey c)).
  assert (i ∈ g) as Hin by (apply elem_of_keyMates; eauto).
  destruct (proj1 (list_elem_of_lookup g i) Hin) as [pos Hpos].
  exists pos. split; [exact Hpos|].
  unfold connectionOffsets. apply spreadGroups_get.
  - apply list_elem_of_fmap. exists (pairKey c, g). split; [reflexivity|].
    apply get_elem_of. rewrite pairGroups_get. fold g.
    destruct g; [now apply elem_of_nil in Hin|reflexivity].
  - intros g' Hg' Hi'. apply list_elem_of_fmap in Hg' as ([k' g''] & -> & Hg').
    cbn in *. apply (elem_of_get _ _ _ (pairGroups_keys connections)) in Hg'.
    rewrite pairGroups_get in Hg'.
    assert (g'' = keyMates connections k') as ->.
    { destruct (keyMates connections k'); [discriminate|congruence]. }
    apply elem_of_keyMates in Hi' as (c' & Hc' & Hk'). unfold g. congruence.
  - apply keyMates_NoDup.
  - exact Hpos.
Qed.

Lemma samePair_pairKey c c' : samePair c c' = true -> pairKey c = pairKey c'.
Proof.
  unfold samePair, pairKey. intros H.
  apply orb_true_iff in H as [H|H]; apply andb_true_iff in H as [H1 H2];
    apply String.eqb_eq in H1, H2.
  - now rewrite H1, H2.
  - rewrite <- H1, <- H2. unfold String.ltb.
    rewrite (String.compare_antisym (from_block c) (to_block c)).
    destruct (String.compare (to_block c) (from_block c)) eqn:Hcmp; cbn; try reflexivity.
    apply String.compare_eq_iff in Hcmp. now rewrite Hcmp.
Qed.

(** When equal keys only occur for equal pairs, every connection for which
    the specification prescribes an offset gets that offset. *)
Lemma connectionOffsets_prescribed connections :
  (forall c c', c ∈ connections -> c' ∈ connections ->
                pairKey c = pairKey c' -> samePair c c' = true) ->
  forall i v,
    prescribedOffset connections i = Some v ->
    default 0 (get i (connectionOffsets connections)) = v.
Proof.
  intros Hkeys i v. unfold prescribedOffset.
  destruct (connections !! i) as [c|] eqn:Hc; [|discriminate]. cbn [mbind option_bind].
  assert (pairMates connections c = keyMates connections (pairKey c)) as ->.
  { unfold pairMates, keyMates, keyed. f_equal. apply List.filter_ext_in.
    intros [j c'] Hin. cbn.
    apply list_elem_of_In, elem_of_lookup_imap in Hin as (j' & c'' & [= <- <-] & Hc').
    destruct (samePair c c') eqn:Hsame.
    - symmetry. apply String.eqb_eq. symmetry. now apply samePair_pairKey.
    - symmetry. apply String.eqb_neq. intros Heq.
      rewrite Hkeys in Hsame; [discriminate| | |now symmetry];
        eapply list_elem_of_lookup_2; eassumption. }
  destruct (connectionOffsets_get connections i c Hc) as (pos & Hpos & ->).
  cbn [from_option Datatypes.id].
  set (g := keyMates connections (pairKey c)) in *.
  destruct (decide (length g = 1%nat)) as [H1|H1].
  - intros [= <-]. unfold spreadAt. rewrite decide_True by assumption. lra.
  - destruct (decide (length g = 3%nat)) as [H3|H3]; [|discriminate].
    destruct (list_find (eq i) g) as [[p x]|] eqn:Hfind; [|discriminate].
    cbn. intros [= <-].
    apply list_find_Some in Hfind as (Hp & <- & _).
    assert (p = pos) as -> by (eapply NoDup_lookup; [apply keyMates_NoDup|eassumption..]).
    unfold spreadAt. rewrite decide_False by assumption. rewrite H3. cbn. lra.
Qed.

End SpreadGeneral.

Section SpreadFacts.
Import Router Samples.
Local Open Scope R_scope.

(** Three connections between the same two blocks, in either direction, are
    spread by -15, 0 and +15 in the order of their indices, and a connection
    alone between its blocks is not moved. *)
Lemma connectionOffsets_triple :
  map (fun i => default 0 (Ordered.get i (connectionOffsets tripleConnections)))
      [0; 2; 3; 1]%nat
  = [-15; 0; 15; 0].
Proof.
  unfold connectionOffsets.
  change (pairGroups tripleConnections) with [("A<->B", [0; 2; 3]%nat); ("B<->C", [1%nat])].
  repeat (progress (cbn; decide_index)).
  unfold CONNECTION_SPREAD. repeat (f_equal; try lra).
Qed.

(** C8. In [clashConnections] exactly three connections join the blocks
    ["a<->b"] and ["c"], and the fourth is alone between ["a"] and
    ["b<->c"], so the offsets prescribed are -15, 0, +15 and 0. Both pairs
    get the key ["a<->b<->c"]: the four connections form one group and are
    spread by -22.5, -7.5, 7.5 and 22.5. *)
Theorem connectionOffsets_key_clash :
  map (Props.prescribedOffset clashConnections) [0; 1; 2; 3]%nat
  = [Some ((0 - 1) * 15); Some ((1 - 1) * 15); Some ((1 + 1 - 1) * 15); Some 0]
  /\ pairGroups clashConnections = [("a<->b<->c", [0; 1; 2; 3]%nat)]
  /\ map (fun i => default 0 (Ordered.get i (connectionOffsets clashConnections)))
         [0; 1; 2; 3]%nat
     = [-45 / 2; -15 / 2; 15 / 2; 45 / 2].
Proof.
  split; [reflexivity|].
  split; [reflexivity|].
  unfold connectionOffsets.
  change (pairGroups clashConnections) with [("a<->b<->c", [0; 1; 2; 3]%nat)].
  repeat (progress (cbn; decide_index)).
  unfold CONNECTION_SPREAD. repeat (f_equal; try lra).
Qed.

End SpreadFacts.

(** * Further properties of the code *)

(** ** The layout keeps every block *)

Section LayoutComplete.
Import Ordered Layering.
Local Open Scope R_scope.

Lemma set_absent {K V : Type} `{EqDecision K} (k : K) (v : V) (m : list (K * V)) :
  get k m = None -> set k v m = m ++ [(k, v)].
Proof.
  induction m as [|[k0 v0] m IH]; cbn; [reflexivity|].
  destruct (decide (k0 = k)); [discriminate|]. intros Hg. now rewrite IH.
Qed.

Lemma get_is_key {K V : Type} `{EqDecision K} (k : K) (v : V) (m : list (K * V)) :
  get k m = Some v -> k ∈ map fst m.
Proof.
  intros Hg. apply get_elem_of in Hg. apply list_elem_of_fmap. now exists (k, v).
Qed.

Lemma push_concat {K V : Type} `{EqDecision K} (k : K) (v : V) (m : list (K * list V)) :
  concat (map snd (push k v m)) ≡ₚ v :: concat (map snd m).
Proof.
  unfold push. induction m as [|[k0 v0] m IH]; cbn; [reflexivity|].
  destruct (decide (k0 = k)) as [->|Hne]; cbn.
  - rewrite <- app_assoc. cbn. symmetry. apply Permutation_middle.
  - rewrite IH. symmetry. apply Permutation_middle.
Qed.

Lemma push_fold_concat {K V : Type} `{EqDecision K} (f : V -> K) (l : list V)
    (m : list (K * list V)) :
  concat (map snd (fold_left (fun m b => push (f b) b m) l m)) ≡ₚ concat (map snd m) ++ l.
Proof.
  revert m. induction l as [|b l IH]; intros m; cbn.
  - now rewrite app_nil_r.
  - rewrite IH, push_concat. cbn. apply Permutation_middle.
Qed.

(** The partition loses no block as long as no host is named like a
    generated solo group. *)
Lemma partition_fold (bs : list Block) m n done :
  (forall b (j : nat), b ∈ bs -> truthy_hw b <> Some ("__solo_" +:+ pretty j)) ->
  concat (map snd m) ≡ₚ done ->
  (forall k, k ∈ map fst m ->
     (exists j, (j < n)%nat /\ k = "__solo_" +:+ pretty j)
     \/ (forall j : nat, k <> "__solo_" +:+ pretty j)) ->
  concat (map snd (fst (fold_left partitionStep bs (m, n)))) ≡ₚ done ++ bs.
Proof.
  revert m n done. induction bs as [|b bs IH]; intros m n done Hhost Hperm Hkeys; cbn.
  - now rewrite app_nil_r.
  - replace (done ++ b :: bs) with ((done ++ [b]) ++ bs) by now rewrite <- app_assoc.
    destruct (truthy_hw b) as [hw|] eqn:Hhw.
    + apply IH.
      * intros b' j Hb'. apply Hhost. now right.
      * rewrite push_concat, Hperm. apply Permutation_cons_append.
      * intros k Hk. unfold push in Hk. apply set_keys_elem in Hk as [->|Hk]; [|auto].
        right. intros j ->. apply (Hhost b j); [left|assumption].
    + assert (get ("__solo_" +:+ pretty n) m = None) as Hfresh.
      { destruct (get ("__solo_" +:+ pretty n) m) as [v|] eqn:Hg; [|reflexivity].
        apply get_is_key in Hg. apply Hkeys in Hg as [(j & Hj & Heq)|Hno].
        - apply (inj (String.app "__solo_")) in Heq. apply (inj pretty) in Heq. lia.
        - now destruct (Hno n). }
      apply IH.
      * intros b' j Hb'. apply Hhost. now right.
      * rewrite (set_absent _ _ _ Hfresh), map_app, concat_app. cbn.
        rewrite ?app_nil_r, Hperm. reflexivity.
      * intros k Hk. apply set_keys_elem in Hk as [->|Hk].
        -- left. exists n. split; [lia|reflexivity].
        -- apply Hkeys in Hk as [(j & Hj & ->)|Hno]; [left; exists j; split; [lia|reflexivity]|].
           now right.
Qed.

Lemma hwGroupMap_perm blocks :
  (forall b (j : nat), b ∈ blocks -> truthy_hw b <> Some ("__solo_" +:+ pretty j)) ->
  concat (map snd (hwGroupMap blocks)) ≡ₚ blocks.
Proof.
  intros Hhost. unfold hwGroupMap.
  apply (partition_fold blocks [] 0%nat []); [assumption|reflexivity|].
  intros k Hk. now apply elem_of_nil in Hk.
Qed.

Lemma stackSubColumn_fold (f : LayoutBlock -> Block * R * R) subCol blockList acc y :
  (forall lb, f lb = (lb_block lb, lb_width lb, lb_height lb)) ->
  map f (fst (fold_left (fun st b =>
           let h := blockHeight b in
           (fst st ++ [mkLayoutBlock b (INR subCol * (BLOCK_WIDTH + INTRA_GROUP_H_GAP))
                                     (snd st) BLOCK_WIDTH h],
            snd st + h + INTRA_GROUP_V_GAP))
         blockList (acc, y)))
  = map f acc ++ map (fun b => (b, BLOCK_WIDTH, blockHeight b)) blockList.
Proof.
  intros Hf. revert acc y. induction blockList as [|b bl IH]; intros acc y; cbn.
  - now rewrite app_nil_r.
  - rewrite IH. cbn. rewrite map_app, <- app_assoc. cbn. now rewrite Hf.
Qed.

(** Every rectangle of a group carries one block of the group, at the
    standard width and at the height its ports need. *)
Lemma tempLayout_shape groupBlocks column :
  map (fun lb => (lb_block lb, lb_width lb, lb_height lb)) (tempLayout groupBlocks column)
  ≡ₚ map (fun b => (b, BLOCK_WIDTH, blockHeight b)) groupBlocks.
Proof.
  unfold tempLayout. rewrite concat_map, map_map.
  rewrite (map_ext _ (fun e => map (fun b => (b, BLOCK_WIDTH, blockHeight b)) (snd e))).
  - rewrite <- map_map, <- concat_map. apply Permutation_map.
    unfold subColGroups. now rewrite push_fold_concat.
  - intros e. unfold stackSubColumn. now rewrite stackSubColumn_fold.
Qed.

Lemma placeGroup_frame {A : Type} (f : LayoutBlock -> A) canvasX l st :
  (forall ox oy lb, f (translate ox oy lb) = f lb) ->
  map (fun g => map f (g_layoutBlocks g)) (fst (fold_left (placeGroup canvasX) l st))
  = map (fun g => map f (g_layoutBlocks g)) (fst st).
Proof.
  intros Hf. revert st. induction l as [|i l IH]; intros [groups canvasY]; cbn; [reflexivity|].
  rewrite IH. destruct (groups !! i) as [g|] eqn:Hi; [|reflexivity].
  cbn. rewrite list_fmap_insert. apply list_insert_id.
  rewrite list_lookup_fmap, Hi. cbn. f_equal.
  rewrite map_map. apply map_ext. intros lb. symmetry. apply Hf.
Qed.

Lemma placeGroups_frame {A : Type} (f : LayoutBlock -> A) groups :
  (forall ox oy lb, f (translate ox oy lb) = f lb) ->
  map (fun g => map f (g_layoutBlocks g)) (placeGroups groups)
  = map (fun g => map f (g_layoutBlocks g)) groups.
Proof.
  intros Hf. unfold placeGroups.
  generalize (merge_sort Nat.le (map fst (groupColumns groups))).
  generalize (groupColumns groups) as byColumn. intros byColumn cols.
  change groups with (fst (groups, PADDING)) at 2.
  generalize (groups, PADDING) as st.
  induction cols as [|c cols IH]; intros [gs canvasX]; cbn; [reflexivity|].
  rewrite IH. cbn. now apply placeGroup_frame.
Qed.

(** The rectangles [layoutBlocks] returns, up to their position: those of
    the groups of the partition. *)
Lemma layoutBlocks_shape blocks connections :
  exists L, layoutBlocks blocks connections = Some L
    /\ map (fun lb => (lb_block lb, lb_width lb, lb_height lb)) L
       ≡ₚ map (fun b => (b, BLOCK_WIDTH, blockHeight b)) (concat (map snd (hwGroupMap blocks))).
Proof.
  unfold layoutBlocks. destruct blocks as [|b0 bs]; [exists []; split; reflexivity|].
  destruct (groupColumn_total (hwGroupMap (b0 :: bs)) connections) as (cols & -> & Hlen).
  cbn [mbind option_bind].
  destruct (mapM (fun e => layoutGroup (fst (fst e)) (snd (fst e)) (snd e) connections)
                 (zip (hwGroupMap (b0 :: bs)) cols)) as [groups|] eqn:Hgroups.
  - cbn. eexists. split; [reflexivity|].
    rewrite concat_map, map_map.
    rewrite (placeGroups_frame (fun lb => (lb_block lb, lb_width lb, lb_height lb)))
      by reflexivity.
    apply mapM_Some_1 in Hgroups.
    rewrite <- (fst_zip (hwGroupMap (b0 :: bs)) cols) by lia.
    revert Hgroups. generalize (zip (hwGroupMap (b0 :: bs)) cols). intros es Hgroups.
    induction Hgroups as [|e g es gs He _ IH]; cbn; [reflexivity|].
    rewrite map_app, IH. apply Permutation_app_tail.
    unfold layoutGroup in He.
    destruct (blockColumn (snd (fst e)) connections) as [cm|]; [|discriminate].
    cbn in He. injection He as <-. cbn. apply tempLayout_shape.
  - exfalso. assert (is_Some (mapM (fun e => layoutGroup (fst (fst e)) (snd (fst e)) (snd e) connections)
                        (zip (hwGroupMap (b0 :: bs)) cols))) as [? Hs].
    { apply mapM_is_Some. apply Forall_forall. intros e _.
      unfold compose, layoutGroup. cbn beta.
      destruct (blockColumn_total (snd (fst e)) connections) as [c ->]. cbn. eauto. }
    congruence.
Qed.

(** X1. [layoutBlocks] returns a layout for every diagram, cyclic ones
    included, and every rectangle of it has the standard width and the
    height its block's ports need. *)
Theorem layoutBlocks_rectangles (blocks : list Block) (connections : list BlockConnection) :
  exists L, layoutBlocks blocks connections = Some L
    /\ Forall (fun lb => lb_width lb = BLOCK_WIDTH
                         /\ lb_height lb = blockHeight (lb_block lb)) L.
Proof.
  destruct (layoutBlocks_shape blocks connections) as (L & HL & Hshape).
  exists L. split; [assumption|].
  apply Forall_forall. intros lb Hlb.
  assert ((lb_block lb, lb_width lb, lb_height lb)
          ∈ map (fun b => (b, BLOCK_WIDTH, blockHeight b))
                (concat (map snd (hwGroupMap blocks)))) as Hin.
  { rewrite <- Hshape. apply list_elem_of_fmap. now exists lb. }
  apply list_elem_of_fmap in Hin as (b & [= -> -> ->] & _). split; reflexivity.
Qed.

(** X2. Unless a host is named like a generated solo group, the layout has
    exactly one rectangle for every block of the diagram. *)
Theorem layoutBlocks_every_block_once (blocks : list Block)
    (connections : list BlockConnection) :
  (forall b (j : nat), b ∈ blocks -> truthy_hw b <> Some ("__solo_" +:+ pretty j)) ->
  exists L, layoutBlocks blocks connections = Some L /\ map lb_block L ≡ₚ blocks.
Proof.
  intros Hhost. destruct (layoutBlocks_shape blocks connections) as (L & HL & Hshape).
  exists L. split; [assumption|].
  apply (Permutation_map (fun s : Block * R * R => fst (fst s))) in Hshape.
  rewrite !map_map in Hshape. cbn in Hshape. rewrite map_id in Hshape.
  rewrite (map_ext _ lb_block) in Hshape by reflexivity.
  rewrite Hshape. now apply hwGroupMap_perm.
Qed.

End LayoutComplete.

(** The four blocks of the diamond, all on one host, are all laid out. *)
Lemma layoutBlocks_every_block_once_witness :
  exists L, Layering.layoutBlocks Samples.diamondBlocks Samples.diamondConnections = Some L
    /\ map lb_block L ≡ₚ Samples.diamondBlocks.
Proof.
  apply layoutBlocks_every_block_once.
  intros b j Hb. unfold Samples.diamondBlocks in Hb.
  repeat (apply elem_of_cons in Hb as [->|Hb]); [discriminate..|].
  now apply elem_of_nil in Hb.
Defined.

(** ** Columns are breadth-first depths *)

Section BfsLevels.
Context {K : Type} `{EqDecision K}.
Import Ordered Layering Levels.

Lemma elem_of_assign_fold col (frontier : list K) column assigned x :
  x ∈ snd (fold_left (assignStep col) frontier (column, assigned))
  <-> x ∈ assigned \/ x ∈ frontier.
Proof.
  revert column assigned. induction frontier as [|id rest IH]; intros column assigned; cbn.
  - rewrite elem_of_nil. tauto.
  - unfold mem. rewrite elem_of_cons. destruct (decide (id ∈ assigned)) as [Hin|Hnin].
    + rewrite bool_decide_eq_true_2 by assumption. rewrite IH.
      split; [tauto|]. intros [?|[->|?]]; tauto.
    + rewrite bool_decide_eq_false_2 by assumption. rewrite IH, elem_of_add. tauto.
Qed.

Lemma assign_fold_columns col (frontier : list K) column assigned :
  (forall x c, get x column = Some c -> x ∈ assigned) ->
  let st := fold_left (assignStep col) frontier (column, assigned) in
  (forall x c, get x (fst st) = Some c ->
     get x column = Some c \/ (x ∈ frontier /\ (x ∉ assigned) /\ c = col))
  /\ (forall x c, get x column = Some c -> get x (fst st) = Some c)
  /\ (forall x, x ∈ frontier -> x ∉ assigned -> get x (fst st) = Some col).
Proof.
  revert column assigned.
  induction frontier as [|id rest IH]; intros column assigned Hkeys; cbn.
  - split; [tauto|]. split; [tauto|]. intros x Hx. now apply elem_of_nil in Hx.
  - unfold mem. destruct (decide (id ∈ assigned)) as [Hin|Hnin].
    + rewrite bool_decide_eq_true_2 by assumption.
      destruct (IH column assigned Hkeys) as (H1 & H2 & H3).
      split; [|split; [assumption|]].
      * intros x c Hx. apply H1 in Hx as [?|(? & ? & ?)]; [tauto|].
        right. split; [now right|tauto].
      * intros x Hx Hn. apply H3; [|assumption].
        apply elem_of_cons in Hx as [->|Hx]; [contradiction|assumption].
    + rewrite bool_decide_eq_false_2 by assumption.
      destruct (IH (set id col column) (add id assigned)) as (H1 & H2 & H3).
      { intros x c. rewrite get_set, elem_of_add.
        destruct (decide (id = x)) as [->|]; [tauto|]. intros Hx. left. eauto. }
      split; [|split].
      * intros x c Hx. apply H1 in Hx as [Hx|(Hx & Hn & ->)].
        -- rewrite get_set in Hx. destruct (decide (id = x)) as [->|]; [|tauto].
           injection Hx as <-. right. split; [left|tauto].
        -- right. rewrite elem_of_add in Hn. split; [now right|tauto].
      * intros x c Hx. apply H2. rewrite get_set.
        destruct (decide (id = x)) as [->|]; [|assumption].
        exfalso. eauto.
      * intros x Hx Hn. apply elem_of_cons in Hx as [->|Hx].
        -- apply H2. rewrite get_set. now rewrite decide_True.
        -- destruct (decide (x = id)) as [->|Hne].
           ++ apply H2. rewrite get_set. now rewrite decide_True.
           ++ apply H3; [assumption|]. rewrite elem_of_add. tauto.
Qed.

Lemma next_inner_complete (outs : list K) assigned next x :
  x ∉ assigned -> x ∈ next \/ x ∈ outs ->
  x ∈ fold_left (fun nx dest => if mem dest assigned then nx else add dest nx) outs next.
Proof.
  intros Hn. revert next. induction outs as [|d ds IH]; intros next; cbn.
  - rewrite elem_of_nil. tauto.
  - rewrite elem_of_cons. intros Hx. apply IH. unfold mem.
    destruct (decide (d ∈ assigned)) as [Hd|Hd].
    + rewrite bool_decide_eq_true_2 by assumption.
      destruct Hx as [?|[->|?]]; [tauto|contradiction|tauto].
    + rewrite bool_decide_eq_false_2 by assumption. rewrite elem_of_add. tauto.
Qed.

Lemma next_fold_complete outgoing assigned (frontier next : list K) v :
  v ∉ assigned ->
  v ∈ next \/ (exists u, u ∈ frontier /\ v ∈ outOf outgoing u) ->
  v ∈ fold_left (nextStep outgoing assigned) frontier next.
Proof.
  intros Hn. revert next. induction frontier as [|id rest IH]; intros next; cbn.
  - intros [?|(u & Hu & _)]; [assumption|]. now apply elem_of_nil in Hu.
  - intros Hv. apply IH. destruct Hv as [Hv|(u & Hu & Hv)].
    + left. unfold nextStep. apply next_inner_complete; tauto.
    + apply elem_of_cons in Hu as [->|Hu]; [|right; eauto].
      left. unfold nextStep. apply next_inner_complete; [assumption|]. now right.
Qed.

(** One round of the loop keeps the invariant. *)
Lemma bfsInv_round outgoing (frontier : list K) col column assigned :
  bfsInv outgoing frontier col column assigned ->
  let st := fold_left (assignStep col) frontier (column, assigned) in
  bfsInv outgoing (fold_left (nextStep outgoing (snd st)) frontier []) (S col)
         (fst st) (snd st).
Proof.
  intros [Hkeys Hcover Hedges].
  destruct (assign_fold_columns col frontier column assigned) as (H1 & H2 & H3).
  { intros x c Hx. now apply Hkeys in Hx. }
  pose proof (elem_of_assign_fold col frontier column assigned) as Hmem.
  cbv zeta. set (st := fold_left (assignStep col) frontier (column, assigned)) in *.
  assert (forall x c, get x (fst st) = Some c -> x ∈ snd st /\ (c < S col)%nat) as Hkeys'.
  { intros x c Hx. rewrite Hmem. apply H1 in Hx as [Hx|(Hx & _ & ->)].
    - apply Hkeys in Hx. split; [tauto|lia].
    - split; [tauto|lia]. }
  assert (forall x, x ∈ snd st -> is_Some (get x (fst st))) as Hcover'.
  { intros x Hx. apply Hmem in Hx.
    destruct (decide (x ∈ assigned)) as [Hin|Hnin].
    - destruct (Hcover x Hin) as [c Hc]. exists c. now apply H2.
    - exists col. apply H3; tauto. }
  split; [assumption|assumption|].
  intros u cu v Hu Hv. apply H1 in Hu as [Hu|(Hu & Hun & ->)].
  - destruct (Hedges u cu v Hu Hv) as [(cv & Hcv & Hle)|(Hvn & Hvf & Hle)].
    + left. exists cv. split; [now apply H2|assumption].
    + left. exists col. split; [now apply H3|assumption].
  - destruct (decide (v ∈ snd st)) as [Hin|Hnin].
    + destruct (Hcover' v Hin) as [cv Hcv]. left. exists cv. split; [assumption|].
      apply Hkeys' in Hcv. lia.
    + right. split; [assumption|]. split; [|lia].
      apply next_fold_complete; [assumption|]. right. eauto.
Qed.

(** The loop ends with the invariant on an empty frontier; it never changes
    a column it has set, and it gives its starting column to the nodes of
    its first frontier. *)
Lemma bfsLoop_inv outgoing fuel (frontier : list K) col column assigned column' assigned' col' :
  bfsInv outgoing frontier col column assigned ->
  bfsLoop fuel outgoing frontier col column assigned = Some (column', assigned', col') ->
  bfsInv outgoing [] col' column' assigned'
  /\ (forall x c, get x column = Some c -> get x column' = Some c)
  /\ (forall x, x ∈ frontier -> x ∉ assigned -> get x column' = Some col).
Proof.
  revert frontier col column assigned.
  induction fuel as [|fuel IH]; intros frontier col column assigned Hinv Hloop.
  - destruct frontier as [|x rest]; [|discriminate]. cbn in Hloop.
    injection Hloop as <- <- <-. split; [assumption|]. split; [tauto|].
    intros x Hx. now apply elem_of_nil in Hx.
  - destruct frontier as [|x0 rest].
    { cbn in Hloop. injection Hloop as <- <- <-. split; [assumption|]. split; [tauto|].
      intros x Hx. now apply elem_of_nil in Hx. }
    cbn [bfsLoop] in Hloop.
    pose proof (bfsInv_round outgoing (x0 :: rest) col column assigned Hinv) as Hround.
    destruct (assign_fold_columns col (x0 :: rest) column assigned) as (_ & H2 & H3).
    { intros x c Hx. now apply (inv_keys _ _ _ _ _ Hinv) in Hx. }
    cbv zeta in Hround, H2, H3.
    destruct (fold_left (assignStep col) (x0 :: rest) (column, assigned))
      as [column1 assigned1] eqn:Hfold.
    cbn [fst snd] in Hround, H2, H3.
    destruct (IH _ _ _ _ Hround Hloop) as (Hfinal & Hkeep & _).
    split; [assumption|]. split.
    + intros x c Hx. apply Hkeep. now apply H2.
    + intros x Hx Hn. apply Hkeep. now apply H3.
Qed.

End BfsLevels.

Section GroupLevels.
Import Ordered Layering Levels Props.

Lemma emptyAdjacency_keys (bs : list Block) (m0 : list (string * list string)) k :
  k ∈ map block_id bs \/ is_Some (get k m0) ->
  is_Some (get k (fold_left (fun m b => set (block_id b) [] m) bs m0)).
Proof.
  revert m0. induction bs as [|b bs IH]; intros m0; cbn.
  - rewrite elem_of_nil. tauto.
  - rewrite elem_of_cons. intros Hk. apply IH. rewrite get_set.
    destruct (decide (block_id b = k)) as [Heq|Hne]; [right; eauto|].
    destruct Hk as [[?|?]|?]; [congruence|tauto|tauto].
Qed.

Lemma addEdge_get {K : Type} `{EqDecision K} (k v u : K) (m : list (K * list K)) :
  get u (addEdge k v m)
  = match get k m with
    | Some s => if decide (k = u) then Some (add v s) else get u m
    | None => get u m
    end.
Proof.
  unfold addEdge. destruct (get k m) as [s|] eqn:Hs; [|reflexivity]. apply get_set.
Qed.

(** Every connection inside the group is an edge of [intraOutgoing]. *)
Lemma intraOutgoing_edge groupBlocks connections from to :
  intraEdge groupBlocks connections from to ->
  to ∈ outOf (intraOutgoing groupBlocks connections) from.
Proof.
  intros (Hfrom & Hto & c & Hc & Hcf & Hct). unfold intraOutgoing, outOf.
  assert (forall id, id ∈ groupBlockIds groupBlocks ->
                     is_Some (get id (emptyAdjacency groupBlocks))) as Hkeys.
  { intros id Hid. apply emptyAdjacency_keys. now left. }
  assert (to ∈ default [] (get from (emptyAdjacency groupBlocks))
          \/ exists c, c ∈ connections /\ from_block c = from /\ to_block c = to) as Hedge
    by (right; eauto).
  clear Hc Hcf Hct c. revert Hkeys Hedge. generalize (emptyAdjacency groupBlocks).
  induction connections as [|c cs IH]; intros m Hkeys Hedge; cbn.
  - destruct Hedge as [?|(c & Hc & _)]; [assumption|]. now apply elem_of_nil in Hc.
  - apply IH.
    + intros id Hid. destruct (mem _ _ && mem _ _); [|now apply Hkeys].
      rewrite addEdge_get. destruct (get (from_block c) m) as [s|]; [|now apply Hkeys].
      destruct (decide (from_block c = id)); [eauto|now apply Hkeys].
    + destruct Hedge as [Hin|(c' & Hc' & Hcf & Hct)].
      * left. destruct (mem _ _ && mem _ _); [|assumption].
        rewrite addEdge_get. destruct (get (from_block c) m) as [s|] eqn:Hs; [|assumption].
        destruct (decide (from_block c = from)) as [Heq|]; [|assumption].
        rewrite Heq in Hs. rewrite Hs in Hin. cbn in *. apply elem_of_add. now left.
      * apply elem_of_cons in Hc' as [->|Hc']; [|right; eauto].
        left. subst from to. unfold mem.
        rewrite !bool_decide_eq_true_2 by assumption. cbn.
        rewrite addEdge_get. destruct (Hkeys (from_block c) Hfrom) as [s ->].
        rewrite decide_True by reflexivity. cbn. apply elem_of_add. now right.
Qed.

Lemma fallback_fold (bs : list Block) (col : nat) (column : list (string * nat)) :
  let cols := fold_left (fun m b => if has (block_id b) m then m else set (block_id b) col m)
                        bs column in
  (forall x c, get x column = Some c -> get x cols = Some c)
  /\ (forall x c, get x cols = Some c -> get x column = Some c \/ c = col)
  /\ (forall b, b ∈ bs -> is_Some (get (block_id b) cols)).
Proof.
  revert column. induction bs as [|b bs IH]; intros column; cbn.
  - split; [tauto|]. split; [tauto|]. intros b Hb. now apply elem_of_nil in Hb.
  - unfold has. destruct (get (block_id b) column) as [c0|] eqn:Hb.
    + destruct (IH column) as (H1 & H2 & H3). split; [assumption|]. split; [assumption|].
      intros b' Hb'. apply elem_of_cons in Hb' as [->|Hb']; [eauto|auto].
    + destruct (IH (set (block_id b) col column)) as (H1 & H2 & H3). split; [|split].
      * intros x c Hx. apply H1. rewrite get_set.
        destruct (decide (block_id b = x)) as [Heq|]; [congruence|assumption].
      * intros x c Hx. apply H2 in Hx as [Hx|?]; [|tauto].
        rewrite get_set in Hx. destruct (decide (block_id b = x)); [right; congruence|tauto].
      * intros b' Hb'. apply elem_of_cons in Hb' as [->|Hb']; [|auto].
        exists col. apply H1. rewrite get_set. now rewrite decide_True.
Qed.

(** What the layering of one group guarantees. *)
Lemma blockColumn_levels groupBlocks connections cols :
  blockColumn groupBlocks connections = Some cols ->
  (forall b, b ∈ groupBlocks -> is_Some (get (block_id b) cols))
  /\ (forall r, r ∈ intraRoots groupBlocks connections -> get r cols = Some 0%nat)
  /\ (forall from to cf ct,
        intraEdge groupBlocks connections from to ->
        get from cols = Some cf -> get to cols = Some ct -> (ct <= cf + 1)%nat).
Proof.
  unfold blockColumn.
  destruct (bfsLoop _ _ _ _ _ _) as [[[column assigned] col]|] eqn:Hloop; [|discriminate].
  intros [= <-].
  apply bfsLoop_inv in Hloop as ([Hkeys Hcover Hedges] & _ & Hroots).
  2:{ split.
      - discriminate.
      - intros x Hx. now apply elem_of_nil in Hx.
      - discriminate. }
  destruct (fallback_fold groupBlocks col column) as (H1 & H2 & H3).
  cbv zeta in H1, H2, H3. split; [assumption|]. split.
  - intros r Hr. apply H1, Hroots; [assumption|apply not_elem_of_nil].
  - intros from to cf ct Hedge Hf Ht. apply intraOutgoing_edge in Hedge.
    apply H2 in Hf as [Hf| ->].
    + destruct (Hedges _ _ _ Hf Hedge) as [(cv & Hcv & Hle)|(_ & Hnil & _)].
      * apply H1 in Hcv. congruence.
      * now apply elem_of_nil in Hnil.
    + apply H2 in Ht as [Ht| ->]; [|lia]. apply Hkeys in Ht. lia.
Qed.


(** X4. The columns are breadth-first depths: along a connection inside a
    group the column grows by at most one. *)
Theorem blockColumn_edge_advances_at_most_one (groupBlocks : list Block)
    (connections : list BlockConnection) (cols : list (string * nat))
    (from to : string) (cf ct : nat) :
  blockColumn groupBlocks connections = Some cols ->
  intraEdge groupBlocks connections from to ->
  get from cols = Some cf -> get to cols = Some ct ->
  (ct <= cf + 1)%nat.
Proof.
  intros Hcols. destruct (blockColumn_levels _ _ _ Hcols) as (_ & _ & Hedges).
  apply Hedges.
Qed.

End GroupLevels.

(** In the diamond the connection from [C] to [D] goes from column 1 to
    column 2. *)
Lemma blockColumn_edge_advances_at_most_one_witness : (2 <= 1 + 1)%nat.
Proof.
  apply (blockColumn_edge_advances_at_most_one
           Samples.diamondBlocks Samples.diamondConnections
           [("A", 0); ("B", 1); ("C", 1); ("D", 2)]%nat "C" "D" 1%nat 2%nat).
  - reflexivity.
  - split; [|split].
    + cbn. rewrite !elem_of_cons. tauto.
    + cbn. rewrite !elem_of_cons. tauto.
    + exists (mkConn "C" "D" "s3"). split; [|split; reflexivity].
      unfold Samples.diamondConnections. rewrite !elem_of_cons. tauto.
  - reflexivity.
  - reflexivity.
Defined.

(** ** Shape of the routed paths *)

Section PathEnds.
Import Ports Router Viewer.
Local Open Scope R_scope.

Lemma computeOrthogonalPath_ends fromPort toPort allBlocks sameGroup verticalOffset :
  head (computeOrthogonalPath fromPort toPort allBlocks sameGroup verticalOffset)
  = Some fromPort
  /\ last (computeOrthogonalPath fromPort toPort allBlocks sameGroup verticalOffset)
     = Some toPort.
Proof.
  unfold computeOrthogonalPath.
  repeat match goal with
         | |- context [bool_decide ?P] => destruct (bool_decide P)
         end; try (split; reflexivity).
  all: destruct allBlocks; split; reflexivity.
Qed.

Lemma last_drop {A : Type} (l : list A) n : (n < length l)%nat -> last (drop n l) = last l.
Proof.
  intros Hn. rewrite !last_lookup, lookup_drop, length_drop. f_equal. lia.
Qed.

Lemma splice2_ends at_ a b points :
  (0 < at_ < length points)%nat ->
  head (splice2 at_ a b points) = head points
  /\ last (splice2 at_ a b points) = last points.
Proof.
  intros [H0 Hlt]. unfold splice2. split.
  - destruct points as [|p l]; [cbn in Hlt; lia|].
    destruct at_ as [|n]; [lia|]. reflexivity.
  - rewrite last_app.
    rewrite last_app, last_drop by assumption.
    destruct (last points) as [q|] eqn:Hq; [reflexivity|].
    apply last_None in Hq. subst points. cbn in Hlt. lia.
Qed.

Lemma splitSegment_ends wpWithSeg points segIdx :
  head (splitSegment wpWithSeg points segIdx) = head points
  /\ last (splitSegment wpWithSeg points segIdx) = last points.
Proof.
  unfold splitSegment.
  destruct (points !! segIdx) as [p1|] eqn:H1; [|tauto].
  destruct (points !! S segIdx) as [p2|] eqn:H2; [|tauto].
  apply lookup_lt_Some in H2.
  destruct (bool_decide _); apply splice2_ends; lia.
Qed.

Lemma insertWaypointsIntoPath_ends path waypoints :
  head (insertWaypointsIntoPath path waypoints) = head path
  /\ last (insertWaypointsIntoPath path waypoints) = last path.
Proof.
  unfold insertWaypointsIntoPath. destruct waypoints as [|wp wps]; [tauto|].
  generalize (sortWpSeg (map (locateWaypoint path) (wp :: wps))) as wpWithSeg.
  intros wpWithSeg. generalize (map ws_segIdx wpWithSeg) as segs. intros segs.
  revert path. induction segs as [|s segs IH]; intros path; cbn; [tauto|].
  destruct (IH (splitSegment wpWithSeg path s)) as [-> ->].
  apply splitSegment_ends.
Qed.

Lemma applyPointOverrides_ends path overrides :
  head (applyPointOverrides path overrides) = head path
  /\ last (applyPointOverrides path overrides) = last path.
Proof.
  unfold applyPointOverrides.
  destruct (bool_decide (length path < 3)%nat); [tauto|]. split.
  - destruct path as [|p l]; [reflexivity|]. cbn [imap head].
    now rewrite (bool_decide_eq_false_2 (1 <= 0)%nat) by lia.
  - rewrite !last_lookup, length_imap, list_lookup_imap.
    destruct (path !! pred (length path)) as [p|]; [|reflexivity]. cbn.
    rewrite (bool_decide_eq_false_2 (pred (length path) < length path - 1)%nat) by lia.
    now rewrite andb_false_r.
Qed.

(** X5. Whatever waypoints and point overrides a connection carries, its
    rendered path starts at the output port of its source block and ends at
    the input port of its destination block. *)
Theorem computedPath_endpoints (connections : list BlockConnection)
    (layout : list LayoutBlock) (ov : Overrides) (i : nat) (conn : BlockConnection)
    (fromLb toLb : LayoutBlock) :
  connections !! i = Some conn ->
  layoutMap layout !! from_block conn = Some fromLb ->
  layoutMap layout !! to_block conn = Some toLb ->
  exists path,
    computedPath connections layout ov i = Some path
    /\ head path = Some (getPortPosition fromLb (signal_name conn) output)
    /\ last path = Some (getPortPosition toLb (signal_name conn) input).
Proof.
  intros Hconn Hfrom Hto. unfold computedPath.
  rewrite Hconn. cbn [mbind option_bind]. rewrite Hfrom. cbn [mbind option_bind].
  rewrite Hto. cbn [mbind option_bind].
  eexists. split; [reflexivity|].
  pose proof (insertWaypointsIntoPath_ends
                (basePath connections layout i conn fromLb toLb)
                (default [] (connWaypoints ov !! i))) as [Hh Hl].
  pose proof (computeOrthogonalPath_ends
                (getPortPosition fromLb (signal_name conn) output)
                (getPortPosition toLb (signal_name conn) input) layout
                (areBlocksInSameGroup (from_block conn) (to_block conn) (layoutMap layout))
                (default 0 (Ordered.get i (connectionOffsets connections)))) as [Hh0 Hl0].
  fold (basePath connections layout i conn fromLb toLb) in Hh0, Hl0.
  destruct (connPointOverrides ov !! i) as [[|o os]|].
  - now rewrite Hh, Hl.
  - destruct (applyPointOverrides_ends
                (insertWaypointsIntoPath (basePath connections layout i conn fromLb toLb)
                                         (default [] (connWaypoints ov !! i)))
                (o :: os)) as [-> ->].
    now rewrite Hh, Hl.
  - now rewrite Hh, Hl.
Qed.

(** X6. On a path of at least two points every waypoint adds exactly two
    points, and the two ends of the path stay where they are. *)
Theorem insertWaypointsIntoPath_grows (path waypoints : list Point) :
  (2 <= length path)%nat ->
  length (insertWaypointsIntoPath path waypoints) = (length path + 2 * length waypoints)%nat
  /\ head (insertWaypointsIntoPath path waypoints) = head path
  /\ last (insertWaypointsIntoPath path waypoints) = last path.
Proof.
  intros H2. split; [now apply insertWaypointsIntoPath_length|].
  apply insertWaypointsIntoPath_ends.
Qed.

End PathEnds.

Section PathEndsExample.
Import Ports Router Viewer Samples.
Local Open Scope R_scope.

(** The connection of the levelled pair, with its waypoint and its dragged
    jog, still runs from the port of [supply] to the port of [load]. *)
Lemma computedPath_endpoints_witness :
  exists path,
    computedPath pairConnections levelLayout levelOverrides 0 = Some path
    /\ head path = Some (getPortPosition supplyBox "VCC" output)
    /\ last path = Some (getPortPosition levelLoadBox "VCC" input).
Proof.
  apply (computedPath_endpoints pairConnections levelLayout levelOverrides 0
           (mkConn "A" "B" "VCC") supplyBox levelLoadBox); reflexivity.
Defined.

(** Two waypoints on a two-point path. *)
Lemma insertWaypointsIntoPath_grows_witness :
  length (insertWaypointsIntoPath shortPath [shortWaypoint; shortWaypoint]) = 6%nat
  /\ head (insertWaypointsIntoPath shortPath [shortWaypoint; shortWaypoint]) = head shortPath
  /\ last (insertWaypointsIntoPath shortPath [shortWaypoint; shortWaypoint]) = last shortPath.
Proof.
  apply (insertWaypointsIntoPath_grows shortPath [shortWaypoint; shortWaypoint]).
  cbn. lia.
Defined.

End PathEndsExample.

(** ** Orthogonality and clearance of the routes *)

Section RouteShape.
Import Router Props Geometry.
Local Open Scope R_scope.

Lemma Rabs_sub_offset a b o : Rabs (a + o - (b + o)) = Rabs (a - b).
Proof. f_equal. lra. Qed.

(** X7. Every segment of a routed path is vertical, or horizontal to within
    one unit, or rises by no more than the spread offset of its connection:
    a connection that is not spread is drawn with vertical and horizontal
    segments only. *)
Theorem computeOrthogonalPath_orthogonal (fromPort toPort : Point)
    (allBlocks : list LayoutBlock) (sameGroup : bool) (verticalOffset : R) :
  allBlocks <> [] ->
  Forall (fun s => upright s \/ level s
                   \/ Rabs (py (fst s) - py (snd s)) <= Rabs verticalOffset)
         (segments (computeOrthogonalPath fromPort toPort allBlocks sameGroup verticalOffset)).
Proof.
  intros Hblocks. unfold computeOrthogonalPath.
  assert (forall y, Rabs (y - (y + verticalOffset)) <= Rabs verticalOffset) as Hout.
  { intros y. replace (y - (y + verticalOffset)) with (- verticalOffset) by lra.
    rewrite Rabs_Ropp. lra. }
  assert (forall y, Rabs (y + verticalOffset - y) <= Rabs verticalOffset) as Hin.
  { intros y. replace (y + verticalOffset - y) with verticalOffset by lra. lra. }
  assert (forall y, level (mkPoint 0 y, mkPoint 0 y)) as Hflat.
  { intros y. unfold level. cbn. replace (y - y) with 0 by lra. rewrite Rabs_R0. lra. }
  unfold segments.
  destruct (bool_decide (Rabs (px toPort - px fromPort) < BLOCK_WIDTH * 0.5));
    [|destruct (bool_decide (px toPort > px fromPort + (if sameGroup then 20 else 40) * 2));
      [destruct (bool_decide (Rabs (py fromPort + verticalOffset
                                    - (py toPort + verticalOffset)) < 1)) eqn:Hlevel
      |destruct allBlocks as [|b0 rest]; [contradiction|]]];
    cbn [zip zip_with tail];
    repeat apply List.Forall_cons; try apply List.Forall_nil;
    cbn [fst snd px py].
  all: try (left; reflexivity).
  all: try (right; right; first [apply Hout|apply Hin]).
  all: right; left.
  - apply bool_decide_eq_true in Hlevel. rewrite Rabs_sub_offset in Hlevel. exact Hlevel.
  - apply (Hflat _).
Qed.

Lemma lineIntersectsBlock_false x startY endY block margin :
  lineIntersectsBlock x startY endY block margin = false ->
  clearOf x startY endY margin block.
Proof.
  unfold lineIntersectsBlock, clearOf. cbv zeta.
  rewrite !andb_false_iff, !bool_decide_eq_false.
  intros [[[H|H]|H]|H]; lra.
Qed.

Lemma channelClear_clearOf startY endY blocks x :
  channelClear startY endY blocks x = true ->
  Forall (clearOf x startY endY 10) blocks.
Proof.
  unfold channelClear. rewrite negb_true_iff. intros Hnone.
  apply Forall_forall. intros b Hb. apply lineIntersectsBlock_false.
  destruct (lineIntersectsBlock x startY endY b 10) eqn:Hhit; [|reflexivity].
  assert (existsb (fun b => lineIntersectsBlock x startY endY b 10) blocks = true) as Hex.
  { apply existsb_exists. exists b. split; [now apply list_elem_of_In|assumption]. }
  congruence.
Qed.

Lemma channelProbes_near preferredX x :
  In x (preferredX :: channelProbes preferredX) -> Rabs (x - preferredX) <= 300.
Proof.
  intros [<-|Hx].
  - replace (preferredX - preferredX) with 0 by lra. rewrite Rabs_R0. lra.
  - unfold channelProbes in Hx. apply in_flat_map in Hx as (k & Hk & Hx).
    apply in_seq in Hk.
    assert (1 <= INR k <= 15) as Hbound.
    { split.
      - replace 1 with (INR 1) by reflexivity. apply le_INR. lia.
      - replace 15 with (INR 15) by (cbn; lra). apply le_INR. lia. }
    apply Rabs_le. destruct Hx as [<-|[<-|[]]]; lra.
Qed.

(** X8. The channel the search returns lies within 300 units of the
    preferred one, and the vertical segment there passes more than 10 units
    away from every block, unless all 31 probes are blocked and the
    preferred x is returned as it is. *)
Theorem findClearVerticalChannel_clears (preferredX startY endY : R)
    (blocks : list LayoutBlock) :
  Rabs (findClearVerticalChannel preferredX startY endY blocks - preferredX) <= 300
  /\ (Forall (clearOf (findClearVerticalChannel preferredX startY endY blocks) startY endY 10)
             blocks
      \/ (findClearVerticalChannel preferredX startY endY blocks = preferredX
          /\ length (preferredX :: channelProbes preferredX) = 31%nat
          /\ Forall (fun probe => channelClear startY endY blocks probe = false)
                    (preferredX :: channelProbes preferredX))).
Proof.
  rewrite findClearVerticalChannel_firstClear. unfold firstClear.
  destruct (find (channelClear startY endY blocks) (preferredX :: channelProbes preferredX))
    as [x|] eqn:Hfind; cbn [from_option id].
  - apply find_some in Hfind as [Hin Hclear]. split.
    + now apply channelProbes_near.
    + left. now apply channelClear_clearOf.
  - split.
    + replace (preferredX - preferredX) with 0 by lra. rewrite Rabs_R0. lra.
    + right. split; [reflexivity|]. split; [reflexivity|].
      apply Forall_forall. intros probe Hprobe.
      apply (find_none _ _ Hfind). now apply list_elem_of_In.
Qed.

End RouteShape.

Section RouteShapeExample.
Import Router Geometry Samples.
Local Open Scope R_scope.

(** The route from [supply] to [load]. *)
Lemma computeOrthogonalPath_orthogonal_witness :
  Forall (fun s => upright s \/ level s \/ Rabs (py (fst s) - py (snd s)) <= Rabs 0)
         (segments (computeOrthogonalPath (mkPoint 180 46) (mkPoint 400 146) pairLayout
                                          false 0)).
Proof.
  apply (computeOrthogonalPath_orthogonal (mkPoint 180 46) (mkPoint 400 146) pairLayout
           false 0).
  discriminate.
Defined.

End RouteShapeExample.

(** ** The waypoint handlers *)

Section WaypointHandlers.
Import Router Viewer.
Local Open Scope R_scope.
Context (connections : list BlockConnection) (lay : list LayoutBlock).

Lemma nearWaypoint_self click : nearWaypoint click click = true.
Proof.
  unfold nearWaypoint. apply bool_decide_eq_true.
  replace (px click - px click) with 0 by lra.
  replace (py click - py click) with 0 by lra.
  rewrite hypot_0_r, Rabs_R0. lra.
Qed.

Lemma removeWaypoint_raises ov connIdx wpIdx :
  removeWaypoint connections lay ov connIdx wpIdx = None
  <-> connections !! connIdx = None
      \/ exists conn,
           connections !! connIdx = Some conn
           /\ is_Some (layoutMap lay !! from_block conn)
           /\ is_Some (layoutMap lay !! to_block conn)
           /\ (length (default [] (connWaypoints ov !! connIdx)) <= wpIdx)%nat.
Proof.
  unfold removeWaypoint.
  destruct (connections !! connIdx) as [conn|]; cbn [mbind option_bind]; [|tauto].
  destruct (layoutMap lay !! from_block conn) as [fromLb|] eqn:Hfrom;
    [destruct (layoutMap lay !! to_block conn) as [toLb|] eqn:Hto|].
  - destruct (default [] (connWaypoints ov !! connIdx) !! wpIdx) as [wp|] eqn:Hwp;
      cbn [mbind option_bind].
    + apply lookup_lt_Some in Hwp. split; [discriminate|].
      intros [?|(c & [= <-] & _ & _ & Hle)]; [discriminate|lia].
    + apply lookup_ge_None in Hwp. split; [|reflexivity].
      intros _. right. exists conn. rewrite Hfrom, Hto. repeat split; eauto.
  - cbn. split; [discriminate|].
    intros [?|(c & [= <-] & _ & [x Hx] & _)]; [discriminate|congruence].
  - cbn. split; [discriminate|].
    intros [?|(c & [= <-] & [x Hx] & _)]; [discriminate|congruence].
Qed.

Lemma handleConnDoubleClick_raises ov connIdx click :
  handleConnDoubleClick connections lay ov connIdx click = None
  <-> connections !! connIdx = None.
Proof.
  unfold handleConnDoubleClick.
  destruct (list_find _ _) as [[removeIdx wp]|] eqn:Hfind.
  - apply list_find_Some in Hfind as (Hwp & _ & _). apply lookup_lt_Some in Hwp.
    rewrite removeWaypoint_raises. split; [|tauto].
    intros [?|(c & _ & _ & _ & Hle)]; [assumption|lia].
  - destruct (connections !! connIdx); cbn; [split; discriminate|tauto].
Qed.

(** X9. The two waypoint handlers raise only on a connection index that
    names no connection, and [removeWaypoint] also on a waypoint index past
    the waypoints of a connection whose two blocks are laid out; a double
    click on a connection of the diagram never raises. *)
Theorem waypoint_handlers_raise (ov : Overrides) (connIdx : nat) :
  (forall click,
     handleConnDoubleClick connections lay ov connIdx click = None
     <-> connections !! connIdx = None)
  /\ (forall wpIdx,
        removeWaypoint connections lay ov connIdx wpIdx = None
        <-> connections !! connIdx = None
            \/ exists conn,
                 connections !! connIdx = Some conn
                 /\ is_Some (layoutMap lay !! from_block conn)
                 /\ is_Some (layoutMap lay !! to_block conn)
                 /\ (length (default [] (connWaypoints ov !! connIdx)) <= wpIdx)%nat).
Proof.
  split.
  - intros click. apply handleConnDoubleClick_raises.
  - intros wpIdx. apply removeWaypoint_raises.
Qed.

(** X10. A double click at the point where the previous double click has
    just put a waypoint removes that waypoint: the connection has its former
    waypoints again. *)
Theorem doubleClick_twice_restores (ov ov1 : Overrides) (connIdx : nat) (click : Point) :
  list_find (fun wp => nearWaypoint click wp = true)
            (default [] (connWaypoints ov !! connIdx)) = None ->
  handleConnDoubleClick connections lay ov connIdx click = Some ov1 ->
  exists ov2,
    handleConnDoubleClick connections lay ov1 connIdx click = Some ov2
    /\ default [] (connWaypoints ov1 !! connIdx)
       = default [] (connWaypoints ov !! connIdx) ++ [click]
    /\ default [] (connWaypoints ov2 !! connIdx) = default [] (connWaypoints ov !! connIdx)
    /\ blockPositionOverrides ov2 = blockPositionOverrides ov.
Proof.
  intros Hfind Hfirst.
  assert (exists conn, connections !! connIdx = Some conn) as [conn Hconn].
  { destruct (connections !! connIdx) as [conn|] eqn:Hconn; [eauto|].
    unfold handleConnDoubleClick in Hfirst. rewrite Hfind, Hconn in Hfirst. discriminate. }
  set (existing := default [] (connWaypoints ov !! connIdx)) in *.
  assert (default [] (connWaypoints ov1 !! connIdx) = existing ++ [click]
          /\ blockPositionOverrides ov1 = blockPositionOverrides ov) as [Hw1 Hb1].
  { unfold handleConnDoubleClick in Hfirst. fold existing in Hfirst.
    rewrite Hfind, Hconn in Hfirst. cbn [mbind option_bind] in Hfirst.
    injection Hfirst as <-. cbn. now rewrite lookup_insert_eq. }
  assert (list_find (fun wp => nearWaypoint click wp = true) (existing ++ [click])
          = Some (length existing, click)) as Hsecond.
  { rewrite list_find_app_r by assumption. cbn.
    rewrite decide_True by apply nearWaypoint_self. reflexivity. }
  unfold handleConnDoubleClick at 1. rewrite Hw1, Hsecond.
  destruct (removeWaypoint connections lay ov1 connIdx (length existing)) as [ov2|] eqn:Hrm.
  - exists ov2. split; [reflexivity|]. split; [reflexivity|].
    unfold removeWaypoint in Hrm. rewrite Hconn, Hw1 in Hrm. cbn [mbind option_bind] in Hrm.
    rewrite (list_lookup_middle existing [] click (length existing) eq_refl) in Hrm.
    destruct (layoutMap lay !! from_block conn), (layoutMap lay !! to_block conn);
      cbn [mbind option_bind] in Hrm; injection Hrm as <-;
      cbn [connWaypoints blockPositionOverrides];
      rewrite storeList_lookup, delete_last_appended; (split; [reflexivity|assumption]).
  - exfalso. apply removeWaypoint_raises in Hrm as [Hrm|(c & _ & _ & _ & Hle)].
    + congruence.
    + rewrite Hw1, length_app in Hle. cbn in Hle. lia.
Qed.

End WaypointHandlers.

Section WaypointHandlersExample.
Import Router Viewer Samples.
Local Open Scope R_scope.

(** Two double clicks at the same point of the connection from [supply] to
    [load]. *)
Lemma doubleClick_twice_restores_witness :
  exists ov1 ov2,
    handleConnDoubleClick pairConnections pairLayout noOverrides 0 pairClick = Some ov1
    /\ handleConnDoubleClick pairConnections pairLayout ov1 0 pairClick = Some ov2
    /\ default [] (connWaypoints ov1 !! 0%nat) = [pairClick]
    /\ default [] (connWaypoints ov2 !! 0%nat) = []
    /\ blockPositionOverrides ov2 = ∅.
Proof.
  eexists. 
  assert (handleConnDoubleClick pairConnections pairLayout noOverrides 0 pairClick
          = Some (mkOverrides ∅
                    (<[0%nat := Props.insertedOverrides []
                                  (basePath pairConnections pairLayout 0
                                            (mkConn "A" "B" "VCC") supplyBox loadBox)
                                  pairClick]> ∅)
                    (<[0%nat := [pairClick]]> ∅))) as Hfirst by reflexivity.
  destruct (doubleClick_twice_restores pairConnections pairLayout noOverrides _ 0 pairClick
              eq_refl Hfirst) as (ov2 & H2 & Hw1 & Hw2 & Hb).
  exists ov2. split; [exact Hfirst|]. split; [exact H2|].
  split; [exact Hw1|]. split; [exact Hw2|exact Hb].
Defined.

End WaypointHandlersExample.

(** ** Zoom, pan and drags over whole gestures *)

Section GestureFacts.
Import Viewer Interaction Drags.
Local Open Scope R_scope.
Context (blocks : list Block) (connections : list BlockConnection).

Lemma run_reachable events s s' :
  reachable blocks connections s ->
  run blocks connections s events = Some s' ->
  reachable blocks connections s'.
Proof.
  revert s. induction events as [|e es IH]; intros s Hs Hrun.
  - injection Hrun as <-. exact Hs.
  - rewrite run_cons in Hrun.
    destruct (step blocks connections s e) as [s1|] eqn:Hstep; [|discriminate].
    cbn in Hrun. apply (IH s1); [|assumption].
    eapply reach_step; eassumption.
Qed.

(** X11. Whatever sequence of events the viewer handles after it is mounted
    (wheel, toolbar buttons, presses, moves, double clicks, loads), its zoom
    factor stays within [0.2, 5]. *)
Theorem run_zoom_range (events : list Event) (s : State) :
  run blocks connections initialState events = Some s ->
  0.2 <= zoom s <= 5.
Proof.
  intros Hrun. apply (reachable_zoom_range blocks connections).
  eapply run_reachable; [apply reach_init|exact Hrun].
Qed.





Lemma nodeDraggingFrom_move s connIdx pointIdx origin s' client :
  nodeDraggingFrom s connIdx pointIdx origin s' ->
  nodeDraggingFrom s connIdx pointIdx origin (handleCanvasMouseMove s' client).
Proof.
  intros (Hn & Hstart & Hbase & Hz & Hbp & Hwp & Hpo).
  unfold handleCanvasMouseMove. rewrite Hn, Hstart.
  destruct (bool_decide _ && bool_decide _); [repeat split; assumption|].
  repeat split; cbn; try assumption.
  intros k Hk. rewrite lookup_insert_ne by congruence. now apply Hpo.
Qed.

Lemma nodeDraggingFrom_moves s connIdx pointIdx origin s' moves :
  nodeDraggingFrom s connIdx pointIdx origin s' ->
  nodeDraggingFrom s connIdx pointIdx origin (foldl handleCanvasMouseMove s' moves).
Proof.
  revert s'. induction moves as [|m ms IH]; intros s' Hs'; [exact Hs'|].
  cbn. apply IH. now apply nodeDraggingFrom_move.
Qed.

Lemma setDelta_lookup ovIdx v (l : list Delta) :
  length (setDelta ovIdx v l) = Nat.max (length l) (S ovIdx)
  /\ setDelta ovIdx v l !! ovIdx = Some v
  /\ forall j, j <> ovIdx -> (j < Nat.max (length l) (S ovIdx))%nat ->
       setDelta ovIdx v l !! j = Some (default zeroDelta (l !! j)).
Proof.
  unfold setDelta.
  assert (length (l ++ replicate (S ovIdx - length l) zeroDelta)
          = Nat.max (length l) (S ovIdx)) as Hlen.
  { rewrite length_app, length_replicate. lia. }
  split; [now rewrite length_insert|]. split.
  - apply list_lookup_insert_eq. lia.
  - intros j Hj Hlt. rewrite list_lookup_insert_ne by congruence.
    destruct (decide (j < length l)%nat) as [Hin|Hout].
    + rewrite lookup_app_l by assumption.
      destruct (lookup_lt_is_Some_2 l j Hin) as [x ->]. reflexivity.
    + rewrite lookup_app_r by lia. rewrite (lookup_ge_None_2 l j) by lia. cbn.
      apply lookup_replicate_2. lia.
Qed.

(** X14. A node drag works from the snapshot taken at the press: when the
    pointer ends at least 2 pixels away from the press, the dragged entry of
    the connection's override array is its snapshot value plus the total
    displacement divided by the zoom, whatever the moves in between; the
    other entries of the array are those of the snapshot (zero where it had
    none), and no other connection, block position or waypoint changes. *)
Theorem node_drag_from_snapshot (s : State) (connIdx ovIdx : nat) (origin final : Point)
    (moves : list Point) :
  ~ within 2 origin final ->
  exists s' arr,
    run blocks connections s
        (NodeMouseDown connIdx (S ovIdx) origin :: (MouseMove <$> moves ++ [final])) = Some s'
    /\ connPointOverrides (overrides s') !! connIdx = Some arr
    /\ (let snapshot := default [] (connPointOverrides (overrides s) !! connIdx) in
        arr !! ovIdx
        = Some (nodeDraggedTo (zoom s) (default zeroDelta (snapshot !! ovIdx)) origin final)
        /\ length arr = Nat.max (length snapshot) (S ovIdx)
        /\ forall j, j <> ovIdx -> (j < length arr)%nat ->
             arr !! j = Some (default zeroDelta (snapshot !! j)))
    /\ (forall k, k <> connIdx ->
          connPointOverrides (overrides s') !! k = connPointOverrides (overrides s) !! k)
    /\ blockPositionOverrides (overrides s') = blockPositionOverrides (overrides s)
    /\ connWaypoints (overrides s') = connWaypoints (overrides s).
Proof.
  intros Hfar.
  set (s0 := handleNodeMouseDown s connIdx (S ovIdx) origin).
  assert (nodeDraggingFrom s connIdx (S ovIdx) origin s0) as H0.
  { unfold nodeDraggingFrom, s0. cbn. repeat split; auto. }
  pose proof (nodeDraggingFrom_moves s connIdx (S ovIdx) origin s0 moves H0) as Hm.
  set (s1 := foldl handleCanvasMouseMove s0 moves) in *.
  pose proof (nodeDraggingFrom_move s connIdx (S ovIdx) origin s1 final Hm)
    as (_ & _ & _ & _ & Hbp & Hwp & Hpo).
  destruct Hm as (Hn & Hstart & Hbase & Hz & _ & _ & _).
  set (snapshot := default [] (connPointOverrides (overrides s) !! connIdx)) in *.
  exists (handleCanvasMouseMove s1 final),
         (setDelta ovIdx (nodeDraggedTo (zoom s) (default zeroDelta (snapshot !! ovIdx))
                                        origin final) snapshot).
  split.
  { rewrite run_cons. cbn [step mbind option_bind]. fold s0.
    rewrite run_moves, foldl_app. reflexivity. }
  split.
  { unfold handleCanvasMouseMove. rewrite Hn, Hstart, Hbase, Hz.
    destruct (bool_decide (Rabs (px final - px origin) < 2)
              && bool_decide (Rabs (py final - py origin) < 2)) eqn:Hth.
    - exfalso. apply Hfar. apply andb_true_iff in Hth as [H1 H2].
      split; eapply bool_decide_eq_true; eassumption.
    - cbn. now rewrite lookup_insert_eq. }
  split; [|repeat split; assumption].
  destruct (setDelta_lookup ovIdx
              (nodeDraggedTo (zoom s) (default zeroDelta (snapshot !! ovIdx)) origin final)
              snapshot) as (Hlen & Hat & Hother).
  cbv zeta. split; [exact Hat|]. split; [exact Hlen|].
  intros j Hj Hlt. apply Hother; [assumption|]. now rewrite <- Hlen.
Qed.

End GestureFacts.

Section ClickFacts.
Import Viewer Interaction Drags.
Local Open Scope R_scope.
Context (blocks : list Block) (connections : list BlockConnection).

(** X15. A click on a block commits nothing: after a press on a block,
    pointer moves that all stay within 5 pixels of the press on both axes,
    and the release, the overrides and the view are what they were. *)
Theorem block_click_commits_nothing (s : State) (A : string) (bx by_ : R) (origin : Point)
    (moves : list Point) :
  draggedNodeRef s = None ->
  Forall (within 5 origin) moves ->
  exists s',
    run blocks connections s
        (BlockMouseDown A bx by_ origin :: (MouseMove <$> moves) ++ [MouseUp]) = Some s'
    /\ overrides s' = overrides s /\ zoom s' = zoom s /\ pan s' = pan s.
Proof.
  intros Hnode Hnear.
  set (s0 := handleBlockMouseDown s A bx by_ origin).
  assert (foldl handleCanvasMouseMove s0 moves = s0) as Hmoves.
  { induction Hnear as [|m ms [Hx Hy] _ IH]; [reflexivity|].
    cbn [foldl].
    assert (handleCanvasMouseMove s0 m = s0) as ->; [|exact IH].
    unfold handleCanvasMouseMove, s0. cbn. rewrite Hnode.
    now rewrite !bool_decide_eq_true_2 by assumption. }
  exists (handleCanvasMouseUp s0). split; [|repeat split].
  rewrite run_cons. cbn [step mbind option_bind]. fold s0.
  rewrite run_snoc, run_moves, Hmoves. reflexivity.
Qed.

End ClickFacts.

Section GestureExamples.
Import Viewer Interaction Drags Samples.
Local Open Scope R_scope.

(** A pinch far out, then the zoom-in button. *)
Lemma run_zoom_range_witness :
  0.2 <= zoom (zoomIn (onWheel initialState (mkWheel true 0 1000 0 0))) <= 5.
Proof.
  apply (run_zoom_range [] [] [Wheel (mkWheel true 0 1000 0 0); ZoomInClick]).
  reflexivity.
Defined.



(** The first interior node of the connection of the levelled pair dragged
    20 pixels down. *)
Lemma node_drag_from_snapshot_witness :
  exists s' arr,
    run [] [] (withOverrides levelOverrides initialState)
        (NodeMouseDown 0 1 (mkPoint 300 46)
           :: (MouseMove <$> [mkPoint 310 50] ++ [mkPoint 300 66])) = Some s'
    /\ connPointOverrides (overrides s') !! 0%nat = Some arr
    /\ arr !! 0%nat
       = Some (nodeDraggedTo 1 (mkDelta 0 10) (mkPoint 300 46) (mkPoint 300 66))
    /\ arr !! 1%nat = Some (mkDelta 0 10)
    /\ connWaypoints (overrides s') = connWaypoints levelOverrides.
Proof.
  destruct (node_drag_from_snapshot [] [] (withOverrides levelOverrides initialState)
              0 0 (mkPoint 300 46) (mkPoint 300 66) [mkPoint 310 50])
    as (s' & arr & Hrun & Harr & (Hat & Hlen & Hother) & _ & _ & Hwp).
  { unfold within. cbn [px py]. intros [_ H]. rewrite Rabs_right in H; lra. }
  exists s', arr. split; [exact Hrun|]. split; [exact Harr|].
  split; [exact Hat|]. split; [|exact Hwp].
  apply (Hother 1%nat); [lia|]. rewrite Hlen. change (1 < Nat.max 2 1)%nat. cbn. lia.
Defined.

(** A press on block ["A"] with a tremble of 3 pixels. *)
Lemma block_click_commits_nothing_witness :
  exists s',
    run [] [] initialState
        (BlockMouseDown "A" 80 90 (mkPoint 100 100)
           :: (MouseMove <$> [mkPoint 103 100]) ++ [MouseUp]) = Some s'
    /\ overrides s' = noOverrides /\ zoom s' = 1 /\ pan s' = mkPoint 0 0.
Proof.
  apply (block_click_commits_nothing [] [] initialState "A" 80 90 (mkPoint 100 100)
           [mkPoint 103 100]); [reflexivity|].
  repeat constructor; cbn [px py].
  - rewrite Rabs_right; lra.
  - replace (100 - 100) with 0 by lra. rewrite Rabs_R0. lra.
Defined.

End GestureExamples.

(** ** The persistence bridge over whole runs *)

Section SaverRuns.
Import Viewer Persistence.

Lemma clearSaveTimer_empty w : timers w = ∅ -> timers (clearSaveTimer w) = ∅.
Proof.
  intros Hw. unfold clearSaveTimer. destruct (layoutSaveTimer w); cbn; rewrite Hw;
    [apply delete_empty|reflexivity].
Qed.

Lemma clearSaveTimer_frame w :
  storage (clearSaveTimer w) = storage w
  /\ storageFull (clearSaveTimer w) = storageFull w
  /\ nextTimer (clearSaveTimer w) = nextTimer w.
Proof. unfold clearSaveTimer. destruct (layoutSaveTimer w); repeat split. Qed.

Lemma runCleanup_storageFull w : storageFull (runCleanup w) = storageFull w.
Proof.
  unfold runCleanup, clearSaveTimer.
  destruct (saveCleanup w), (layoutSaveTimer w); reflexivity.
Qed.

(** X16. A change of the overrides is written once and late: it cancels the
    write a previous change left pending and schedules exactly one write, of
    the collections as they are now; the store is not touched until that
    timer fires, and once it has fired a fresh viewer of the design loads
    exactly those collections. *)
Theorem debounced_save_round_trip (w : Saver) (d : string) (ov : Overrides) :
  saverReachable w ->
  storageFull w = false ->
  d <> "" ->
  allEmpty ov = false ->
  let w1 := saverStep w (Changed (Some d) ov) in
  let w2 := saverStep w1 (Fired (nextTimer w)) in
  timers w1 = {[ nextTimer w := (d, snapshot ov) ]}
  /\ storage w1 = storage w
  /\ timers w2 = ∅
  /\ mount (Some d) (storage w2) = LoadDone ov.
Proof.
  intros Hreach Hfull Hd Hov w1 w2.
  apply saverReachable_inv in Hreach.
  pose proof (runCleanup_timers w Hreach) as Hclean.
  pose proof (clearSaveTimer_empty _ Hclean) as Hclear.
  destruct (clearSaveTimer_frame (runCleanup w)) as (Hs & Hf & Hn).
  assert (w1 = mkSaver (storage w) false {[ nextTimer w := (d, snapshot ov) ]}
                       (S (nextTimer w)) (Some (nextTimer w)) true) as Hw1.
  { unfold w1. cbn [saverStep]. unfold rerunSaveEffect, saveEffect. cbn [truthyId].
    rewrite decide_False by assumption. rewrite Hov.
    rewrite Hs, Hf, Hn, Hclear, runCleanup_storage, runCleanup_storageFull,
      runCleanup_nextTimer, Hfull.
    reflexivity. }
  assert (w2 = mkSaver (<[getLayoutKey d := stringify (snapshot ov)]> (storage w)) false ∅
                       (S (nextTimer w)) (Some (nextTimer w)) true) as Hw2.
  { unfold w2. rewrite Hw1. cbn [saverStep]. unfold fireTimer. cbn [timers].
    rewrite lookup_singleton_eq. cbn. now rewrite delete_singleton_eq. }
  rewrite Hw1, Hw2. cbn [timers storage]. repeat split.
  apply mount_after_save; [assumption|]. apply lookup_insert_eq.
Qed.


(** X18. A store that refuses writes is left alone: whatever changes,
    timer firings and unmounts follow, the store keeps its content. *)
Theorem full_storage_untouched (w : Saver) (events : list SaverEvent) :
  storageFull w = true ->
  storage (foldl saverStep w events) = storage w
  /\ storageFull (foldl saverStep w events) = true.
Proof.
  intros Hfull. induction events as [|e es IH] using rev_ind; [now split|].
  rewrite foldl_app. cbn [foldl]. destruct IH as [Hs Hf].
  set (w0 := foldl saverStep w es) in *.
  destruct e as [designId ov|t|]; cbn [saverStep].
  - unfold rerunSaveEffect, saveEffect.
    destruct (clearSaveTimer_frame (runCleanup w0)) as (Hs' & Hf' & _).
    destruct (truthyId designId); [destruct (allEmpty ov)|]; cbn;
      rewrite ?Hs', ?Hf', runCleanup_storage, runCleanup_storageFull; now split.
  - unfold fireTimer. destruct (timers w0 !! t) as [[d data]|]; [|now split].
    cbn. unfold saveLayout. rewrite Hf. now split.
  - cbn. rewrite runCleanup_storage, runCleanup_storageFull. now split.
Qed.


End SaverRuns.

Section SaverRunsExample.
Import Viewer Persistence Samples.

(** The first drag of a fresh viewer of design ["d1"]. *)
Lemma debounced_save_round_trip_witness :
  let w1 := saverStep (freshSaver ∅ false) (Changed (Some "d1") movedOverrides) in
  let w2 := saverStep w1 (Fired 1) in
  timers w1 = {[ 1%nat := ("d1", snapshot movedOverrides) ]}
  /\ storage w1 = ∅
  /\ timers w2 = ∅
  /\ mount (Some "d1") (storage w2) = LoadDone movedOverrides.
Proof.
  apply (debounced_save_round_trip (freshSaver ∅ false) "d1" movedOverrides).
  - apply reach_fresh.
  - reflexivity.
  - discriminate.
  - reflexivity.
Defined.


(** The same drag against a store that refuses writes. *)
Lemma full_storage_untouched_witness :
  storage (foldl saverStep (freshSaver ∅ true)
                 [Changed (Some "d1") movedOverrides; Fired 1]) = ∅
  /\ storageFull (foldl saverStep (freshSaver ∅ true)
                        [Changed (Some "d1") movedOverrides; Fired 1]) = true.
Proof.
  apply (full_storage_untouched (freshSaver ∅ true)
           [Changed (Some "d1") movedOverrides; Fired 1]).
  reflexivity.
Defined.

End SaverRunsExample.

(** ** Evenness of the spreading *)

Section SpreadEven.
Import Ordered Router Props.
Local Open Scope R_scope.

Lemma keyMates_offset connections key pos i :
  keyMates connections key !! pos = Some i ->
  get i (connectionOffsets connections)
  = Some (spreadAt pos (length (keyMates connections key))).
Proof.
  intros Hpos.
  assert (i ∈ keyMates connections key) as Hin by (eapply list_elem_of_lookup_2; eassumption).
  apply elem_of_keyMates in Hin as (c & Hc & <-).
  destruct (connectionOffsets_get connections i c Hc) as (pos' & Hpos' & ->).
  assert (pos' = pos) as ->
    by (eapply NoDup_lookup; [apply keyMates_NoDup|eassumption..]).
  reflexivity.
Qed.

(** X20. The connections that share a group key are spread evenly around
    the unspread route: in index order each lies 15 units after the one
    before it, and the offsets of the first and last, second and last but
    one, and so on, are opposite; a connection alone in its group is not
    moved. *)
Theorem connectionOffsets_even_spread (connections : list BlockConnection) (key : string) :
  let group := keyMates connections key in
  let offset := fun i => default 0 (get i (connectionOffsets connections)) in
  Forall (fun i => is_Some (get i (connectionOffsets connections))) group
  /\ (forall pos i j,
        group !! pos = Some i -> group !! S pos = Some j -> offset j = offset i + 15)
  /\ (forall pos i j,
        group !! pos = Some i -> group !! (length group - 1 - pos)%nat = Some j ->
        offset j = - offset i)
  /\ (forall i, group = [i] -> offset i = 0).
Proof.
  intros group offset. split; [|split; [|split]].
  - apply Forall_forall. intros i Hi.
    apply list_elem_of_lookup in Hi as [pos Hpos].
    rewrite (keyMates_offset _ _ _ _ Hpos). eauto.
  - intros pos i j Hi Hj. unfold offset.
    rewrite (keyMates_offset _ _ _ _ Hi), (keyMates_offset _ _ _ _ Hj).
    cbn [from_option Datatypes.id].
    apply lookup_lt_Some in Hj. fold group in Hj |- *.
    unfold spreadAt, CONNECTION_SPREAD.
    destruct (decide (length group = 1%nat)); [lia|].
    rewrite S_INR. lra.
  - intros pos i j Hi Hj. unfold offset.
    rewrite (keyMates_offset _ _ _ _ Hi), (keyMates_offset _ _ _ _ Hj).
    cbn [from_option Datatypes.id].
    apply lookup_lt_Some in Hi. fold group in Hi |- *.
    unfold spreadAt, CONNECTION_SPREAD.
    destruct (decide (length group = 1%nat)); [lra|].
    rewrite !minus_INR by lia. cbn [INR]. lra.
  - intros i Hg. unfold offset.
    rewrite (keyMates_offset connections key 0 i) by (fold group; now rewrite Hg).
    fold group. rewrite Hg. cbn [from_option Datatypes.id length]. unfold spreadAt. rewrite decide_True by reflexivity. lra.
Qed.

End SpreadEven.

(** ** Group frames and canvas size *)

Section CanvasFacts.
Import Ordered Layering Canvas.
Local Open Scope R_scope.

Lemma fold_Rmin_le (rest : list R) a :
  fold_left Rmin rest a <= a /\ forall x, x ∈ rest -> fold_left Rmin rest a <= x.
Proof.
  revert a. induction rest as [|b rest IH]; intros a; cbn.
  - split; [lra|]. intros x Hx. now apply elem_of_nil in Hx.
  - destruct (IH (Rmin a b)) as [H1 H2].
    pose proof (Rmin_l a b). pose proof (Rmin_r a b). split; [lra|].
    intros x Hx. apply elem_of_cons in Hx as [->|Hx]; [lra|auto].
Qed.

Lemma fold_Rmax_ge (rest : list R) a :
  a <= fold_left Rmax rest a /\ forall x, x ∈ rest -> x <= fold_left Rmax rest a.
Proof.
  revert a. induction rest as [|b rest IH]; intros a; cbn.
  - split; [lra|]. intros x Hx. now apply elem_of_nil in Hx.
  - destruct (IH (Rmax a b)) as [H1 H2].
    pose proof (Rmax_l a b). pose proof (Rmax_r a b). split; [lra|].
    intros x Hx. apply elem_of_cons in Hx as [->|Hx]; [lra|auto].
Qed.

Lemma minOf_le l x : x ∈ l -> minOf l <= x.
Proof.
  destruct l as [|a rest]; [intros Hx; now apply elem_of_nil in Hx|].
  cbn. destruct (fold_Rmin_le rest a) as [H1 H2].
  intros Hx. apply elem_of_cons in Hx as [->|Hx]; auto.
Qed.

Lemma maxOf_ge l x : x ∈ l -> x <= maxOf l.
Proof.
  destruct l as [|a rest]; [intros Hx; now apply elem_of_nil in Hx|].
  cbn. destruct (fold_Rmax_ge rest a) as [H1 H2].
  intros Hx. apply elem_of_cons in Hx as [->|Hx]; auto.
Qed.

(** The map the first loop builds: one entry per host, holding the
    rectangles of that host. *)
Lemma groupMap_spec layout :
  NoDup (map fst (groupMap layout))
  /\ (forall hw l, get hw (groupMap layout) = Some l ->
        l <> [] /\ forall lb, lb ∈ l -> lb ∈ layout /\ truthy_hw (lb_block lb) = Some hw)
  /\ (forall lb hw, lb ∈ layout -> truthy_hw (lb_block lb) = Some hw ->
        exists l, get hw (groupMap layout) = Some l /\ lb ∈ l).
Proof.
  unfold groupMap.
  assert (forall todo done_ (m : list (string * list LayoutBlock)),
    (NoDup (map fst m)
     /\ (forall hw l, get hw m = Some l ->
           l <> [] /\ forall lb, lb ∈ l -> lb ∈ done_ /\ truthy_hw (lb_block lb) = Some hw)
     /\ (forall lb hw, lb ∈ done_ -> truthy_hw (lb_block lb) = Some hw ->
           exists l, get hw m = Some l /\ lb ∈ l)) ->
    let m' := fold_left (fun m lb =>
                  match truthy_hw (lb_block lb) with
                  | Some hw => push hw lb m
                  | None => m
                  end) todo m in
    NoDup (map fst m')
    /\ (forall hw l, get hw m' = Some l ->
          l <> [] /\ forall lb, lb ∈ l ->
                       lb ∈ done_ ++ todo /\ truthy_hw (lb_block lb) = Some hw)
    /\ (forall lb hw, lb ∈ done_ ++ todo -> truthy_hw (lb_block lb) = Some hw ->
          exists l, get hw m' = Some l /\ lb ∈ l)) as Hgen.
  { induction todo as [|lb0 todo IH]; intros done_ m Hinv; cbn.
    - now rewrite app_nil_r.
    - replace (done_ ++ lb0 :: todo) with ((done_ ++ [lb0]) ++ todo)
        by now rewrite <- app_assoc.
      apply IH. destruct Hinv as (Hnd & Hget & Hcov).
      destruct (truthy_hw (lb_block lb0)) as [hw0|] eqn:Hhw0.
      + split; [now apply set_keys|]. split.
        * intros hw l. rewrite get_push.
          destruct (decide (hw0 = hw)) as [->|Hne].
          -- intros [= <-]. split; [now destruct (default [] (get hw m))|].
             intros lb Hlb. rewrite elem_of_app in Hlb |- *.
             destruct Hlb as [Hlb|Hlb].
             ++ destruct (get hw m) as [l0|] eqn:Hl0; [|now apply elem_of_nil in Hlb].
                destruct (Hget hw l0 Hl0) as [_ Hl]. destruct (Hl lb Hlb). tauto.
             ++ apply list_elem_of_singleton in Hlb as ->.
                split; [right; now apply list_elem_of_singleton|assumption].
          -- intros Hl. destruct (Hget hw l Hl) as [Hne' Hmem]. split; [assumption|].
             intros lb Hlb. destruct (Hmem lb Hlb). rewrite elem_of_app. tauto.
        * intros lb hw Hlb Hhw. rewrite get_push. apply elem_of_app in Hlb as [Hlb|Hlb].
          -- destruct (Hcov lb hw Hlb Hhw) as (l & Hl & Hin).
             destruct (decide (hw0 = hw)) as [->|Hne]; [|eauto].
             rewrite Hl. cbn. eexists. split; [reflexivity|]. rewrite elem_of_app. tauto.
          -- apply list_elem_of_singleton in Hlb as ->.
             assert (hw0 = hw) as -> by congruence.
             rewrite decide_True by reflexivity. eexists. split; [reflexivity|].
             rewrite elem_of_app. right. now apply list_elem_of_singleton.
      + split; [assumption|]. split.
        * intros hw l Hl. destruct (Hget hw l Hl) as [Hne' Hmem]. split; [assumption|].
          intros lb Hlb. destruct (Hmem lb Hlb). rewrite elem_of_app. tauto.
        * intros lb hw Hlb Hhw. apply elem_of_app in Hlb as [Hlb|Hlb]; [eauto|].
          apply list_elem_of_singleton in Hlb as ->. congruence. }
  apply (Hgen layout [] []). split; [constructor|]. split.
  - discriminate.
  - intros lb hw Hlb. now apply elem_of_nil in Hlb.
Qed.

Lemma frameOf_framed colorIdx name groupBlocks lb :
  lb ∈ groupBlocks -> framed (frameOf colorIdx (name, groupBlocks)) lb.
Proof.
  intros Hlb. unfold framed, frameOf. cbn.
  assert (minOf (map lb_x groupBlocks) <= lb_x lb) as H1.
  { apply minOf_le, list_elem_of_fmap. eauto. }
  assert (minOf (map lb_y groupBlocks) <= lb_y lb) as H2.
  { apply minOf_le, list_elem_of_fmap. eauto. }
  assert (lb_x lb + lb_width lb <= maxOf (map (fun lb => lb_x lb + lb_width lb) groupBlocks))
    as H3.
  { apply maxOf_ge, list_elem_of_fmap. eauto. }
  assert (lb_y lb + lb_height lb <= maxOf (map (fun lb => lb_y lb + lb_height lb) groupBlocks))
    as H4.
  { apply maxOf_ge, list_elem_of_fmap. eauto. }
  repeat split; lra.
Qed.

Lemma frameOf_names (m : list (string * list LayoutBlock)) o :
  map hg_name (imap (fun i => frameOf (o + i)) m) = map fst m.
Proof.
  revert o. induction m as [|[name l] m IH]; intros o; [reflexivity|].
  cbn. f_equal. rewrite <- (IH (S o)). f_equal. apply imap_ext. intros i e _.
  unfold compose. f_equal. lia.
Qed.

(** X21. The hardware frames: there is one frame per host, holding exactly
    the rectangles of the blocks on that host, and every such rectangle lies
    inside its frame, at least 20 units from the left, right and bottom
    edges and 30 units below the top edge. *)
Theorem hardwareGroups_frames (layout : list LayoutBlock) :
  NoDup (map hg_name (hardwareGroups layout))
  /\ Forall (fun g =>
        hg_blocks g <> []
        /\ Forall (fun lb => lb ∈ layout
                             /\ truthy_hw (lb_block lb) = Some (hg_name g)
                             /\ framed g lb)
                  (hg_blocks g))
       (hardwareGroups layout)
  /\ Forall (fun lb =>
        match truthy_hw (lb_block lb) with
        | Some hw => exists g, g ∈ hardwareGroups layout /\ hg_name g = hw /\ lb ∈ hg_blocks g
        | None => Forall (fun g => lb ∉ hg_blocks g) (hardwareGroups layout)
        end)
       layout.
Proof.
  destruct (groupMap_spec layout) as (Hnd & Hget & Hcov).
  assert (forall g, g ∈ hardwareGroups layout ->
            get (hg_name g) (groupMap layout) = Some (hg_blocks g)
            /\ exists i, g = frameOf i (hg_name g, hg_blocks g)) as Hframe.
  { intros g Hg. unfold hardwareGroups in Hg.
    apply elem_of_lookup_imap in Hg as (i & [name l] & -> & Hi). cbn. split; [|eauto].
    apply elem_of_get; [assumption|]. eapply list_elem_of_lookup_2; eassumption. }
  split; [|split].
  - unfold hardwareGroups.
    change (imap frameOf (groupMap layout))
      with (imap (fun i => frameOf (0 + i)) (groupMap layout)).
    now rewrite frameOf_names.
  - apply Forall_forall. intros g Hg. destruct (Hframe g Hg) as (Hg' & i & Hi).
    destruct (Hget _ _ Hg') as [Hne Hmem]. split; [assumption|].
    apply Forall_forall. intros lb Hlb. destruct (Hmem lb Hlb) as [Hin Hhw].
    split; [assumption|]. split; [assumption|].
    rewrite Hi. now apply frameOf_framed.
  - apply Forall_forall. intros lb Hlb.
    destruct (truthy_hw (lb_block lb)) as [hw|] eqn:Hhw.
    + destruct (Hcov lb hw Hlb Hhw) as (l & Hl & Hin).
      apply get_elem_of in Hl. apply list_elem_of_lookup in Hl as [i Hi].
      exists (frameOf i (hw, l)). split; [|split; [reflexivity|assumption]].
      unfold hardwareGroups. apply elem_of_lookup_imap. eauto.
    + apply Forall_forall. intros g Hg Hin. destruct (Hframe g Hg) as (Hg' & _).
      destruct (Hget _ _ Hg') as [_ Hmem]. destruct (Hmem lb Hin). congruence.
Qed.

(** X22. The canvas is at least 600 by 400 and reaches at least 60 units
    past the right and bottom edges of every block rectangle and of every
    hardware frame. *)
Theorem svg_canvas_contains (layout : list LayoutBlock) :
  600 <= svgWidth layout
  /\ 400 <= svgHeight layout
  /\ Forall (fun lb => lb_x lb + lb_width lb + 60 <= svgWidth layout
                       /\ lb_y lb + lb_height lb + 60 <= svgHeight layout) layout
  /\ Forall (fun g => hg_x g + hg_width g + 60 <= svgWidth layout
                      /\ hg_y g + hg_height g + 60 <= svgHeight layout)
            (hardwareGroups layout).
Proof.
  destruct layout as [|lb0 rest]; [cbn; repeat split; try lra; constructor|].
  set (layout := lb0 :: rest).
  set (bw := maxOf (map (fun lb => lb_x lb + lb_width lb + PADDING) layout)).
  set (bh := maxOf (map (fun lb => lb_y lb + lb_height lb + PADDING) layout)).
  set (gw := match hardwareGroups layout with
             | [] => 0
             | gs => maxOf (map (fun g => hg_x g + hg_width g + PADDING) gs)
             end).
  set (gh := match hardwareGroups layout with
             | [] => 0
             | gs => maxOf (map (fun g => hg_y g + hg_height g + PADDING) gs)
             end).
  change (svgWidth layout) with (Rmax (Rmax 600 bw) gw).
  change (svgHeight layout) with (Rmax (Rmax 400 bh) gh).
  pose proof (Rmax_l (Rmax 600 bw) gw). pose proof (Rmax_r (Rmax 600 bw) gw).
  pose proof (Rmax_l 600 bw). pose proof (Rmax_r 600 bw).
  pose proof (Rmax_l (Rmax 400 bh) gh). pose proof (Rmax_r (Rmax 400 bh) gh).
  pose proof (Rmax_l 400 bh). pose proof (Rmax_r 400 bh).
  split; [lra|]. split; [lra|]. split.
  - apply Forall_forall. intros lb Hlb.
    assert (lb_x lb + lb_width lb + PADDING <= bw) as Hw.
    { apply maxOf_ge, list_elem_of_fmap. eauto. }
    assert (lb_y lb + lb_height lb + PADDING <= bh) as Hh.
    { apply maxOf_ge, list_elem_of_fmap. eauto. }
    unfold PADDING in *. lra.
  - apply Forall_forall. intros g Hg.
    assert (hg_x g + hg_width g + PADDING <= gw) as Hw.
    { unfold gw. destruct (hardwareGroups layout) as [|g0 gs] eqn:Hgs;
        [now apply elem_of_nil in Hg|].
      apply maxOf_ge, list_elem_of_fmap. eauto. }
    assert (hg_y g + hg_height g + PADDING <= gh) as Hh.
    { unfold gh. destruct (hardwareGroups layout) as [|g0 gs] eqn:Hgs;
        [now apply elem_of_nil in Hg|].
      apply maxOf_ge, list_elem_of_fmap. eauto. }
    unfold PADDING in *. lra.
Qed.

End CanvasFacts.

(** ** Label anchors *)

Section MidpointFacts.
Import Canvas.
Local Open Scope R_scope.

Lemma midpointStep_inv points done_ st i :
  midpointInv points done_ st ->
  midpointInv points (done_ ++ [i]) (midpointStep points st i).
Proof.
  destruct st as [[[bh bhl] li] ll]. intros (Hpos & Hmax & Hlong & Hhoriz).
  unfold midpointStep.
  destruct (points !! i) as [p|] eqn:Hp; [destruct (points !! S i) as [q|] eqn:Hq|].
  2,3: (split; [assumption|]; split; [|split; [assumption|]]);
       [intros j a b Hj Ha Hb; apply elem_of_app in Hj as [Hj|Hj];
          [eauto|apply list_elem_of_singleton in Hj as ->; congruence]
       |destruct bh as [k|];
          [destruct Hhoriz as (a & b & Ha & Hb & Hl & Hlen & Hbest);
           exists a, b; repeat split; try assumption; try apply Hl;
           intros j a' b' Hj Ha' Hb'; apply elem_of_app in Hj as [Hj|Hj];
             [eauto|apply list_elem_of_singleton in Hj as ->; congruence]
          |destruct Hhoriz as [Hz Hnone]; split; [assumption|];
           intros j a b Hj Ha Hb; apply elem_of_app in Hj as [Hj|Hj];
             [eauto|apply list_elem_of_singleton in Hj as ->; congruence]]].
  cbv zeta. fold (manhattan p q).
  pose proof (Rabs_pos (px q - px p)) as Hdx. pose proof (Rabs_pos (py q - py p)) as Hdy.
  assert (forall j a b, j ∈ done_ ++ [i] -> points !! j = Some a -> points !! S j = Some b ->
            (j ∈ done_) \/ (a = p /\ b = q)) as Hcase.
  { intros j a b Hj Ha Hb. apply elem_of_app in Hj as [Hj|Hj]; [now left|].
    apply list_elem_of_singleton in Hj as ->. right. split; congruence. }
  split; [|split; [|split]].
  - destruct (bool_decide (manhattan p q > ll)) eqn:Hgt; cbn [fst snd]; [|assumption].
    apply bool_decide_eq_true in Hgt. lra.
  - intros j a b Hj Ha Hb.
    destruct (bool_decide (manhattan p q > ll)) eqn:Hgt; cbn [fst snd].
    + apply bool_decide_eq_true in Hgt.
      destruct (Hcase j a b Hj Ha Hb) as [Hd|[-> ->]]; [|lra].
      specialize (Hmax j a b Hd Ha Hb). lra.
    + apply bool_decide_eq_false in Hgt.
      destruct (Hcase j a b Hj Ha Hb) as [Hd|[-> ->]]; [eauto|lra].
  - destruct (bool_decide (manhattan p q > ll)) eqn:Hgt; cbn [fst snd]; [|assumption].
    right. exists p, q. auto.
  - destruct (bool_decide (Rabs (py q - py p) < 1) && bool_decide (Rabs (px q - px p) > bhl)
              && bool_decide (Rabs (px q - px p) >= 30)) eqn:Hcond; cbn [fst snd].
    + apply andb_true_iff in Hcond as [Hcond H30]. apply andb_true_iff in Hcond as [H1 Hgt].
      apply bool_decide_eq_true in H1, Hgt, H30.
      exists p, q. split; [assumption|]. split; [assumption|]. split; [split; assumption|].
      split; [reflexivity|].
      intros j a' b' Hj Ha' Hb' Hl. destruct (Hcase j a' b' Hj Ha' Hb') as [Hd|[-> ->]]; [|lra].
      destruct bh as [k|].
      * destruct Hhoriz as (a & b & _ & _ & _ & _ & Hbest).
        specialize (Hbest j a' b' Hd Ha' Hb' Hl). lra.
      * destruct Hhoriz as [_ Hnone]. now destruct (Hnone j a' b' Hd Ha' Hb').
    + assert (labelSegment p q -> Rabs (px q - px p) <= bhl) as Hsmall.
      { intros [H1 H30]. apply andb_false_iff in Hcond as [Hcond|Hcond].
        - apply andb_false_iff in Hcond as [Hcond|Hcond];
            apply bool_decide_eq_false in Hcond; lra.
        - apply bool_decide_eq_false in Hcond. lra. }
      destruct bh as [k|].
      * destruct Hhoriz as (a & b & Ha & Hb & Hl & Hlen & Hbest).
        exists a, b. repeat split; try assumption; try apply Hl.
        intros j a' b' Hj Ha' Hb' Hl'.
        destruct (Hcase j a' b' Hj Ha' Hb') as [Hd|[-> ->]]; [eauto|auto].
      * destruct Hhoriz as [Hz Hnone]. split; [assumption|].
        intros j a b Hj Ha Hb Hl.
        destruct (Hcase j a b Hj Ha Hb) as [Hd|[-> ->]]; [now apply (Hnone j a b)|].
        specialize (Hsmall Hl). destruct Hl as [_ H30]. lra.
Qed.

Lemma midpoint_fold_inv points l done_ st :
  midpointInv points done_ st ->
  midpointInv points (done_ ++ l) (fold_left (midpointStep points) l st).
Proof.
  revert done_ st. induction l as [|i l IH]; intros done_ st Hinv; cbn.
  - now rewrite app_nil_r.
  - replace (done_ ++ i :: l) with ((done_ ++ [i]) ++ l) by now rewrite <- app_assoc.
    apply IH. now apply midpointStep_inv.
Qed.

(** X23. On a path of at least two points [getPathMidpoint] never raises and
    the label anchor is the midpoint of a segment of the path: of the
    longest segment that is level to within a unit and at least 30 long when
    there is such a segment, of a longest segment (by |dx| + |dy|)
    otherwise. *)
Theorem getPathMidpoint_on_path (points : list Point) :
  (2 <= length points)%nat ->
  exists i a b,
    points !! i = Some a /\ points !! S i = Some b
    /\ getPathMidpoint points = Some (mkPoint ((px a + px b) / 2) ((py a + py b) / 2))
    /\ forall j a' b', points !! j = Some a' -> points !! S j = Some b' ->
         (labelSegment a' b' ->
          labelSegment a b /\ Rabs (px b' - px a') <= Rabs (px b - px a))
         /\ (~ labelSegment a b -> manhattan a' b' <= manhattan a b).
Proof.
  intros Hlen. unfold getPathMidpoint.
  rewrite bool_decide_eq_false_2 by lia.
  pose proof (midpoint_fold_inv points (seq 0 (length points - 1)) [] (None, 0, 0%nat, 0))
    as Hinv.
  cbn [app] in Hinv.
  destruct (fold_left (midpointStep points) (seq 0 (length points - 1)) (None, 0, 0%nat, 0))
    as [[[bh bhl] li] ll].
  destruct Hinv as (Hpos & Hmax & Hlong & Hhoriz).
  { split; [lra|]. split; [intros j a b Hj; now apply elem_of_nil in Hj|].
    split; [now left|]. split; [reflexivity|].
    intros j a b Hj. now apply elem_of_nil in Hj. }
  assert (forall j b', points !! S j = Some b' -> j ∈ seq 0 (length points - 1)) as Hdone.
  { intros j b' Hb'. apply lookup_lt_Some in Hb'. apply elem_of_seq. lia. }
  destruct bh as [k|]; cbn [from_option Datatypes.id].
  - destruct Hhoriz as (a & b & Ha & Hb & Hl & Hbhl & Hbest).
    exists k, a, b. rewrite Ha, Hb. cbn [mbind option_bind].
    split; [reflexivity|]. split; [reflexivity|]. split; [reflexivity|].
    intros j a' b' Ha' Hb'. split.
    + intros Hl'. split; [exact Hl|]. rewrite <- Hbhl. eapply Hbest; eauto.
    + intros Hnot. now destruct Hnot.
  - destruct Hhoriz as [_ Hnone].
    assert (exists a b, points !! li = Some a /\ points !! S li = Some b
                        /\ ll <= manhattan a b) as (a & b & Ha & Hb & Hll).
    { destruct Hlong as [[-> ->]|(a & b & Ha & Hb & <-)].
      - destruct (lookup_lt_is_Some_2 points 0 ltac:(lia)) as [a Ha].
        destruct (lookup_lt_is_Some_2 points 1 ltac:(lia)) as [b Hb].
        exists a, b. split; [assumption|]. split; [assumption|].
        unfold manhattan.
        pose proof (Rabs_pos (px b - px a)). pose proof (Rabs_pos (py b - py a)). lra.
      - exists a, b. split; [assumption|]. split; [assumption|]. lra. }
    exists li, a, b. rewrite Ha, Hb. cbn [mbind option_bind].
    split; [reflexivity|]. split; [reflexivity|]. split; [reflexivity|].
    intros j a' b' Ha' Hb'. split.
    + intros Hl'. exfalso. eapply Hnone; eauto.
    + intros _. specialize (Hmax j a' b' (Hdone j b' Hb') Ha' Hb'). lra.
Qed.

End MidpointFacts.

Section CanvasExamples.
Import Canvas Samples.
Local Open Scope R_scope.

(** A path with a short level run and a long vertical one. *)
Lemma getPathMidpoint_on_path_witness :
  exists i a b,
    [mkPoint 0 0; mkPoint 10 0; mkPoint 10 100] !! i = Some a
    /\ [mkPoint 0 0; mkPoint 10 0; mkPoint 10 100] !! S i = Some b
    /\ getPathMidpoint [mkPoint 0 0; mkPoint 10 0; mkPoint 10 100]
       = Some (mkPoint ((px a + px b) / 2) ((py a + py b) / 2))
    /\ forall j a' b',
         [mkPoint 0 0; mkPoint 10 0; mkPoint 10 100] !! j = Some a' ->
         [mkPoint 0 0; mkPoint 10 0; mkPoint 10 100] !! S j = Some b' ->
         (labelSegment a' b' ->
          labelSegment a b /\ Rabs (px b' - px a') <= Rabs (px b - px a))
         /\ (~ labelSegment a b -> manhattan a' b' <= manhattan a b).
Proof.
  apply (getPathMidpoint_on_path [mkPoint 0 0; mkPoint 10 0; mkPoint 10 100]).
  cbn. lia.
Defined.

End CanvasExamples.

(** ** Grabbing a node of a connection *)

Section NodeGrab.
Import Router Viewer Interaction Props.
Local Open Scope R_scope.

Lemma nearestNode_fold (points : list Point) (p : Point) l done_ (st : option (nat * R)) :
  match st with
  | None => forall j, j ∈ done_ -> points !! j = None
  | Some (pi, d) =>
      pi ∈ done_
      /\ exists q, points !! pi = Some q /\ d = dist q p
                   /\ forall j q', j ∈ done_ -> points !! j = Some q' -> d <= dist q' p
  end ->
  match fold_left (fun st pi =>
            match points !! pi with
            | Some q =>
                let d := hypot (px q - px p) (py q - py p) in
                if closer d (snd <$> st) then Some (pi, d) else st
            | None => st
            end) l st with
  | None => forall j, j ∈ done_ ++ l -> points !! j = None
  | Some (pi, d) =>
      pi ∈ done_ ++ l
      /\ exists q, points !! pi = Some q /\ d = dist q p
                   /\ forall j q', j ∈ done_ ++ l -> points !! j = Some q' -> d <= dist q' p
  end.
Proof.
  revert done_ st. induction l as [|i l IH]; intros done_ st Hinv; cbn [fold_left].
  - now rewrite app_nil_r.
  - replace (done_ ++ i :: l) with ((done_ ++ [i]) ++ l) by now rewrite <- app_assoc.
    apply IH. clear IH.
    destruct (points !! i) as [q|] eqn:Hq.
    + cbv zeta. fold (dist q p).
      destruct st as [[pi d]|]; cbn [fmap option_fmap option_map snd closer].
      * destruct Hinv as (Hpi & q0 & Hq0 & Hd & Hmin).
        destruct (bool_decide (dist q p < d)) eqn:Hlt.
        -- apply bool_decide_eq_true in Hlt. split; [apply elem_of_app; right; now left|].
           exists q. split; [assumption|]. split; [reflexivity|].
           intros j q' Hj Hq'. apply elem_of_app in Hj as [Hj|Hj].
           ++ specialize (Hmin j q' Hj Hq'). lra.
           ++ apply list_elem_of_singleton in Hj as ->.
              assert (q' = q) as -> by congruence. lra.
        -- apply bool_decide_eq_false in Hlt. split; [apply elem_of_app; now left|].
           exists q0. split; [assumption|]. split; [assumption|].
           intros j q' Hj Hq'. apply elem_of_app in Hj as [Hj|Hj]; [eauto|].
           apply list_elem_of_singleton in Hj as ->.
           assert (q' = q) as -> by congruence. lra.
      * split; [apply elem_of_app; right; now left|].
        exists q. split; [assumption|]. split; [reflexivity|].
        intros j q' Hj Hq'. apply elem_of_app in Hj as [Hj|Hj].
        -- rewrite (Hinv j Hj) in Hq'. discriminate.
        -- apply list_elem_of_singleton in Hj as ->.
           assert (q' = q) as -> by congruence. lra.
    + destruct st as [[pi d]|].
      * destruct Hinv as (Hpi & q0 & Hq0 & Hd & Hmin).
        split; [apply elem_of_app; now left|].
        exists q0. split; [assumption|]. split; [assumption|].
        intros j q' Hj Hq'. apply elem_of_app in Hj as [Hj|Hj]; [eauto|].
        apply list_elem_of_singleton in Hj as ->. congruence.
      * intros j Hj. apply elem_of_app in Hj as [Hj|Hj]; [auto|].
        now apply list_elem_of_singleton in Hj as ->.
Qed.

(** The node the search returns is the nearest interior node. *)
Lemma nearestNode_spec points p pi d :
  nearestNode points p = Some (pi, d) ->
  (1 <= pi <= length points - 2)%nat
  /\ exists q, points !! pi = Some q /\ d = dist q p
               /\ forall j q', (1 <= j <= length points - 2)%nat ->
                    points !! j = Some q' -> d <= dist q' p.
Proof.
  unfold nearestNode. intros Hn.
  pose proof (nearestNode_fold points p (seq 1 (length points - 2)) [] None) as Hfold.
  cbn [app] in Hfold. rewrite Hn in Hfold.
  destruct Hfold as (Hpi & q & Hq & Hd & Hmin).
  { intros j Hj. now apply elem_of_nil in Hj. }
  apply elem_of_seq in Hpi. split; [lia|].
  exists q. split; [assumption|]. split; [assumption|].
  intros j q' Hj Hq'. apply (Hmin j q'); [|assumption]. apply elem_of_seq. lia.
Qed.

(** X24. A press on a connection grabs a node only if the path under the
    pointer has an interior node within 25 units of the pointer, and then it
    grabs the nearest interior node of that path, never a port anchor; the
    drag starts from the pointer position and from the override array the
    connection has at that moment. *)
Theorem handleConnMouseDown_grabs_interior (paths : list (option (list Point)))
    (s : State) (eventConnIdx : nat) (client p : Point) (connIdx pointIdx : nat) :
  draggedNodeRef s = None ->
  draggedNodeRef (handleConnMouseDown paths s eventConnIdx client (Some p))
  = Some (connIdx, pointIdx) ->
  connIdx = nearestConn paths p eventConnIdx
  /\ connDragStart (handleConnMouseDown paths s eventConnIdx client (Some p)) = client
  /\ connDragBaseOverrides (handleConnMouseDown paths s eventConnIdx client (Some p))
     = default [] (connPointOverrides (overrides s) !! connIdx)
  /\ exists points q,
       mjoin (paths !! connIdx) = Some points
       /\ (1 <= pointIdx <= length points - 2)%nat
       /\ points !! pointIdx = Some q
       /\ dist q p < 25
       /\ forall j q', (1 <= j <= length points - 2)%nat -> points !! j = Some q' ->
            dist q p <= dist q' p.
Proof.
  intros Hnone. unfold handleConnMouseDown.
  set (targetIdx := nearestConn paths p eventConnIdx).
  destruct (mjoin (paths !! targetIdx)) as [points|] eqn:Hpoints; [|congruence].
  destruct (bool_decide (3 <= length points)%nat); [|congruence].
  destruct (nearestNode points p) as [[pi d]|] eqn:Hnode; [|congruence].
  destruct (bool_decide (d < 25)) eqn:Hnear; [|congruence].
  apply bool_decide_eq_true in Hnear.
  cbn. intros [= <- <-]. split; [reflexivity|]. split; [reflexivity|]. split; [reflexivity|].
  apply nearestNode_spec in Hnode as (Hrange & q & Hq & -> & Hmin).
  exists points, q. repeat split; try assumption; lia.
Qed.

End NodeGrab.

Section NodeGrabExample.
Import Router Viewer Interaction Props.
Local Open Scope R_scope.

(** A press on the corner of an L-shaped path. *)
Lemma handleConnMouseDown_grabs_interior_witness :
  exists points q,
    mjoin ([Some [mkPoint 0 0; mkPoint 10 0; mkPoint 10 10]] !! 0%nat) = Some points
    /\ (1 <= 1 <= length points - 2)%nat
    /\ points !! 1%nat = Some q
    /\ dist q (mkPoint 10 0) < 25.
Proof.
  destruct (handleConnMouseDown_grabs_interior
              [Some [mkPoint 0 0; mkPoint 10 0; mkPoint 10 10]] initialState 0
              (mkPoint 200 300) (mkPoint 10 0) 0 1 eq_refl)
    as (_ & _ & _ & points & q & Hp & Hr & Hq & Hd & _).
  - assert (nearestConn [Some [mkPoint 0 0; mkPoint 10 0; mkPoint 10 10]] (mkPoint 10 0) 0
            = 0%nat) as Hconn.
    { unfold nearestConn. cbn -[pointToSegmentDist].
      destruct (bool_decide _); reflexivity. }
    unfold handleConnMouseDown. rewrite Hconn. cbn [lookup list_lookup mjoin option_join].
    cbn [length]. rewrite (bool_decide_eq_true_2 (3 <= 3)%nat) by lia.
    unfold nearestNode. cbn [length Nat.sub seq fold_left lookup list_lookup px py fmap
                             option_fmap option_map snd closer].
    replace (10 - 10) with 0 by lra. replace (0 - 0) with 0 by lra.
    rewrite hypot_0_r, Rabs_R0. rewrite bool_decide_eq_true_2 by lra. reflexivity.
  - exists points, q. repeat split; try assumption; lia.
Defined.

End NodeGrabExample.

(** ** Distance to a segment and the nearest segment *)

Section SegmentDistance.
Import Router Props.
Local Open Scope R_scope.

Lemma sum_squares_zero x y : x * x + y * y = 0 -> x = 0 /\ y = 0.
Proof. intros H. split; nra. Qed.

Lemma hypot_le a b c d : a * a + b * b <= c * c + d * d -> hypot a b <= hypot c d.
Proof. intros H. unfold hypot. now apply sqrt_le_1_alt. Qed.

Lemma clamp_cases s :
  (s <= 0 /\ Rmax 0 (Rmin 1 s) = 0)
  \/ (0 <= s <= 1 /\ Rmax 0 (Rmin 1 s) = s)
  \/ (1 <= s /\ Rmax 0 (Rmin 1 s) = 1).
Proof. unfold Rmax, Rmin. repeat destruct (Rle_dec _ _); lra. Qed.

(** The clamped projection minimises the squared distance over the
    segment. *)
Lemma projection_minimal wx wy ddx ddy t :
  ddx * ddx + ddy * ddy <> 0 ->
  0 <= t <= 1 ->
  let t0 := Rmax 0 (Rmin 1 ((wx * ddx + wy * ddy) / (ddx * ddx + ddy * ddy))) in
  0 <= t0 <= 1
  /\ (wx - t0 * ddx) * (wx - t0 * ddx) + (wy - t0 * ddy) * (wy - t0 * ddy)
     <= (wx - t * ddx) * (wx - t * ddx) + (wy - t * ddy) * (wy - t * ddy).
Proof.
  intros HL Ht. set (L := ddx * ddx + ddy * ddy) in *.
  set (s := (wx * ddx + wy * ddy) / L).
  assert (0 < L) as HLpos.
  { assert (0 <= L) by (unfold L; nra). lra. }
  assert (wx * ddx + wy * ddy = s * L) as Hdot.
  { unfold s. field. lra. }
  intros t0.
  assert (0 <= t0 <= 1) as Ht0.
  { unfold t0, Rmax, Rmin. repeat destruct (Rle_dec _ _); lra. }
  split; [exact Ht0|].
  assert (forall u, (wx - u * ddx) * (wx - u * ddx) + (wy - u * ddy) * (wy - u * ddy)
                    = wx * wx + wy * wy - 2 * u * (s * L) + u * u * L) as Hf.
  { intros u. rewrite <- Hdot. unfold L. ring. }
  rewrite !Hf.
  assert (0 <= L * ((t - t0) * (t + t0 - 2 * s))) as Hdiff.
  { apply Rmult_le_pos; [lra|].
    destruct (clamp_cases s) as [[Hs Hc]|[[Hs Hc]|[Hs Hc]]]; fold t0 in Hc; rewrite Hc.
    - replace ((t - 0) * (t + 0 - 2 * s)) with (t * (t - 2 * s)) by ring.
      apply Rmult_le_pos; lra.
    - replace ((t - s) * (t + s - 2 * s)) with ((t - s) * (t - s)) by ring.
      apply Rle_0_sqr.
    - replace ((t - 1) * (t + 1 - 2 * s)) with ((1 - t) * (2 * s - 1 - t)) by ring.
      apply Rmult_le_pos; lra. }
  assert (wx * wx + wy * wy - 2 * t * (s * L) + t * t * L
          - (wx * wx + wy * wy - 2 * t0 * (s * L) + t0 * t0 * L)
          = L * ((t - t0) * (t + t0 - 2 * s))) as Heq by ring.
  lra.
Qed.

(** X25. [pointToSegmentDist] is the Euclidean distance from the point to
    the closed segment: it is the distance to a point of the segment, and no
    point of the segment is nearer. *)
Theorem pointToSegmentDist_is_distance (p a b : Point) :
  (exists c, onSegment c a b /\ pointToSegmentDist p a b = dist p c)
  /\ (forall c, onSegment c a b -> pointToSegmentDist p a b <= dist p c).
Proof.
  unfold pointToSegmentDist, dist. cbv zeta.
  set (ddx := px b - px a). set (ddy := py b - py a).
  destruct (decide (ddx * ddx + ddy * ddy = 0)) as [Hzero|Hpos].
  - apply sum_squares_zero in Hzero as [Hx Hy]. split.
    + exists a. split; [|reflexivity].
      exists 0. split; [lra|]. split; lra.
    + intros c (t & _ & Hcx & Hcy). fold ddx in Hcx. fold ddy in Hcy.
      rewrite Hcx, Hcy, Hx, Hy. apply hypot_le. right. ring.
  - split.
    + set (t0 := Rmax 0 (Rmin 1 (((px p - px a) * ddx + (py p - py a) * ddy)
                                 / (ddx * ddx + ddy * ddy)))).
      destruct (projection_minimal (px p - px a) (py p - py a) ddx ddy 0 Hpos
                  ltac:(lra)) as [Ht0 _]. fold t0 in Ht0.
      exists (mkPoint (px a + t0 * ddx) (py a + t0 * ddy)).
      split; [|reflexivity]. exists t0. cbn. auto.
    + intros c (t & Ht & Hcx & Hcy). fold ddx in Hcx. fold ddy in Hcy.
      destruct (projection_minimal (px p - px a) (py p - py a) ddx ddy t Hpos Ht)
        as [_ Hmin].
      rewrite Hcx, Hcy. apply hypot_le. cbv zeta in Hmin.
      set (t0 := Rmax 0 (Rmin 1 _)) in *. nra.
Qed.

Lemma nearestSegment_fold (p : Point) (pts : list Point) l done_ (st : nat * option R) :
  match snd st with
  | None => forall s, s ∈ done_ -> pts !! s = None \/ pts !! S s = None
  | Some d =>
      exists a b, pts !! fst st = Some a /\ pts !! S (fst st) = Some b
                  /\ d = pointToSegmentDist p a b
                  /\ forall s a' b', s ∈ done_ -> pts !! s = Some a' -> pts !! S s = Some b' ->
                       d <= pointToSegmentDist p a' b'
  end ->
  let st' := fold_left (fun st s =>
                 match pts !! s, pts !! S s with
                 | Some a, Some b =>
                     let dist := pointToSegmentDist p a b in
                     if closer dist (snd st) then (s, Some dist) else st
                 | _, _ => st
                 end) l st in
  match snd st' with
  | None => forall s, s ∈ done_ ++ l -> pts !! s = None \/ pts !! S s = None
  | Some d =>
      exists a b, pts !! fst st' = Some a /\ pts !! S (fst st') = Some b
                  /\ d = pointToSegmentDist p a b
                  /\ forall s a' b', s ∈ done_ ++ l -> pts !! s = Some a' ->
                       pts !! S s = Some b' -> d <= pointToSegmentDist p a' b'
  end.
Proof.
  revert done_ st. induction l as [|i l IH]; intros done_ st Hinv; cbn [fold_left].
  - cbv zeta. now rewrite app_nil_r.
  - replace (done_ ++ i :: l) with ((done_ ++ [i]) ++ l) by now rewrite <- app_assoc.
    apply IH. clear IH. destruct st as [best [d|]]; cbn [fst snd] in *.
    + destruct Hinv as (a & b & Ha & Hb & Hd & Hmin).
      destruct (pts !! i) as [a1|] eqn:Ha1; [destruct (pts !! S i) as [b1|] eqn:Hb1|].
      * cbv zeta. cbn [closer snd].
        destruct (bool_decide (pointToSegmentDist p a1 b1 < d)) eqn:Hlt; cbn [fst snd].
        -- apply bool_decide_eq_true in Hlt.
           exists a1, b1. split; [assumption|]. split; [assumption|]. split; [reflexivity|].
           intros s a' b' Hs Ha' Hb'. apply elem_of_app in Hs as [Hs|Hs].
           ++ specialize (Hmin s a' b' Hs Ha' Hb'). lra.
           ++ apply list_elem_of_singleton in Hs as ->.
              assert (a' = a1) as -> by congruence. assert (b' = b1) as -> by congruence. lra.
        -- apply bool_decide_eq_false in Hlt.
           exists a, b. split; [assumption|]. split; [assumption|]. split; [assumption|].
           intros s a' b' Hs Ha' Hb'. apply elem_of_app in Hs as [Hs|Hs]; [eauto|].
           apply list_elem_of_singleton in Hs as ->.
           assert (a' = a1) as -> by congruence. assert (b' = b1) as -> by congruence. lra.
      * cbn [fst snd]. exists a, b. repeat split; try assumption.
        intros s a' b' Hs Ha' Hb'. apply elem_of_app in Hs as [Hs|Hs]; [eauto|].
        apply list_elem_of_singleton in Hs as ->. congruence.
      * cbn [fst snd]. exists a, b. repeat split; try assumption.
        intros s a' b' Hs Ha' Hb'. apply elem_of_app in Hs as [Hs|Hs]; [eauto|].
        apply list_elem_of_singleton in Hs as ->. congruence.
    + destruct (pts !! i) as [a1|] eqn:Ha1; [destruct (pts !! S i) as [b1|] eqn:Hb1|].
      * cbv zeta. cbn [closer fst snd].
        exists a1, b1. split; [assumption|]. split; [assumption|]. split; [reflexivity|].
        intros s a' b' Hs Ha' Hb'. apply elem_of_app in Hs as [Hs|Hs].
        -- destruct (Hinv s Hs); congruence.
        -- apply list_elem_of_singleton in Hs as ->.
           assert (a' = a1) as -> by congruence. assert (b' = b1) as -> by congruence. lra.
      * cbn [fst snd]. intros s Hs. apply elem_of_app in Hs as [Hs|Hs]; [auto|].
        apply list_elem_of_singleton in Hs as ->. now right.
      * cbn [fst snd]. intros s Hs. apply elem_of_app in Hs as [Hs|Hs]; [auto|].
        apply list_elem_of_singleton in Hs as ->. now left.
Qed.

(** X26. On a path of at least two points the segment search of the
    double-click handler and of [removeWaypoint] returns the index of a
    segment of the path, and no segment of the path is nearer to the
    point. *)
Theorem nearestSegment_nearest (p : Point) (pts : list Point) :
  (2 <= length pts)%nat ->
  exists a b,
    pts !! nearestSegment p pts = Some a
    /\ pts !! S (nearestSegment p pts) = Some b
    /\ forall s a' b', pts !! s = Some a' -> pts !! S s = Some b' ->
         pointToSegmentDist p a b <= pointToSegmentDist p a' b'.
Proof.
  intros Hlen. unfold nearestSegment.
  pose proof (nearestSegment_fold p pts (seq 0 (length pts - 1)) [] (0%nat, None)) as Hfold.
  cbn [app fst snd] in Hfold. cbv zeta in Hfold.
  destruct (fold_left _ (seq 0 (length pts - 1)) (0%nat, None)) as [best [d|]];
    cbn [fst snd] in *.
  - destruct Hfold as (a & b & Ha & Hb & -> & Hmin).
    { intros s Hs. now apply elem_of_nil in Hs. }
    exists a, b. split; [assumption|]. split; [assumption|].
    intros s a' b' Ha' Hb'. apply (Hmin s); [|assumption..].
    apply lookup_lt_Some in Hb'. apply elem_of_seq. lia.
  - exfalso.
    destruct (lookup_lt_is_Some_2 pts 0 ltac:(lia)) as [a Ha].
    destruct (lookup_lt_is_Some_2 pts 1 ltac:(lia)) as [b Hb].
    destruct (Hfold ltac:(intros s Hs; now apply elem_of_nil in Hs) 0%nat); [|congruence..].
    apply elem_of_seq. lia.
Qed.

End SegmentDistance.

Section SegmentDistanceExample.
Import Router Samples.
Local Open Scope R_scope.

Lemma nearestSegment_nearest_witness :
  exists a b,
    shortPath !! nearestSegment shortWaypoint shortPath = Some a
    /\ shortPath !! S (nearestSegment shortWaypoint shortPath) = Some b
    /\ forall s a' b', shortPath !! s = Some a' -> shortPath !! S s = Some b' ->
         pointToSegmentDist shortWaypoint a b <= pointToSegmentDist shortWaypoint a' b'.
Proof.
  apply (nearestSegment_nearest shortWaypoint shortPath). cbn. lia.
Defined.

End SegmentDistanceExample.

(** ** The loop of a backward connection *)

Section BackwardLoop.
Import Router.
Local Open Scope R_scope.

(** X27. A connection that runs backward (its ends are neither in one
    column nor in forward order) is routed around the diagram: out of the
    source to a vertical run at least 30 units right of the source port and
    of every block level with it, along a horizontal run at least 40 units
    above every block or at least 40 units below every block (before the
    spread offset is added), and back in through a vertical run at least 30
    units left of the destination port and of every block level with it. *)
Theorem computeOrthogonalPath_backward (fromPort toPort : Point)
    (allBlocks : list LayoutBlock) (sameGroup : bool) (verticalOffset : R) :
  allBlocks <> [] ->
  ~ Rabs (px toPort - px fromPort) < BLOCK_WIDTH * 0.5 ->
  ~ px toPort > px fromPort + (if sameGroup then 20 else 40) * 2 ->
  exists loopRightX loopLeftX loopY,
    computeOrthogonalPath fromPort toPort allBlocks sameGroup verticalOffset
    = [fromPort; mkPoint loopRightX (py fromPort + verticalOffset);
       mkPoint loopRightX loopY; mkPoint loopLeftX loopY;
       mkPoint loopLeftX (py toPort + verticalOffset); toPort]
    /\ px fromPort + 30 <= loopRightX
    /\ loopLeftX <= px toPort - 30
    /\ Forall (fun b => Rabs (lb_y b - py fromPort) < lb_height b + 40 ->
                        lb_x b + lb_width b + 30 <= loopRightX) allBlocks
    /\ Forall (fun b => Rabs (lb_y b - py toPort) < lb_height b + 40 ->
                        loopLeftX + 30 <= lb_x b) allBlocks
    /\ (Forall (fun b => loopY - verticalOffset + 40 <= lb_y b) allBlocks
        \/ Forall (fun b => lb_y b + lb_height b + 40 <= loopY - verticalOffset) allBlocks).
Proof.
  intros Hblocks Hcol Hfwd. unfold computeOrthogonalPath.
  rewrite bool_decide_eq_false_2 by assumption.
  rewrite bool_decide_eq_false_2 by assumption.
  destruct allBlocks as [|b0 rest] eqn:Hall; [contradiction|]. rewrite <- Hall in *.
  cbv zeta.
  set (nearSource := filter (fun b => Rabs (lb_y b - py fromPort) < lb_height b + 40) allBlocks).
  set (nearDest := filter (fun b => Rabs (lb_y b - py toPort) < lb_height b + 40) allBlocks).
  set (sourceRight := match nearSource with
                      | [] => px fromPort
                      | _ => maxOf (map (fun b => lb_x b + lb_width b) nearSource
                                    ++ [px fromPort])
                      end).
  set (destLeft := match nearDest with
                   | [] => px toPort
                   | _ => minOf (map lb_x nearDest ++ [px toPort])
                   end).
  assert (px fromPort <= sourceRight
          /\ forall b, b ∈ nearSource -> lb_x b + lb_width b <= sourceRight) as [Hsr Hsrb].
  { unfold sourceRight. destruct nearSource as [|n ns] eqn:Hn.
    - split; [lra|]. intros b Hb. now apply elem_of_nil in Hb.
    - split.
      + apply maxOf_ge, elem_of_app. right. now apply list_elem_of_singleton.
      + intros b Hb. apply maxOf_ge, elem_of_app. left.
        apply list_elem_of_fmap. eauto. }
  assert (destLeft <= px toPort /\ forall b, b ∈ nearDest -> destLeft <= lb_x b)
    as [Hdl Hdlb].
  { unfold destLeft. destruct nearDest as [|n ns] eqn:Hn.
    - split; [lra|]. intros b Hb. now apply elem_of_nil in Hb.
    - split.
      + apply minOf_le, elem_of_app. right. now apply list_elem_of_singleton.
      + intros b Hb. apply minOf_le, elem_of_app. left.
        apply list_elem_of_fmap. eauto. }
  eexists (sourceRight + 30), (destLeft - 30), _.
  split; [reflexivity|]. split; [lra|]. split; [lra|]. split; [|split].
  - apply Forall_forall. intros b Hb Hnear.
    assert (b ∈ nearSource) as Hin by (apply list_elem_of_filter; split; assumption).
    specialize (Hsrb b Hin). lra.
  - apply Forall_forall. intros b Hb Hnear.
    assert (b ∈ nearDest) as Hin by (apply list_elem_of_filter; split; assumption).
    specialize (Hdlb b Hin). lra.
  - destruct (bool_decide _).
    + left. apply Forall_forall. intros b Hb.
      assert (minOf (map lb_y allBlocks) <= lb_y b) as Hmin.
      { apply minOf_le, list_elem_of_fmap. eauto. }
      lra.
    + right. apply Forall_forall. intros b Hb.
      assert (lb_y b + lb_height b <= maxOf (map (fun b => lb_y b + lb_height b) allBlocks))
        as Hmax.
      { apply maxOf_ge, list_elem_of_fmap. eauto. }
      lra.
Qed.

End BackwardLoop.

Section BackwardLoopExample.
Import Router Samples.
Local Open Scope R_scope.

(** A connection from the right edge of [load] back to the left edge of
    [supply]. *)
Lemma computeOrthogonalPath_backward_witness :
  exists loopRightX loopLeftX loopY,
    computeOrthogonalPath (mkPoint 580 146) (mkPoint 0 46) pairLayout false 0
    = [mkPoint 580 146; mkPoint loopRightX (146 + 0); mkPoint loopRightX loopY;
       mkPoint loopLeftX loopY; mkPoint loopLeftX (46 + 0); mkPoint 0 46]
    /\ 580 + 30 <= loopRightX
    /\ loopLeftX <= 0 - 30.
Proof.
  destruct (computeOrthogonalPath_backward (mkPoint 580 146) (mkPoint 0 46) pairLayout
              false 0) as (r & l & y & Hpath & Hr & Hl & _).
  - discriminate.
  - cbn [px]. unfold BLOCK_WIDTH. rewrite Rabs_left by lra. lra.
  - cbn [px]. lra.
  - exists r, l, y. split; [exact Hpath|]. split; [exact Hr|exact Hl].
Defined.

End BackwardLoopExample.

(** ** The layout never overlaps two blocks *)

Section PairwiseFacts.
Context {A : Type} (R : A -> A -> Prop).

Lemma FOP_app (l1 l2 : list A) :
  ForallOrdPairs R l1 -> ForallOrdPairs R l2 ->
  (forall a b, a ∈ l1 -> b ∈ l2 -> R a b) ->
  ForallOrdPairs R (l1 ++ l2).
Proof.
  intros H1 H2 Hcross. induction H1 as [|a l Ha _ IH]; [exact H2|].
  cbn. constructor.
  - apply List.Forall_app. split; [exact Ha|].
    apply Forall_forall. intros b Hb. apply Hcross; [left|assumption].
  - apply IH. intros x y Hx Hy. apply Hcross; [now right|assumption].
Qed.

Lemma elem_of_concat (x : A) (ls : list (list A)) :
  x ∈ concat ls <-> exists l, x ∈ l /\ l ∈ ls.
Proof.
  rewrite list_elem_of_In, in_concat. split; intros (l & H1 & H2); exists l.
  - now rewrite !list_elem_of_In.
  - now rewrite <- !list_elem_of_In.
Qed.

Lemma FOP_concat (ls : list (list A)) :
  Forall (ForallOrdPairs R) ls ->
  ForallOrdPairs (fun l l' => forall a b, a ∈ l -> b ∈ l' -> R a b) ls ->
  ForallOrdPairs R (concat ls).
Proof.
  intros Hin Hcross. induction Hcross as [|l ls Hl _ IH]; [constructor|].
  apply Forall_cons in Hin as [Hl0 Hin]. cbn. apply FOP_app; [assumption|auto|].
  intros a b Ha Hb. apply elem_of_concat in Hb as (l' & Hb & Hl').
  rewrite Forall_forall in Hl. exact (Hl l' Hl' a b Ha Hb).
Qed.

Lemma FOP_lookup (l : list A) :
  (forall i j x y, (i < j)%nat -> l !! i = Some x -> l !! j = Some y -> R x y) ->
  ForallOrdPairs R l.
Proof.
  induction l as [|a l IH]; intros H; [constructor|]. constructor.
  - apply Forall_forall. intros b Hb. apply list_elem_of_lookup in Hb as [j Hj].
    apply (H 0%nat (S j)); [lia|reflexivity|exact Hj].
  - apply IH. intros i j x y Hij Hx Hy. apply (H (S i) (S j)); [lia|exact Hx|exact Hy].
Qed.

End PairwiseFacts.

Section GroupShape.
Import Ordered Layering Placement.
Local Open Scope R_scope.

Lemma apart_translate ox oy a b : apart a b -> apart (translate ox oy a) (translate ox oy b).
Proof. unfold apart, translate. cbn. lra. Qed.

Lemma FOP_translate ox oy l :
  ForallOrdPairs apart l -> ForallOrdPairs apart (map (translate ox oy) l).
Proof.
  induction 1 as [|a l Ha _ IH]; cbn; constructor; [|exact IH].
  apply Forall_forall. intros b Hb. apply list_elem_of_fmap in Hb as (b0 & -> & Hb0).
  rewrite Forall_forall in Ha. apply apart_translate. auto.
Qed.

Lemma blockHeight_pos b : 0 < blockHeight b.
Proof.
  unfold blockHeight, BLOCK_HEADER, PORT_ROW.
  pose proof (pos_INR (Nat.max (length (inputs b)) (Nat.max (length (outputs b)) 1))). lra.
Qed.

Lemma stackFrom_app subCol blockList acc y :
  fst (stackFrom subCol blockList acc y) = acc ++ fst (stackFrom subCol blockList [] y).
Proof.
  unfold stackFrom. revert acc y. induction blockList as [|b bl IH]; intros acc y; cbn.
  - now rewrite app_nil_r.
  - rewrite IH. rewrite (IH [_]). now rewrite <- app_assoc.
Qed.

Lemma stackFrom_cons subCol b blockList y :
  fst (stackFrom subCol (b :: blockList) [] y)
  = mkLayoutBlock b (INR subCol * (BLOCK_WIDTH + INTRA_GROUP_H_GAP)) y BLOCK_WIDTH
                  (blockHeight b)
    :: fst (stackFrom subCol blockList [] (y + blockHeight b + INTRA_GROUP_V_GAP)).
Proof.
  unfold stackFrom at 1. cbn [fold_left fst snd app].
  change (fold_left _ blockList ?st) with (stackFrom subCol blockList (fst st) (snd st)).
  cbn [fst snd]. now rewrite stackFrom_app.
Qed.

(** One sub-column: the rectangles stand at the sub-column's x, one below
    the other from [y] on. *)
Lemma stackFrom_spec subCol blockList y :
  Forall (fun lb => lb_x lb = INR subCol * (BLOCK_WIDTH + INTRA_GROUP_H_GAP)
                    /\ y <= lb_y lb /\ lb_width lb = BLOCK_WIDTH /\ 0 < lb_height lb)
         (fst (stackFrom subCol blockList [] y))
  /\ ForallOrdPairs apart (fst (stackFrom subCol blockList [] y))
  /\ (blockList <> [] -> exists lb, lb ∈ fst (stackFrom subCol blockList [] y) /\ lb_y lb = y).
Proof.
  revert y. induction blockList as [|b bl IH]; intros y.
  - cbn. split; [constructor|]. split; [constructor|]. now intros [].
  - rewrite stackFrom_cons.
    destruct (IH (y + blockHeight b + INTRA_GROUP_V_GAP)) as (Hall & Hfop & _).
    pose proof (blockHeight_pos b) as Hh. unfold INTRA_GROUP_V_GAP in *.
    split; [|split].
    + constructor; [cbn; repeat split; try lra|].
      eapply Forall_impl; [exact Hall|]. cbn. intros lb (? & ? & ? & ?). repeat split; lra.
    + constructor; [|exact Hfop].
      eapply Forall_impl; [exact Hall|]. cbn. intros lb (? & ? & ? & ?).
      unfold apart. cbn. lra.
    + intros _. eexists. split; [left|reflexivity].
Qed.

Lemma NoDup_keys_FOP {K V : Type} (m : list (K * V)) :
  NoDup (map fst m) -> ForallOrdPairs (fun e e' => fst e <> fst e') m.
Proof.
  induction m as [|e m IH]; cbn; intros Hnd; [constructor|].
  apply NoDup_cons in Hnd as [Hnotin Hnd]. constructor; [|now apply IH].
  apply Forall_forall. intros e' He' Heq. apply Hnotin. rewrite Heq.
  apply list_elem_of_fmap. eauto.
Qed.

Lemma push_fold_keys {K V : Type} `{EqDecision K} (f : V -> K) (l : list V)
    (m : list (K * list V)) :
  NoDup (map fst m) -> NoDup (map fst (fold_left (fun m b => push (f b) b m) l m)).
Proof.
  revert m. induction l as [|b l IH]; intros m Hm; cbn; [exact Hm|].
  apply IH. unfold push. now apply set_keys.
Qed.

Lemma push_fold_mem {K V : Type} `{EqDecision K} (f : V -> K) (l : list V)
    (m : list (K * list V)) b :
  b ∈ l \/ b ∈ default [] (get (f b) m) ->
  exists bl, get (f b) (fold_left (fun m b => push (f b) b m) l m) = Some bl /\ b ∈ bl.
Proof.
  revert m. induction l as [|b0 l IH]; intros m; cbn.
  - intros [Hb|Hb]; [now apply elem_of_nil in Hb|].
    destruct (get (f b) m) as [bl|]; [eauto|now apply elem_of_nil in Hb].
  - intros Hb. apply IH. rewrite get_push.
    destruct Hb as [Hb|Hb].
    + apply elem_of_cons in Hb as [->|Hb]; [|now left].
      right. rewrite decide_True by reflexivity. cbn.
      apply elem_of_app. right. now left.
    + right. destruct (decide (f b0 = f b)) as [Heq|Hne]; [|assumption].
      cbn. apply elem_of_app. now left.
Qed.

(** The rectangles of a group before placement. *)
Lemma tempLayout_spec groupBlocks column :
  ForallOrdPairs apart (tempLayout groupBlocks column)
  /\ Forall (fun lb => 0 <= lb_x lb /\ 0 <= lb_y lb /\ lb_width lb = BLOCK_WIDTH
                       /\ 0 < lb_height lb)
            (tempLayout groupBlocks column)
  /\ (forall b, b ∈ groupBlocks ->
        exists lb, lb ∈ tempLayout groupBlocks column /\ lb_y lb = 0
                   /\ lb_x lb = INR (default 0%nat (get (block_id b) column))
                                * (BLOCK_WIDTH + INTRA_GROUP_H_GAP)).
Proof.
  unfold tempLayout.
  set (m := subColGroups groupBlocks column).
  assert (forall e, stackSubColumn (fst e) (snd e) = fst (stackFrom (fst e) (snd e) [] 0))
    as Hstack by reflexivity.
  split; [|split].
  - apply FOP_concat.
    + apply Forall_forall. intros l Hl. apply list_elem_of_fmap in Hl as (e & -> & _).
      rewrite Hstack. apply stackFrom_spec.
    + assert (ForallOrdPairs (fun e e' : nat * list Block => fst e <> fst e') m) as Hkeys.
      { apply NoDup_keys_FOP. unfold m, subColGroups. apply push_fold_keys. constructor. }
      induction Hkeys as [|e es He _ IH]; cbn; constructor; [|exact IH].
      apply Forall_forall. intros l Hl. apply list_elem_of_fmap in Hl as (e' & -> & He').
      rewrite Forall_forall in He. specialize (He e' He').
      intros a b Ha Hb. rewrite Hstack in Ha, Hb.
      destruct (stackFrom_spec (fst e) (snd e) 0) as (Hae & _ & _).
      destruct (stackFrom_spec (fst e') (snd e') 0) as (Hbe & _ & _).
      rewrite Forall_forall in Hae, Hbe.
      destruct (Hae a Ha) as (Hax & _ & Haw & _). destruct (Hbe b Hb) as (Hbx & _ & Hbw & _).
      unfold apart. rewrite Hax, Hbx, Haw, Hbw.
      unfold BLOCK_WIDTH, INTRA_GROUP_H_GAP.
      destruct (Nat.lt_total (fst e) (fst e')) as [Hlt|[Heq|Hgt]]; [|contradiction|].
      * left. apply lt_INR in Hlt as Hr. apply le_INR in Hlt. rewrite S_INR in Hlt. lra.
      * right; left. apply le_INR in Hgt. rewrite S_INR in Hgt. lra.
  - apply Forall_forall. intros lb Hlb. apply elem_of_concat in Hlb as (l & Hlb & Hl).
    apply list_elem_of_fmap in Hl as (e & -> & _). rewrite Hstack in Hlb.
    destruct (stackFrom_spec (fst e) (snd e) 0) as (Hall & _ & _).
    rewrite Forall_forall in Hall. destruct (Hall lb Hlb) as (Hx & Hy & Hw & Hh).
    rewrite Hx. pose proof (pos_INR (fst e)).
    unfold BLOCK_WIDTH, INTRA_GROUP_H_GAP in *. repeat split; try assumption; nra.
  - intros b Hb.
    destruct (push_fold_mem (fun b => default 0%nat (get (block_id b) column)) groupBlocks [] b
                (or_introl Hb)) as (bl & Hbl & Hin).
    fold (subColGroups groupBlocks column) in Hbl. fold m in Hbl.
    apply get_elem_of in Hbl.
    destruct (stackFrom_spec (default 0%nat (get (block_id b) column)) bl 0)
      as (Hall & _ & Hfirst).
    destruct Hfirst as (lb & Hlb & Hy); [intros ->; now apply elem_of_nil in Hin|].
    exists lb. split; [|split; [exact Hy|]].
    + apply elem_of_concat. eexists. split; [exact Hlb|].
      apply list_elem_of_fmap. exists (default 0%nat (get (block_id b) column), bl).
      split; [reflexivity|assumption].
    + rewrite Forall_forall in Hall. now destruct (Hall lb Hlb).
Qed.

(** Column 0 of a group is never empty. *)
Lemma blockColumn_zero groupBlocks connections cols :
  groupBlocks <> [] ->
  blockColumn groupBlocks connections = Some cols ->
  exists b, b ∈ groupBlocks /\ default 0%nat (get (block_id b) cols) = 0%nat.
Proof.
  intros Hne Hcols.
  destruct (intraRoots groupBlocks connections) as [|r rs] eqn:Hroots.
  - destruct groupBlocks as [|b bs]; [contradiction|]. exists b. split; [left|].
    unfold blockColumn in Hcols. rewrite Hroots in Hcols. cbn [bfsLoop] in Hcols.
    injection Hcols as <-.
    destruct (fallback_fold (b :: bs) 0 []) as (_ & H2 & _). cbv zeta in H2.
    destruct (get (block_id b) _) as [c|] eqn:Hc; [|reflexivity].
    apply H2 in Hc as [Hc|Hc]; [discriminate|exact Hc].
  - destruct (blockColumn_levels _ _ _ Hcols) as (_ & Hzero & _).
    assert (r ∈ intraRoots groupBlocks connections) as Hr by (rewrite Hroots; left).
    specialize (Hzero r Hr). unfold intraRoots in Hr.
    apply list_elem_of_fmap in Hr as (b & -> & Hb). apply list_elem_of_filter in Hb as [_ Hb].
    exists b. split; [assumption|]. now rewrite Hzero.
Qed.

(** A group as [layoutGroup] returns it fits its own width and height. *)
Lemma layoutGroup_fits name groupBlocks column connections g :
  layoutGroup name groupBlocks column connections = Some g -> fits g.
Proof.
  unfold layoutGroup.
  destruct (blockColumn groupBlocks connections) as [cols|] eqn:Hcols; [|discriminate].
  cbn [mbind option_bind]. cbv zeta. intros [= <-]. unfold fits. cbn.
  destruct (tempLayout_spec groupBlocks cols) as (Hfop & Hall & Horigin).
  destruct (tempLayout groupBlocks cols) as [|lb0 tl] eqn:Htl.
  { split; [lra|]. split; [lra|]. split; constructor. }
  rewrite <- Htl in *.
  assert (groupBlocks <> []) as Hne.
  { intros ->. pose proof (tempLayout_shape [] cols) as Hshape.
    rewrite Htl in Hshape. apply Permutation_length in Hshape. discriminate. }
  destruct (blockColumn_zero _ _ _ Hne Hcols) as (b & Hb & Hzero).
  destruct (Horigin b Hb) as (lb & Hlb & Hy & Hx). rewrite Hzero in Hx. cbn in Hx.
  rewrite Rmult_0_l in Hx.
  set (minX := minOf (map lb_x (tempLayout groupBlocks cols))).
  set (minY := minOf (map lb_y (tempLayout groupBlocks cols))).
  set (maxX := maxOf (map (fun lb => lb_x lb + lb_width lb) (tempLayout groupBlocks cols))).
  set (maxY := maxOf (map (fun lb => lb_y lb + lb_height lb) (tempLayout groupBlocks cols))).
  assert (minX <= 0) as HminX.
  { rewrite <- Hx. apply minOf_le, list_elem_of_fmap. eauto. }
  assert (minY <= 0) as HminY.
  { rewrite <- Hy. apply minOf_le, list_elem_of_fmap. eauto. }
  assert (forall a, a ∈ tempLayout groupBlocks cols ->
            lb_x a + lb_width a <= maxX /\ lb_y a + lb_height a <= maxY) as Hmax.
  { intros a Ha. split; apply maxOf_ge, list_elem_of_fmap; eauto. }
  rewrite Forall_forall in Hall.
  destruct (Hmax lb Hlb) as [Hmx Hmy]. destruct (Hall lb Hlb) as (_ & _ & Hw & Hh).
  unfold GROUP_PAD_X, GROUP_PAD_TOP, GROUP_PAD_BOTTOM, BLOCK_WIDTH in *.
  split; [lra|]. split; [lra|]. split; [exact Hfop|].
  apply Forall_forall. intros a Ha.
  destruct (Hmax a Ha). destruct (Hall a Ha) as (? & ? & _ & _). repeat split; lra.
Qed.

End GroupShape.

Section PlacementFacts.
Import Ordered Layering Placement.
Local Open Scope R_scope.

Lemma apart_sym a b : apart a b -> apart b a.
Proof. unfold apart. tauto. Qed.

Lemma blocksAt_insert_eq groups i g :
  (i < length groups)%nat -> blocksAt (<[i := g]> groups) i = g_layoutBlocks g.
Proof. intros Hi. unfold blocksAt. now rewrite list_lookup_insert_eq. Qed.

Lemma blocksAt_insert_ne groups i k g :
  i <> k -> blocksAt (<[i := g]> groups) k = blocksAt groups k.
Proof. intros Hne. unfold blocksAt. now rewrite list_lookup_insert_ne. Qed.

(** Placing one more group, below and right of everything placed so far. *)
Lemma placedInv_place original placed canvasX groups i g ox oy :
  placedInv original placed canvasX groups ->
  i ∉ placed ->
  original !! i = Some g ->
  fits g ->
  (forall k b, k ∈ placed -> b ∈ blocksAt groups k ->
     lb_x b + lb_width b <= ox \/ lb_y b + lb_height b <= oy) ->
  PADDING + GROUP_PAD_X <= ox ->
  PADDING + GROUP_PAD_TOP <= oy ->
  ox + g_width g - GROUP_PAD_X * 2 <= canvasX ->
  placedInv original (placed ++ [i]) canvasX
    (<[i := mkHwGroup (g_name g) (g_blocks g) (g_column g)
                      (map (translate ox oy) (g_layoutBlocks g))
                      (g_width g) (g_height g)]> groups).
Proof.
  intros [Hlen Hsize Hrest Hwithin Hcross Hbound] Hi Hg (Hw & Hh & Hfop & Hfit)
    Hclear Hox Hoy Hright.
  assert (i < length groups)%nat as Hlt.
  { rewrite Hlen. eapply lookup_lt_Some; eassumption. }
  rewrite Forall_forall in Hfit.
  assert (forall a, a ∈ map (translate ox oy) (g_layoutBlocks g) ->
            ox <= lb_x a /\ oy <= lb_y a
            /\ lb_x a + lb_width a + GROUP_PAD_X * 2 <= ox + g_width g) as Hnew.
  { intros a Ha. apply list_elem_of_fmap in Ha as (a0 & -> & Ha0).
    destruct (Hfit a0 Ha0) as (? & ? & ? & ?). cbn. repeat split; lra. }
  split.
  - now rewrite length_insert.
  - intros k gk gk'. destruct (decide (i = k)) as [<-|Hne].
    + rewrite list_lookup_insert_eq by assumption. intros [= <-] Hk. cbn.
      rewrite Hg in Hk. injection Hk as <-. tauto.
    + rewrite list_lookup_insert_ne by assumption. apply Hsize.
  - intros k Hk. rewrite elem_of_app, list_elem_of_singleton in Hk.
    rewrite list_lookup_insert_ne by (intros ->; tauto). apply Hrest. tauto.
  - intros k. destruct (decide (i = k)) as [<-|Hne].
    + rewrite blocksAt_insert_eq by assumption. cbn. now apply FOP_translate.
    + rewrite blocksAt_insert_ne by assumption. apply Hwithin.
  - intros k l a b Hk Hl Hkl.
    rewrite elem_of_app, list_elem_of_singleton in Hk, Hl.
    destruct (decide (i = k)) as [<-|Hik]; [|destruct (decide (i = l)) as [<-|Hil]].
    + destruct Hl as [Hl|Hl]; [|congruence].
      rewrite blocksAt_insert_eq by assumption.
      rewrite blocksAt_insert_ne by assumption. cbn. intros Ha Hb.
      destruct (Hnew a Ha) as (Hax & Hay & _). apply apart_sym. unfold apart.
      destruct (Hclear l b Hl Hb); lra.
    + destruct Hk as [Hk|Hk]; [|congruence].
      rewrite blocksAt_insert_ne by assumption.
      rewrite blocksAt_insert_eq by assumption. cbn. intros Ha Hb.
      destruct (Hnew b Hb) as (Hbx & Hby & _). unfold apart.
      destruct (Hclear k a Hk Ha); lra.
    + destruct Hk as [Hk|Hk]; [|congruence]. destruct Hl as [Hl|Hl]; [|congruence].
      rewrite !blocksAt_insert_ne by assumption. now apply Hcross.
  - intros k a Hk. rewrite elem_of_app, list_elem_of_singleton in Hk.
    destruct (decide (i = k)) as [<-|Hik].
    + rewrite blocksAt_insert_eq by assumption. cbn. intros Ha.
      destruct (Hnew a Ha) as (Hax & Hay & Har). repeat split; lra.
    + destruct Hk as [Hk|Hk]; [|congruence].
      rewrite blocksAt_insert_ne by assumption. now apply Hbound.
Qed.

Lemma placedInv_widen original placed canvasX canvasX' groups :
  canvasX <= canvasX' ->
  placedInv original placed canvasX groups -> placedInv original placed canvasX' groups.
Proof.
  intros Hle [Hlen Hsize Hrest Hwithin Hcross Hbound]. split; try assumption.
  intros i a Hi Ha. destruct (Hbound i a Hi Ha) as (? & ? & ?). repeat split; lra.
Qed.

(** The inner loop: the groups of one column, stacked from [canvasY]. *)
Lemma placeGroup_loop original before canvasX maxWidth (todo : list nat) :
  Forall fits original ->
  PADDING <= canvasX ->
  forall stacked groups canvasY,
    NoDup (before ++ stacked ++ todo) ->
    (forall i, i ∈ todo -> exists g, original !! i = Some g /\ g_width g <= maxWidth) ->
    placedInv original (before ++ stacked) (canvasX + maxWidth + H_GAP) groups ->
    (forall i a, i ∈ stacked -> a ∈ blocksAt groups i -> lb_y a + lb_height a <= canvasY) ->
    (forall i a, i ∈ before -> a ∈ blocksAt groups i -> lb_x a + lb_width a <= canvasX) ->
    PADDING <= canvasY ->
    placedInv original (before ++ stacked ++ todo) (canvasX + maxWidth + H_GAP)
              (fst (fold_left (placeGroup canvasX) todo (groups, canvasY))).
Proof.
  intros Hfits HX. induction todo as [|i todo IH];
    intros stacked groups canvasY Hnd Htodo Hinv Hstacked Hbefore HY.
  - cbn. now rewrite app_nil_r.
  - cbn [fold_left].
    assert (i ∉ before ++ stacked) as Hi.
    { rewrite app_assoc in Hnd. apply NoDup_app in Hnd as (_ & Hdisj & _).
      intros Hin. apply (Hdisj i Hin). left. }
    destruct (Htodo i ltac:(left)) as (g & Hg & Hgw).
    assert (fits g) as Hfit.
    { rewrite Forall_forall in Hfits. apply Hfits. eapply list_elem_of_lookup_2. eassumption. }
    assert (groups !! i = Some g) as Hgi by (rewrite (pi_rest _ _ _ _ Hinv i Hi); exact Hg).
    unfold placeGroup at 2. rewrite Hgi.
    replace (before ++ stacked ++ i :: todo) with (before ++ (stacked ++ [i]) ++ todo)
      in * by now rewrite <- (app_assoc stacked).
    pose proof Hfit as (Hw & Hh & _ & Hall).
    unfold PADDING, GROUP_PAD_X, GROUP_PAD_TOP, GROUP_PAD_BOTTOM, GROUP_GAP, H_GAP in *.
    apply IH.
    + assumption.
    + intros k Hk. apply Htodo. now right.
    + rewrite app_assoc. apply placedInv_place; try assumption.
      * intros k b Hk Hb. apply elem_of_app in Hk as [Hk|Hk].
        -- left. specialize (Hbefore k b Hk Hb). lra.
        -- right. specialize (Hstacked k b Hk Hb). lra.
      * unfold PADDING, GROUP_PAD_X. lra.
      * unfold PADDING, GROUP_PAD_TOP. lra.
      * unfold GROUP_PAD_X. lra.
    + intros k a Hk. apply elem_of_app in Hk as [Hk|Hk].
      * rewrite blocksAt_insert_ne by (intros <-; apply Hi, elem_of_app; tauto).
        intros Ha. specialize (Hstacked k a Hk Ha). lra.
      * apply list_elem_of_singleton in Hk as ->.
        rewrite blocksAt_insert_eq
          by (rewrite (pi_length _ _ _ _ Hinv); eapply lookup_lt_Some; eassumption).
        cbn. intros Ha. apply list_elem_of_fmap in Ha as (a0 & -> & Ha0).
        rewrite Forall_forall in Hall.
        destruct (Hall a0 Ha0) as (_ & _ & _ & Hbottom). cbn. lra.
    + intros k a Hk.
      rewrite blocksAt_insert_ne by (intros <-; apply Hi, elem_of_app; tauto).
      now apply Hbefore.
    + lra.
Qed.

End PlacementFacts.

Section LayoutApart.
Import Ordered Layering Placement.
Local Open Scope R_scope.

Lemma push_fold_default {K A V : Type} `{EqDecision K} (f : A -> K) (h : A -> V)
    (l : list A) (m : list (K * list V)) k :
  default [] (get k (fold_left (fun m x => push (f x) (h x) m) l m))
  = default [] (get k m) ++ map h (List.filter (fun x => bool_decide (f x = k)) l).
Proof.
  revert m. induction l as [|a l IH]; intros m; cbn [fold_left List.filter map].
  - now rewrite app_nil_r.
  - rewrite IH, get_push. destruct (decide (f a = k)) as [Heq|Hne].
    + rewrite bool_decide_eq_true_2 by assumption. cbn. now rewrite <- app_assoc.
    + rewrite bool_decide_eq_false_2 by assumption. reflexivity.
Qed.

Lemma push_fold_keys_gen {K A V : Type} `{EqDecision K} (f : A -> K) (h : A -> V)
    (l : list A) (m : list (K * list V)) :
  NoDup (map fst m) -> NoDup (map fst (fold_left (fun m x => push (f x) (h x) m) l m)).
Proof.
  revert m. induction l as [|a l IH]; intros m Hm; cbn; [exact Hm|].
  apply IH. unfold push. now apply set_keys.
Qed.

Lemma push_fold_is_Some {K A V : Type} `{EqDecision K} (f : A -> K) (h : A -> V)
    (l : list A) (m : list (K * list V)) k :
  is_Some (get k m) \/ (exists x, x ∈ l /\ f x = k) ->
  is_Some (get k (fold_left (fun m x => push (f x) (h x) m) l m)).
Proof.
  revert m. induction l as [|a l IH]; intros m; cbn.
  - intros [?|(x & Hx & _)]; [assumption|now apply elem_of_nil in Hx].
  - intros Hk. apply IH. rewrite get_push.
    destruct (decide (f a = k)) as [Heq|Hne]; [left; eauto|].
    destruct Hk as [?|(x & Hx & Hfx)]; [now left|].
    apply elem_of_cons in Hx as [->|Hx]; [contradiction|right; eauto].
Qed.

(** [groupColumns]: the indices of the groups of each column. *)
Lemma groupColumns_spec (groups : list HwGroup) :
  NoDup (map fst (groupColumns groups))
  /\ (forall c, NoDup (default [] (get c (groupColumns groups))))
  /\ (forall c i, i ∈ default [] (get c (groupColumns groups))
                  <-> exists g, groups !! i = Some g /\ g_column g = c)
  /\ (forall i g, groups !! i = Some g -> g_column g ∈ map fst (groupColumns groups)).
Proof.
  unfold groupColumns.
  set (l := imap (fun i g => (i, g)) groups).
  assert (forall c, default [] (get c (fold_left (fun m ig => push (g_column (snd ig)) (fst ig) m)
                                                 l []))
                    = map fst (List.filter (fun ig : nat * HwGroup =>
                                              bool_decide (g_column (snd ig) = c)) l)) as HT.
  { intros c. now rewrite (push_fold_default (fun ig => g_column (snd ig)) fst). }
  split; [|split; [|split]].
  - apply (push_fold_keys_gen (fun ig : nat * HwGroup => g_column (snd ig)) fst). constructor.
  - intros c. rewrite HT. apply filter_fst_NoDup. unfold l.
    change (imap (fun i g => (i, g)) groups)
      with (imap (fun i g => ((0 + i)%nat, g)) groups).
    rewrite indexed_fst. apply NoDup_seq.
  - intros c i. rewrite HT, list_elem_of_fmap. split.
    + intros ([j g] & -> & Hin). apply list_elem_of_In, List.filter_In in Hin as [Hin Hc].
      apply list_elem_of_In, elem_of_lookup_imap in Hin as (j' & g' & [= <- <-] & Hg).
      apply bool_decide_eq_true in Hc. eauto.
    + intros (g & Hg & Hc). exists (i, g). split; [reflexivity|].
      apply list_elem_of_In, List.filter_In. split.
      * apply list_elem_of_In, elem_of_lookup_imap. eauto.
      * now apply bool_decide_eq_true.
  - intros i g Hg.
    destruct (push_fold_is_Some (fun ig : nat * HwGroup => g_column (snd ig)) fst l []
                (g_column g)) as [T HT'].
    { right. exists (i, g). split; [|reflexivity]. apply elem_of_lookup_imap. eauto. }
    eapply get_is_key. exact HT'.
Qed.

Lemma NoDup_app_middle {A : Type} (a b c : list A) : NoDup (a ++ b ++ c) -> NoDup (a ++ b).
Proof.
  rewrite app_assoc. intros H. now apply NoDup_app in H as (H & _ & _).
Qed.

(** The outer loop: the columns, from [canvasX] to the right. *)
Lemma placeColumn_loop original byColumn (cols : list nat) :
  Forall fits original ->
  forall placed groups canvasX,
    NoDup (placed ++ concat (map (fun c => default [] (get c byColumn)) cols)) ->
    (forall c i, c ∈ cols -> i ∈ default [] (get c byColumn) -> is_Some (original !! i)) ->
    placedInv original placed canvasX groups ->
    PADDING <= canvasX ->
    placedInv original (placed ++ concat (map (fun c => default [] (get c byColumn)) cols))
              (snd (fold_left (placeColumn byColumn) cols (groups, canvasX)))
              (fst (fold_left (placeColumn byColumn) cols (groups, canvasX)))
    /\ PADDING <= snd (fold_left (placeColumn byColumn) cols (groups, canvasX)).
Proof.
  intros Hfits. induction cols as [|c cols IH]; intros placed groups canvasX Hnd Hidx Hinv HX.
  - cbn. now rewrite app_nil_r.
  - cbn [fold_left map concat] in *. unfold placeColumn at 2 4 6.
    set (T := default [] (get c byColumn)) in *.
    set (maxWidth := maxOf (map (fun i => from_option g_width 0 (groups !! i)) T)).
    assert (forall i, i ∈ T -> exists g, original !! i = Some g /\ groups !! i = Some g
                                         /\ fits g /\ g_width g <= maxWidth) as HT.
    { intros i Hi. destruct (Hidx c i ltac:(left) Hi) as [g Hg].
      assert (i ∉ placed) as Hip.
      { apply NoDup_app in Hnd as (_ & Hdisj & _). intros Hin. apply (Hdisj i Hin).
        apply elem_of_app. now left. }
      assert (groups !! i = Some g) as Hgi by (rewrite (pi_rest _ _ _ _ Hinv i Hip); exact Hg).
      exists g. split; [assumption|]. split; [assumption|]. split.
      - rewrite Forall_forall in Hfits. apply Hfits. eapply list_elem_of_lookup_2. eassumption.
      - unfold maxWidth. apply maxOf_ge, list_elem_of_fmap. exists i. now rewrite Hgi. }
    assert (0 <= maxWidth) as HmaxW.
    { destruct T as [|i T'] eqn:HTeq; [unfold maxWidth; cbn; lra|].
      destruct (HT i ltac:(left)) as (g & _ & _ & (Hw & _) & Hle). lra. }
    unfold H_GAP in *.
    pose proof (placeGroup_loop original placed canvasX maxWidth T Hfits HX [] groups PADDING)
      as Hinner.
    cbn [app] in Hinner. unfold H_GAP in Hinner.
    rewrite app_assoc. apply IH.
    + now rewrite <- app_assoc.
    + intros c' i Hc'. apply Hidx. now right.
    + apply Hinner.
      * eapply NoDup_app_middle. exact Hnd.
      * intros i Hi. destruct (HT i Hi) as (g & Hg & _ & _ & Hle). eauto.
      * rewrite app_nil_r. eapply placedInv_widen; [|exact Hinv]. lra.
      * intros i a Hi. now apply elem_of_nil in Hi.
      * intros i a Hi Ha. now destruct (pi_bound _ _ _ _ Hinv i a Hi Ha) as (_ & _ & ?).
      * lra.
    + cbn [snd]. lra.
Qed.

Lemma NoDup_concat_columns {A : Type} (T : nat -> list A) (cols : list nat) :
  NoDup cols ->
  (forall c, NoDup (T c)) ->
  (forall c c' x, x ∈ T c -> x ∈ T c' -> c = c') ->
  NoDup (concat (map T cols)).
Proof.
  intros Hcols HT Hdisj. induction Hcols as [|c cols Hc _ IH]; cbn; [constructor|].
  apply NoDup_app. split; [apply HT|]. split; [|exact IH].
  intros x Hx Hin. apply elem_of_concat in Hin as (l & Hxl & Hl).
  apply list_elem_of_fmap in Hl as (c' & -> & Hc').
  assert (c = c') as -> by (eapply Hdisj; eassumption). contradiction.
Qed.

(** Groups that fit are placed without overlap, clear of the canvas
    margin. *)
Lemma placeGroups_apart (groups : list HwGroup) :
  Forall fits groups ->
  ForallOrdPairs apart (concat (map g_layoutBlocks (placeGroups groups)))
  /\ Forall (fun lb => PADDING + GROUP_PAD_X <= lb_x lb /\ PADDING + GROUP_PAD_TOP <= lb_y lb)
            (concat (map g_layoutBlocks (placeGroups groups))).
Proof.
  intros Hfits. unfold placeGroups.
  destruct (groupColumns_spec groups) as (Hkeys & HTnd & HT & Hcol).
  set (byColumn := groupColumns groups) in *.
  set (cols := merge_sort Nat.le (map fst byColumn)).
  assert (cols ≡ₚ map fst byColumn) as Hperm by apply merge_sort_Permutation.
  destruct (placeColumn_loop groups byColumn cols Hfits [] groups PADDING) as [Hinv _].
  { cbn [app]. apply NoDup_concat_columns; [now rewrite Hperm|exact HTnd|].
    intros c c' i Hi Hi'. apply HT in Hi as (g & Hg & <-). apply HT in Hi' as (g' & Hg' & <-).
    congruence. }
  { intros c i _ Hi. apply HT in Hi as (g & Hg & _). eauto. }
  { split.
    - reflexivity.
    - intros i g g' Hg Hg'. rewrite Hg in Hg'. injection Hg' as <-. tauto.
    - reflexivity.
    - intros i. unfold blocksAt. destruct (groups !! i) as [g|] eqn:Hg; cbn; [|constructor].
      rewrite Forall_forall in Hfits.
      now destruct (Hfits g (list_elem_of_lookup_2 _ _ _ Hg)) as (_ & _ & ? & _).
    - intros i j a b Hi. now apply elem_of_nil in Hi.
    - intros i a Hi. now apply elem_of_nil in Hi. }
  { lra. }
  cbn [app] in Hinv.
  set (placed := concat (map (fun c => default [] (get c byColumn)) cols)) in *.
  set (final := fst (fold_left (placeColumn byColumn) cols (groups, PADDING))) in *.
  assert (forall i g, final !! i = Some g ->
            i ∈ placed /\ blocksAt final i = g_layoutBlocks g) as Hall.
  { intros i g Hg. split; [|unfold blocksAt; now rewrite Hg].
    assert (i < length groups)%nat as Hlt.
    { rewrite <- (pi_length _ _ _ _ Hinv). eapply lookup_lt_Some. eassumption. }
    destruct (lookup_lt_is_Some_2 groups i Hlt) as [g0 Hg0].
    apply elem_of_concat. exists (default [] (get (g_column g0) byColumn)). split.
    - apply HT. eauto.
    - apply list_elem_of_fmap. exists (g_column g0). split; [reflexivity|].
      rewrite Hperm. eapply Hcol. eassumption. }
  split.
  - apply FOP_concat.
    + apply Forall_forall. intros l Hl. apply list_elem_of_fmap in Hl as (g & -> & Hg).
      apply list_elem_of_lookup in Hg as [i Hi].
      destruct (Hall i g Hi) as [_ <-]. apply (pi_within _ _ _ _ Hinv).
    + apply FOP_lookup. intros i j l l' Hij Hl Hl'.
      rewrite list_lookup_fmap in Hl, Hl'.
      destruct (final !! i) as [g|] eqn:Hg; [|discriminate].
      destruct (final !! j) as [g'|] eqn:Hg'; [|discriminate].
      cbn in Hl, Hl'. injection Hl as <-. injection Hl' as <-.
      destruct (Hall i g Hg) as [Hi <-]. destruct (Hall j g' Hg') as [Hj <-].
      intros a b. apply (pi_cross _ _ _ _ Hinv); [assumption..|lia].
  - apply Forall_forall. intros a Ha. apply elem_of_concat in Ha as (l & Ha & Hl).
    apply list_elem_of_fmap in Hl as (g & -> & Hg).
    apply list_elem_of_lookup in Hg as [i Hi]. destruct (Hall i g Hi) as [Hin Hb].
    rewrite <- Hb in Ha.
    destruct (pi_bound _ _ _ _ Hinv i a Hin Ha) as (? & ? & _). tauto.
Qed.

(** X28. The layout never overlaps two blocks: in the layout
    [layoutBlocks] returns, any two rectangles lie side by side or one above
    the other, and every rectangle keeps 80 units from the left edge of the
    canvas and 90 from the top. *)
Theorem layoutBlocks_no_overlap (blocks : list Block) (connections : list BlockConnection) :
  exists L, layoutBlocks blocks connections = Some L
    /\ ForallOrdPairs apart L
    /\ Forall (fun lb => 80 <= lb_x lb /\ 90 <= lb_y lb) L.
Proof.
  unfold layoutBlocks. destruct blocks as [|b0 bs].
  { exists []. split; [reflexivity|]. split; constructor. }
  destruct (groupColumn_total (hwGroupMap (b0 :: bs)) connections) as (cols & -> & Hlen).
  cbn [mbind option_bind].
  destruct (mapM (fun e => layoutGroup (fst (fst e)) (snd (fst e)) (snd e) connections)
                 (zip (hwGroupMap (b0 :: bs)) cols)) as [groups|] eqn:Hgroups.
  - cbn. eexists. split; [reflexivity|].
    apply mapM_Some_1 in Hgroups.
    assert (Forall fits groups) as Hfits.
    { clear Hlen. induction Hgroups as [|e g es gs He _ IH]; constructor; [|exact IH].
      eapply layoutGroup_fits. exact He. }
    destruct (placeGroups_apart groups Hfits) as [Hfop Hmargin].
    split; [exact Hfop|].
    eapply Forall_impl; [exact Hmargin|]. cbn.
    unfold PADDING, GROUP_PAD_X, GROUP_PAD_TOP. intros lb [? ?]. split; lra.
  - exfalso.
    assert (is_Some (mapM (fun e => layoutGroup (fst (fst e)) (snd (fst e)) (snd e) connections)
                          (zip (hwGroupMap (b0 :: bs)) cols))) as [? Hs].
    { apply mapM_is_Some. apply Forall_forall. intros e _.
      unfold compose, layoutGroup. cbn beta.
      destruct (blockColumn_total (snd (fst e)) connections) as [c ->]. cbn. eauto. }
    congruence.
Qed.

End LayoutApart.

(** ** Columns of the hardware groups *)

Section GroupColumnLevels.
Import Ordered Layering Levels.




End GroupColumnLevels.

(** ** No handler raises on its target *)

Section OnTarget.
Import Viewer Interaction Targets.
Context (blocks : list Block) (connections : list BlockConnection).


End OnTarget.

Section OnTargetExample.
Import Viewer Interaction Targets Samples.


End OnTargetExample.
